(** * Watermark placement and tiling: a shallow embedding of the React
    components of the watermark tool, and the properties of its
    natural-language specification.

    Numbers.  A JavaScript number is modelled as a real number ([R]) with
    exact arithmetic: [Math.cos], [Math.sin], [Math.abs], [Math.max] and
    [Math.PI] are [cos], [sin], [Rabs], [Rmax] and [PI].  Rounding, NaN and
    the infinities are outside the model.

    Strings.  A JavaScript string is modelled as a [string] of the standard
    library, one character per code unit (code units below 256).

    Loops.  A [for] loop of the source runs on fuel: the result [None] says
    that the loop has not finished within the fuel it was given. *)

From Stdlib Require Import Reals Lra Lia List String Ascii Bool.
From Stdlib Require Import ZArith NArith DecimalString.
Import ListNotations.

Open Scope string_scope.
Open Scope list_scope.
Open Scope R_scope.

(** ** App.tsx: the option types *)

Inductive WatermarkMode : Type := single | repeating.

Inductive WatermarkPosition : Type :=
| top_left | top_center | top_right
| middle_left | middle_center | middle_right
| bottom_left | bottom_center | bottom_right.

(** The string literal behind each member of the union type. *)
Definition position_key (p : WatermarkPosition) : string :=
  match p with
  | top_left => "top-left"
  | top_center => "top-center"
  | top_right => "top-right"
  | middle_left => "middle-left"
  | middle_center => "middle-center"
  | middle_right => "middle-right"
  | bottom_left => "bottom-left"
  | bottom_center => "bottom-center"
  | bottom_right => "bottom-right"
  end.

Record WatermarkOptions : Type := mkOptions {
  text : string;
  fontSize : R;
  color : string;
  opacity : R;
  angle : R;
  mode : WatermarkMode;
  position : WatermarkPosition;
  rowSpacing : R;
  colSpacing : R
}.

(** SettingsPanel.tsx: a named preset. *)
Record SavedStyle : Type := mkSavedStyle {
  name : string;
  options : WatermarkOptions
}.

(** ** The host: what the browser and the PDF library supply *)

Class Host : Type := {
  (** [String(n)] of a number, as a template literal inserts it. *)
  Number_toString : R -> string;
  (** [ctx.measureText(text).width] under the font [ctx.font]. *)
  measureText_width : string -> string -> R;
  (** [helveticaFont.widthOfTextAtSize(text, size)]. *)
  widthOfTextAtSize : string -> R -> R;
  (** [JSON.stringify] of the list of presets. *)
  JSON_stringify : list SavedStyle -> string
}.

(** ** Strings *)

Fixpoint string_drop (n : nat) (s : string) : string :=
  match n, s with
  | O, _ => s
  | S _, EmptyString => EmptyString
  | S n', String _ s' => string_drop n' s'
  end.

Fixpoint string_take (n : nat) (s : string) : string :=
  match n, s with
  | O, _ => EmptyString
  | S _, EmptyString => EmptyString
  | S n', String c s' => String c (string_take n' s')
  end.

(** [s.slice(1)]. *)
Definition slice1 (s : string) : string := string_drop 1 s.

(** [s.substring(a, b)] for [a <= b]. *)
Definition substring_js (a b : nat) (s : string) : string :=
  string_take (b - a) (string_drop a s).

(** [s.includes(sub)]. *)
Fixpoint includes (s sub : string) : bool :=
  if prefix sub s then true
  else match s with
       | EmptyString => false
       | String _ s' => includes s' sub
       end.

(** White space and line terminators that [trim] removes, among the code
    units below 256: TAB, LF, VT, FF, CR, SP and NBSP. *)
Definition is_white (c : ascii) : bool :=
  let n := nat_of_ascii c in
  (Nat.eqb n 9 || Nat.eqb n 10 || Nat.eqb n 11 || Nat.eqb n 12
   || Nat.eqb n 13 || Nat.eqb n 32 || Nat.eqb n 160)%bool.

Fixpoint trim_start (s : string) : string :=
  match s with
  | EmptyString => EmptyString
  | String c s' => if is_white c then trim_start s' else s
  end.

Fixpoint trim_end (s : string) : string :=
  match s with
  | EmptyString => EmptyString
  | String c s' =>
      match trim_end s' with
      | EmptyString => if is_white c then EmptyString else String c EmptyString
      | t => String c t
      end
  end.

(** [s.trim()]. *)
Definition trim (s : string) : string := trim_end (trim_start s).

(** ** Hexadecimal colours *)

Definition is_digit (c : ascii) : bool :=
  let n := nat_of_ascii c in (Nat.leb 48 n && Nat.leb n 57)%bool.

(** The class [[a-f\d]] under the flag [i]. *)
Definition is_hex (c : ascii) : bool :=
  let n := nat_of_ascii c in
  (is_digit c || (Nat.leb 97 n && Nat.leb n 102)
   || (Nat.leb 65 n && Nat.leb n 70))%bool.

Definition hex_value (c : ascii) : option Z :=
  let n := nat_of_ascii c in
  if is_digit c then Some (Z.of_nat (n - 48))
  else if (Nat.leb 97 n && Nat.leb n 102)%bool then Some (Z.of_nat (n - 87))
  else if (Nat.leb 65 n && Nat.leb n 70)%bool then Some (Z.of_nat (n - 55))
  else None.

(** The digits of the longest hexadecimal prefix, most significant first. *)
Fixpoint hex_prefix (s : string) : list Z :=
  match s with
  | EmptyString => []
  | String c s' =>
      match hex_value c with
      | Some d => d :: hex_prefix s'
      | None => []
      end
  end.

Definition hex_digits_value (ds : list Z) : Z :=
  fold_left (fun acc d => (16 * acc + d)%Z) ds 0%Z.

(** [parseInt(s, 16)]: leading white space, a sign and a [0x] prefix are
    skipped, the longest run of hexadecimal digits is read, and the result
    is NaN ([None]) when that run is empty. *)
Definition parseInt16 (s : string) : option Z :=
  let s1 := trim_start s in
  let '(neg, s2) :=
    match s1 with
    | String "-" r => (true, r)
    | String "+" r => (false, r)
    | _ => (false, s1)
    end in
  let s3 :=
    match s2 with
    | String "0" (String "x" r) => r
    | String "0" (String "X" r) => r
    | _ => s2
    end in
  match hex_prefix s3 with
  | [] => None
  | ds => Some (if neg then (- hex_digits_value ds)%Z else hex_digits_value ds)
  end.

(** An integer-valued number as a template literal prints it. *)
Definition int_toString (n : option Z) : string :=
  match n with
  | None => "NaN"
  | Some z => NilZero.string_of_int (Z.to_int z)
  end.

(** The regular expression [/^#?([a-f\d]{2})([a-f\d]{2})([a-f\d]{2})$/i]
    in two steps: the optional [#] is dropped, and what is left has to be
    exactly three pairs of hexadecimal digits, which are the three groups. *)
Definition strip_sharp (hex : string) : string :=
  match hex with
  | String "#" r => r
  | _ => hex
  end.

Definition three_pairs (body : string) : option (string * string * string) :=
  match body with
  | String c1 (String c2 (String c3 (String c4 (String c5 (String c6 EmptyString))))) =>
      if (is_hex c1 && is_hex c2 && is_hex c3 && is_hex c4 && is_hex c5 && is_hex c6)%bool
      then Some (String c1 (String c2 EmptyString),
                 String c3 (String c4 EmptyString),
                 String c5 (String c6 EmptyString))
      else None
  | _ => None
  end.

Definition hex_color_exec (hex : string) : option (string * string * string) :=
  three_pairs (strip_sharp hex).

(** The template literals of [hexToRgba]. *)
Definition rgba_template `{Host} (r g b : string) (o : R) : string :=
  ("rgba(" ++ r ++ ", " ++ g ++ ", " ++ b ++ ", " ++ Number_toString o ++ ")")%string.

(** ** The 2D canvas *)

Inductive CanvasTextAlign : Type :=
| align_start | align_end | align_left | align_right | align_center.

Inductive CanvasTextBaseline : Type :=
| base_alphabetic | base_top | base_hanging | base_middle
| base_ideographic | base_bottom.

(** The current transformation matrix: the point [(x, y)] of user space is
    painted at [(ma*x + mc*y + me, mb*x + md*y + mf)]. *)
Record Matrix : Type := mkMatrix { ma : R; mb : R; mc : R; md : R; me : R; mf : R }.

Definition m_identity : Matrix := mkMatrix 1 0 0 1 0 0.

Definition m_translate (m : Matrix) (tx ty : R) : Matrix :=
  mkMatrix (ma m) (mb m) (mc m) (md m)
           (ma m * tx + mc m * ty + me m)
           (mb m * tx + md m * ty + mf m).

Definition m_rotate (m : Matrix) (a : R) : Matrix :=
  mkMatrix (ma m * cos a + mc m * sin a)
           (mb m * cos a + md m * sin a)
           (mc m * cos a - ma m * sin a)
           (md m * cos a - mb m * sin a)
           (me m) (mf m).

Definition m_apply (m : Matrix) (p : R * R) : R * R :=
  (ma m * fst p + mc m * snd p + me m, mb m * fst p + md m * snd p + mf m).

(** What [save] pushes and [restore] pops. *)
Record DrawingState : Type := mkDrawingState {
  fillStyle : string;
  font : string;
  textAlign : CanvasTextAlign;
  textBaseline : CanvasTextBaseline;
  transform : Matrix
}.

(** One [fillText] call: the text, the user-space point it was given and the
    drawing state it was painted under. *)
Record TextRun : Type := mkTextRun {
  run_text : string;
  run_x : R;
  run_y : R;
  run_state : DrawingState
}.

Record Canvas : Type := mkCanvas {
  width : R;
  height : R;
  state : DrawingState;
  saved : list DrawingState;
  painted : list TextRun
}.

Definition initial_state : DrawingState :=
  mkDrawingState "#000000" "10px sans-serif" align_start base_alphabetic m_identity.

Definition blank_canvas (w h : R) : Canvas := mkCanvas w h initial_state [] [].

(** An effectful routine threads a state (a canvas, a PDF page) and may run
    out of fuel. *)
Definition Eff (S A : Type) : Type := S -> option (A * S).

Definition ret {S A : Type} (a : A) : Eff S A := fun c => Some (a, c).

Definition bind {S A B : Type} (m : Eff S A) (k : A -> Eff S B) : Eff S B :=
  fun c => match m c with
           | Some (a, c') => k a c'
           | None => None
           end.

Notation "x <- m ;; k" := (bind m (fun x => k))
  (at level 61, m at next level, right associativity).
Notation "m ;;; k" := (bind m (fun _ => k))
  (at level 61, right associativity).

(** [for (let i = from; i < bound; i += step) body(i)]. *)
Fixpoint for_lt {S : Type} (fuel : nat) (i bound step : R) (body : R -> Eff S unit)
  : Eff S unit :=
  match fuel with
  | O => fun _ => None
  | S fuel' =>
      if Rlt_dec i bound
      then body i ;;; for_lt fuel' (i + step) bound step body
      else ret tt
  end.

Definition Draw (A : Type) : Type := Eff Canvas A.

Definition with_state (f : DrawingState -> DrawingState) : Draw unit :=
  fun c => Some (tt, mkCanvas (width c) (height c) (f (state c)) (saved c) (painted c)).

Definition set_fillStyle (v : string) : Draw unit :=
  with_state (fun s => mkDrawingState v (font s) (textAlign s) (textBaseline s) (transform s)).

Definition set_font (v : string) : Draw unit :=
  with_state (fun s => mkDrawingState (fillStyle s) v (textAlign s) (textBaseline s) (transform s)).

Definition set_textAlign (v : CanvasTextAlign) : Draw unit :=
  with_state (fun s => mkDrawingState (fillStyle s) (font s) v (textBaseline s) (transform s)).

Definition set_textBaseline (v : CanvasTextBaseline) : Draw unit :=
  with_state (fun s => mkDrawingState (fillStyle s) (font s) (textAlign s) v (transform s)).

Definition translate (tx ty : R) : Draw unit :=
  with_state (fun s => mkDrawingState (fillStyle s) (font s) (textAlign s) (textBaseline s)
                                      (m_translate (transform s) tx ty)).

Definition rotate (a : R) : Draw unit :=
  with_state (fun s => mkDrawingState (fillStyle s) (font s) (textAlign s) (textBaseline s)
                                      (m_rotate (transform s) a)).

Definition save : Draw unit :=
  fun c => Some (tt, mkCanvas (width c) (height c) (state c) (state c :: saved c) (painted c)).

Definition restore : Draw unit :=
  fun c => match saved c with
           | [] => Some (tt, c)
           | s :: rest => Some (tt, mkCanvas (width c) (height c) s rest (painted c))
           end.

Definition fillText (t : string) (x y : R) : Draw unit :=
  fun c => Some (tt, mkCanvas (width c) (height c) (state c) (saved c)
                              (painted c ++ [mkTextRun t x y (state c)])).

Definition measureText `{Host} (t : string) : Draw R :=
  fun c => Some (measureText_width (font (state c)) t, c).

Definition canvas_size : Draw (R * R) :=
  fun c => Some ((width c, height c), c).

(** The template literal of [ctx.font]. *)
Definition font_template `{Host} (sz : R) : string :=
  (Number_toString sz ++ "px Arial")%string.

(** The object each [getWatermarkPosition] returns. *)
Record CanvasPlacement : Type := mkPlacement {
  pos_x : R;
  pos_y : R;
  pos_textAlign : CanvasTextAlign;
  pos_textBaseline : CanvasTextBaseline
}.

(** Property access [table[key]] on an object literal. *)
Fixpoint lookup {A : Type} (key : string) (table : list (string * A)) : option A :=
  match table with
  | [] => None
  | (k, v) :: rest => if String.eqb k key then Some v else lookup key rest
  end.

(** [a || b] where [a] is an object or [undefined]. *)
Definition or_else {A : Type} (a : option A) (b : A) : A :=
  match a with
  | Some v => v
  | None => b
  end.

(** ** The PDF page of pdf-lib *)

Inductive Rotation : Type := degrees (a : R).

(** [rgb(r, g, b)]; a component is [None] when it is NaN. *)
Record Color : Type := rgb { red : option R; green : option R; blue : option R }.

Inductive PDFFont : Type := Helvetica.

Record DrawTextOptions : Type := mkDrawText {
  dt_x : R;
  dt_y : R;
  dt_font : PDFFont;
  dt_size : R;
  dt_color : Color;
  dt_opacity : R;
  dt_rotate : Rotation
}.

(** A page: its size and the [drawText] calls made on it, oldest first. *)
Record PDFPage : Type := mkPage {
  page_width : R;
  page_height : R;
  page_ops : list (string * DrawTextOptions)
}.

Definition drawText (t : string) (o : DrawTextOptions) : Eff PDFPage unit :=
  fun p => Some (tt, mkPage (page_width p) (page_height p) (page_ops p ++ [(t, o)])).

Definition getSize : Eff PDFPage (R * R) :=
  fun p => Some ((page_width p, page_height p), p).

(** The object [getWatermarkPositionPdf] returns. *)
Record PdfPlacement : Type := mkPdfPlacement { pdf_x : R; pdf_y : R }.

(** ** SettingsPanel.tsx *)

Module SettingsPanel.
Section WithHost.
Context `{Host}.

Definition hexToRgba (hex : string) (opacity : R) : string :=
  match hex_color_exec hex with
  | Some (g1, g2, g3) =>
      rgba_template (int_toString (parseInt16 g1)) (int_toString (parseInt16 g2))
                    (int_toString (parseInt16 g3)) opacity
  | None => rgba_template "0" "0" "0" opacity
  end.

Definition getWatermarkPosition (position : WatermarkPosition)
    (canvasWidth canvasHeight margin : R) : CanvasPlacement :=
  let positions :=
    [ ("top-left", mkPlacement margin margin align_left base_top);
      ("top-center", mkPlacement (canvasWidth / 2) margin align_center base_top);
      ("top-right", mkPlacement (canvasWidth - margin) margin align_right base_top);
      ("middle-left", mkPlacement margin (canvasHeight / 2) align_left base_middle);
      ("middle-center", mkPlacement (canvasWidth / 2) (canvasHeight / 2) align_center base_middle);
      ("middle-right", mkPlacement (canvasWidth - margin) (canvasHeight / 2) align_right base_middle);
      ("bottom-left", mkPlacement margin (canvasHeight - margin) align_left base_bottom);
      ("bottom-center", mkPlacement (canvasWidth / 2) (canvasHeight - margin) align_center base_bottom);
      ("bottom-right", mkPlacement (canvasWidth - margin) (canvasHeight - margin) align_right base_bottom) ] in
  or_else (lookup (position_key position) positions)
          (or_else (lookup "middle-center" positions)
                   (mkPlacement (canvasWidth / 2) (canvasHeight / 2) align_center base_middle)).

Definition getWatermarkPositionPdf (position : WatermarkPosition)
    (pageWidth pageHeight margin : R) : PdfPlacement :=
  let positions :=
    [ ("top-left", mkPdfPlacement margin (pageHeight - margin));
      ("top-center", mkPdfPlacement (pageWidth / 2) (pageHeight - margin));
      ("top-right", mkPdfPlacement (pageWidth - margin) (pageHeight - margin));
      ("middle-left", mkPdfPlacement margin (pageHeight / 2));
      ("middle-center", mkPdfPlacement (pageWidth / 2) (pageHeight / 2));
      ("middle-right", mkPdfPlacement (pageWidth - margin) (pageHeight / 2));
      ("bottom-left", mkPdfPlacement margin margin);
      ("bottom-center", mkPdfPlacement (pageWidth / 2) margin);
      ("bottom-right", mkPdfPlacement (pageWidth - margin) margin) ] in
  or_else (lookup (position_key position) positions)
          (or_else (lookup "middle-center" positions)
                   (mkPdfPlacement (pageWidth / 2) (pageHeight / 2))).

(** The constants of the repeating branch of [drawWatermarkOnCanvas]. *)
Definition boxWidth (textWidth textHeight rad : R) : R :=
  textWidth * Rabs (cos rad) + textHeight * Rabs (sin rad).

Definition boxHeight (textWidth textHeight rad : R) : R :=
  textWidth * Rabs (sin rad) + textHeight * Rabs (cos rad).

Definition hSpacing (textWidth textHeight rad colSpacing : R) : R :=
  boxWidth textWidth textHeight rad + colSpacing.

Definition vSpacing (textWidth textHeight rad rowSpacing : R) : R :=
  boxHeight textWidth textHeight rad + rowSpacing.

Definition drawWatermarkOnCanvas (fuel : nat) (canvasWidth canvasHeight : R)
    (customOptions : WatermarkOptions) : Draw unit :=
  let '(mkOptions text fontSize color opacity angle mode position rowSpacing colSpacing) :=
    customOptions in
  set_fillStyle (hexToRgba color opacity) ;;;
  set_font (font_template fontSize) ;;;
  match mode with
  | single =>
      let pos := getWatermarkPosition position canvasWidth canvasHeight fontSize in
      set_textAlign (pos_textAlign pos) ;;;
      set_textBaseline (pos_textBaseline pos) ;;;
      save ;;;
      translate (pos_x pos) (pos_y pos) ;;;
      rotate (- angle * PI / 180) ;;;
      fillText text 0 0 ;;;
      restore
  | repeating =>
      save ;;;
      set_textAlign align_center ;;;
      set_textBaseline base_middle ;;;
      textWidth <- measureText text ;;
      let textHeight := fontSize in
      let rad := - angle * PI / 180 in
      let hSpacing := hSpacing textWidth textHeight rad colSpacing in
      let vSpacing := vSpacing textWidth textHeight rad rowSpacing in
      translate (canvasWidth / 2) (canvasHeight / 2) ;;;
      rotate rad ;;;
      translate (- canvasWidth / 2) (- canvasHeight / 2) ;;;
      for_lt fuel 0 (canvasHeight * 2) vSpacing (fun y =>
        for_lt fuel 0 (canvasWidth * 2) hSpacing (fun x =>
          fillText text (x - canvasWidth) (y - canvasHeight))) ;;;
      restore
  end.

(** [applyWatermarkToImage]: the canvas takes the size of the image and the
    font size is scaled by a thousandth of the image width. *)
Definition applyWatermarkToImage (fuel : nat) (imgWidth imgHeight : R)
    (options : WatermarkOptions) : option Canvas :=
  let scaledFontSize := fontSize options * (imgWidth / 1000) in
  let scaled :=
    mkOptions (text options) scaledFontSize (color options) (opacity options)
              (angle options) (mode options) (position options)
              (rowSpacing options) (colSpacing options) in
  match drawWatermarkOnCanvas fuel imgWidth imgHeight scaled (blank_canvas imgWidth imgHeight) with
  | Some (_, c) => Some c
  | None => None
  end.

(** The constants of the repeating branch of [applyWatermarkToPdf]. *)
Definition pdf_hSpacing (textWidth textHeight rad colSpacing : R) : R :=
  (textWidth * Rabs (cos rad) + textHeight * Rabs (sin rad)) + colSpacing.

Definition pdf_vSpacing (textWidth textHeight rad rowSpacing : R) : R :=
  (textWidth * Rabs (sin rad) + textHeight * Rabs (cos rad)) + rowSpacing.

(** [parseInt(hex.substring(a, b), 16) / 255]. *)
Definition color_component (hex : string) (a b : nat) : option R :=
  match parseInt16 (substring_js a b hex) with
  | Some z => Some (IZR z / 255)
  | None => None
  end.

(** The x coordinate handed to [page.drawText] in single mode. *)
Definition single_draw_x (position : WatermarkPosition) (pos_x textWidth : R) : R :=
  if includes (position_key position) "right" then pos_x - textWidth / 2
  else if includes (position_key position) "center" then pos_x - textWidth / 2
  else pos_x + textWidth / 2.

(** The body of the loop over the pages in [applyWatermarkToPdf]. *)
Definition watermarkPage (fuel : nat) (options : WatermarkOptions) : Eff PDFPage unit :=
  let '(mkOptions text fontSize color opacity angle mode position rowSpacing colSpacing) :=
    options in
  let hex := slice1 color in
  let r := color_component hex 0 2 in
  let g := color_component hex 2 4 in
  let b := color_component hex 4 6 in
  size <- getSize ;;
  let '(width, height) := size in
  let scaledFontSize := fontSize * (width / 1000) in
  match mode with
  | single =>
      let pos := getWatermarkPositionPdf position width height scaledFontSize in
      let textWidth := widthOfTextAtSize text scaledFontSize in
      let x := single_draw_x position (pdf_x pos) textWidth in
      drawText text (mkDrawText x (pdf_y pos) Helvetica scaledFontSize (rgb r g b)
                                opacity (degrees angle))
  | repeating =>
      let textWidth := widthOfTextAtSize text scaledFontSize in
      let textHeight := scaledFontSize in
      let rad := angle * PI / 180 in
      let hSpacing := pdf_hSpacing textWidth textHeight rad colSpacing in
      let vSpacing := pdf_vSpacing textWidth textHeight rad rowSpacing in
      for_lt fuel 0 (height + vSpacing) vSpacing (fun y =>
        for_lt fuel 0 (width + hSpacing) hSpacing (fun x =>
          drawText text (mkDrawText x y Helvetica scaledFontSize (rgb r g b)
                                    opacity (degrees angle))))
  end.

Fixpoint applyWatermarkToPdf (fuel : nat) (options : WatermarkOptions)
    (pages : list PDFPage) : option (list PDFPage) :=
  match pages with
  | [] => Some []
  | page :: rest =>
      match watermarkPage fuel options page with
      | Some (_, page') =>
          match applyWatermarkToPdf fuel options rest with
          | Some rest' => Some (page' :: rest')
          | None => None
          end
      | None => None
      end
  end.

(** The component state that [handleSaveStyle] reads and writes, with the
    browser's [localStorage] and the alerts shown so far. *)
Record Panel : Type := mkPanel {
  styleName : string;
  savedStyles : list SavedStyle;
  localOptions : WatermarkOptions;
  localStorage : list (string * string);
  alerts : list string
}.

(** [localStorage.setItem(key, value)]. *)
Fixpoint setItem (key value : string) (store : list (string * string))
  : list (string * string) :=
  match store with
  | [] => [(key, value)]
  | (k, v) :: rest =>
      if String.eqb k key then (k, value) :: rest
      else (k, v) :: setItem key value rest
  end.

(** [localStorage.getItem(key)]. *)
Definition getItem (key : string) (store : list (string * string)) : option string :=
  lookup key store.

Definition alert (msg : string) (p : Panel) : Panel :=
  mkPanel (styleName p) (savedStyles p) (localOptions p) (localStorage p)
          (alerts p ++ [msg]).

Definition handleSaveStyle (p : Panel) : Panel :=
  if String.eqb (trim (styleName p)) ""
  then alert "Please enter a name for the style." p
  else if existsb (fun s => String.eqb (name s) (trim (styleName p))) (savedStyles p)
  then alert "A style with this name already exists." p
  else
    let newStyle := mkSavedStyle (trim (styleName p)) (localOptions p) in
    let updatedStyles := savedStyles p ++ [newStyle] in
    mkPanel "" updatedStyles (localOptions p)
            (setItem "watermarkStyles" (JSON_stringify updatedStyles) (localStorage p))
            (alerts p).

Definition deleteStyle (styleNameToDelete : string) (p : Panel) : Panel :=
  let updatedStyles :=
    filter (fun s => negb (String.eqb (name s) styleNameToDelete)) (savedStyles p) in
  mkPanel (styleName p) updatedStyles (localOptions p)
          (setItem "watermarkStyles" (JSON_stringify updatedStyles) (localStorage p))
          (alerts p).

End WithHost.
End SettingsPanel.

(** ** The render effects: asynchronous work and the visible canvas

    Each run of a render effect is a render, numbered by the caller.  The
    callbacks a run leaves behind are jobs; the browser completes them one
    at a time, in any order. *)

Definition RenderId : Type := nat.

(** A [RenderTask] of pdf.js. *)
Inductive TaskStatus : Type := Running | Cancelled | Finished.

Inductive Job : Type :=
| ImageLoad (r : RenderId)                (** [img.src] is set, [onload] has not run *)
| GetPage (r : RenderId)                  (** [await pdfDoc.getPage(...)] *)
| PageRender (r : RenderId) (t : nat).    (** [await renderTaskRef.current.promise] *)

Record World : Type := mkWorld {
  renderTaskRef : option nat;   (** [renderTaskRef.current], an index into [tasks] *)
  tasks : list TaskStatus;      (** every [RenderTask] created so far *)
  jobs : list Job;              (** callbacks that have not run yet *)
  has_cleanup : bool;           (** the last run of the effect returned its cleanup *)
  visible : list RenderId       (** calls of [drawToVisibleCanvas], oldest first *)
}.

Definition initial_world : World := mkWorld None [] [] false [].

Definition job_eqb (a b : Job) : bool :=
  match a, b with
  | ImageLoad r, ImageLoad r' => Nat.eqb r r'
  | GetPage r, GetPage r' => Nat.eqb r r'
  | PageRender r t, PageRender r' t' => (Nat.eqb r r' && Nat.eqb t t')%bool
  | _, _ => false
  end.

Definition has_job (j : Job) (w : World) : bool := existsb (job_eqb j) (jobs w).

Fixpoint remove_job (j : Job) (js : list Job) : list Job :=
  match js with
  | [] => []
  | j' :: rest => if job_eqb j j' then rest else j' :: remove_job j rest
  end.

Fixpoint set_status (t : nat) (s : TaskStatus) (ts : list TaskStatus) : list TaskStatus :=
  match ts, t with
  | [], _ => []
  | _ :: rest, O => s :: rest
  | x :: rest, S t' => x :: set_status t' s rest
  end.

Definition status_of (t : nat) (w : World) : option TaskStatus := nth_error (tasks w) t.

(** [task.cancel()]: a task that is still running is cancelled, its promise
    will reject; a task that is over is left as it is. *)
Definition cancel (t : nat) (w : World) : World :=
  match status_of t w with
  | Some Running =>
      mkWorld (renderTaskRef w) (set_status t Cancelled (tasks w)) (jobs w)
              (has_cleanup w) (visible w)
  | _ => w
  end.

(** [if (renderTaskRef.current) renderTaskRef.current.cancel();] *)
Definition cancel_current (w : World) : World :=
  match renderTaskRef w with
  | Some t => cancel t w
  | None => w
  end.

(** React, when the dependencies change: the cleanup the previous run
    returned, if it returned one. *)
Definition run_cleanup (w : World) : World :=
  if has_cleanup w then cancel_current w else w.

Definition add_job (j : Job) (cleanup : bool) (w : World) : World :=
  mkWorld (renderTaskRef w) (tasks w) (jobs w ++ [j]) cleanup (visible w).

Definition set_cleanup (cleanup : bool) (w : World) : World :=
  mkWorld (renderTaskRef w) (tasks w) (jobs w) cleanup (visible w).

(** [drawToVisibleCanvas()] at the end of job [j] of render [r]. *)
Definition commit (j : Job) (r : RenderId) (w : World) : World :=
  mkWorld (renderTaskRef w) (tasks w) (remove_job j (jobs w)) (has_cleanup w)
          (visible w ++ [r]).

(** [img.onload]: the image and the watermark are drawn off screen and copied
    to the visible canvas. *)
Definition image_loaded (r : RenderId) (w : World) : option World :=
  if has_job (ImageLoad r) w then Some (commit (ImageLoad r) r w) else None.

(** [getPage] resolves: [renderTaskRef.current = page.render(...)]. *)
Definition page_ready (r : RenderId) (w : World) : option World :=
  if has_job (GetPage r) w then
    let t := List.length (tasks w) in
    Some (mkWorld (Some t) (tasks w ++ [Running])
                  (remove_job (GetPage r) (jobs w) ++ [PageRender r t])
                  (has_cleanup w) (visible w))
  else None.

(** The promise of a running task resolves: the watermark is drawn and the
    result copied to the visible canvas. *)
Definition render_finished (r : RenderId) (t : nat) (w : World) : option World :=
  if has_job (PageRender r t) w then
    match status_of t w with
    | Some Running =>
        Some (commit (PageRender r t) r
                (mkWorld (renderTaskRef w) (set_status t Finished (tasks w)) (jobs w)
                         (has_cleanup w) (visible w)))
    | _ => None
    end
  else None.

(** The promise of a cancelled task rejects: the [catch] block swallows the
    [RenderingCancelledException]. *)
Definition render_rejected (r : RenderId) (t : nat) (w : World) : option World :=
  if has_job (PageRender r t) w then
    match status_of t w with
    | Some Cancelled =>
        Some (mkWorld (renderTaskRef w) (tasks w) (remove_job (PageRender r t) (jobs w))
                      (has_cleanup w) (visible w))
    | _ => None
    end
  else None.

(** ** PreviewWindow.tsx *)

Module PreviewWindow.
Section WithHost.
Context `{Host}.

Definition hexToRgba (hex : string) (opacity : R) : string :=
  match hex_color_exec hex with
  | Some (g1, g2, g3) =>
      rgba_template (int_toString (parseInt16 g1)) (int_toString (parseInt16 g2))
                    (int_toString (parseInt16 g3)) opacity
  | None => rgba_template "0" "0" "0" opacity
  end.

Definition getWatermarkPosition (position : WatermarkPosition)
    (canvasWidth canvasHeight margin : R) : CanvasPlacement :=
  let positions :=
    [ ("top-left", mkPlacement margin margin align_left base_top);
      ("top-center", mkPlacement (canvasWidth / 2) margin align_center base_top);
      ("top-right", mkPlacement (canvasWidth - margin) margin align_right base_top);
      ("middle-left", mkPlacement margin (canvasHeight / 2) align_left base_middle);
      ("middle-center", mkPlacement (canvasWidth / 2) (canvasHeight / 2) align_center base_middle);
      ("middle-right", mkPlacement (canvasWidth - margin) (canvasHeight / 2) align_right base_middle);
      ("bottom-left", mkPlacement margin (canvasHeight - margin) align_left base_bottom);
      ("bottom-center", mkPlacement (canvasWidth / 2) (canvasHeight - margin) align_center base_bottom);
      ("bottom-right", mkPlacement (canvasWidth - margin) (canvasHeight - margin) align_right base_bottom) ] in
  or_else (lookup (position_key position) positions)
          (or_else (lookup "middle-center" positions)
                   (mkPlacement (canvasWidth / 2) (canvasHeight / 2) align_center base_middle)).

(** The constants of the repeating branch of [drawWatermark]. *)
Definition hSpacing (textWidth colSpacing : R) : R := textWidth + colSpacing.

Definition vSpacing (textHeight rowSpacing : R) : R := textHeight + rowSpacing.

Definition drawWatermark (fuel : nat) (options : WatermarkOptions) : Draw unit :=
  size <- canvas_size ;;
  let '(width, height) := size in
  let '(mkOptions text fontSize color opacity angle mode position rowSpacing colSpacing) :=
    options in
  set_fillStyle (hexToRgba color opacity) ;;;
  set_font (font_template fontSize) ;;;
  match mode with
  | single =>
      let pos := getWatermarkPosition position width height fontSize in
      set_textAlign (pos_textAlign pos) ;;;
      set_textBaseline (pos_textBaseline pos) ;;;
      save ;;;
      translate (pos_x pos) (pos_y pos) ;;;
      rotate (- angle * PI / 180) ;;;
      fillText text 0 0 ;;;
      restore
  | repeating =>
      save ;;;
      set_textAlign align_center ;;;
      set_textBaseline base_middle ;;;
      textWidth <- measureText text ;;
      let textHeight := fontSize in
      let hSpacing := hSpacing textWidth colSpacing in
      let vSpacing := vSpacing textHeight rowSpacing in
      let rad := - angle * PI / 180 in
      for_lt fuel 0 (height + vSpacing) vSpacing (fun y =>
        for_lt fuel 0 (width + hSpacing) hSpacing (fun x =>
          save ;;;
          translate x y ;;;
          rotate rad ;;;
          fillText text 0 0 ;;;
          restore)) ;;;
      restore
  end.

(** What the render effect reads from the component. *)
Record Props : Type := mkProps {
  detail : bool;        (** [viewMode === 'detail'] *)
  has_canvas : bool;    (** [canvasRef.current] and its 2D context exist *)
  has_file : bool;      (** [fileToRender] is defined *)
  isPdfMode : bool;
  has_pdfDoc : bool     (** [pdfDoc] is loaded *)
}.

(** One run of the render effect, render [r]; the off-screen canvas it
    creates has a 2D context.  An image render leaves its [onload] behind, a
    page render its wait for [getPage]. *)
Definition effect (r : RenderId) (p : Props) (w : World) : World :=
  if (negb (detail p) || negb (has_canvas p) || negb (has_file p))%bool
  then set_cleanup false w
  else
    let w1 := cancel_current w in
    if (negb (isPdfMode p) && has_file p)%bool then add_job (ImageLoad r) true w1
    else if (isPdfMode p && has_pdfDoc p)%bool then add_job (GetPage r) true w1
    else set_cleanup true w1.

End WithHost.
End PreviewWindow.

(** ** Thumbnail.tsx *)

Module Thumbnail.
Section WithHost.
Context `{Host}.

Definition hexToRgba (hex : string) (opacity : R) : string :=
  match hex_color_exec hex with
  | Some (g1, g2, g3) =>
      rgba_template (int_toString (parseInt16 g1)) (int_toString (parseInt16 g2))
                    (int_toString (parseInt16 g3)) opacity
  | None => rgba_template "0" "0" "0" opacity
  end.

Definition getWatermarkPosition (position : WatermarkPosition)
    (canvasWidth canvasHeight margin : R) : CanvasPlacement :=
  let positions :=
    [ ("top-left", mkPlacement margin margin align_left base_top);
      ("top-center", mkPlacement (canvasWidth / 2) margin align_center base_top);
      ("top-right", mkPlacement (canvasWidth - margin) margin align_right base_top);
      ("middle-left", mkPlacement margin (canvasHeight / 2) align_left base_middle);
      ("middle-center", mkPlacement (canvasWidth / 2) (canvasHeight / 2) align_center base_middle);
      ("middle-right", mkPlacement (canvasWidth - margin) (canvasHeight / 2) align_right base_middle);
      ("bottom-left", mkPlacement margin (canvasHeight - margin) align_left base_bottom);
      ("bottom-center", mkPlacement (canvasWidth / 2) (canvasHeight - margin) align_center base_bottom);
      ("bottom-right", mkPlacement (canvasWidth - margin) (canvasHeight - margin) align_right base_bottom) ] in
  or_else (lookup (position_key position) positions)
          (mkPlacement (canvasWidth / 2) (canvasHeight / 2) align_center base_middle).

(** The constants of the repeating branch of [drawWatermarkToCanvas]. *)
Definition boxWidth (textWidth textHeight rad : R) : R :=
  textWidth * Rabs (cos rad) + textHeight * Rabs (sin rad).

Definition boxHeight (textWidth textHeight rad : R) : R :=
  textWidth * Rabs (sin rad) + textHeight * Rabs (cos rad).

Definition hSpacing (textWidth textHeight rad colSpacing : R) : R :=
  boxWidth textWidth textHeight rad + colSpacing.

Definition vSpacing (textWidth textHeight rad rowSpacing : R) : R :=
  boxHeight textWidth textHeight rad + rowSpacing.

Definition scaleFactor : R := 1 / 4.

Definition drawWatermarkToCanvas (fuel : nat) (options : WatermarkOptions) (text : string)
  : Draw unit :=
  size <- canvas_size ;;
  let '(width, height) := size in
  let color := color options in
  let opacity := opacity options in
  let angle := angle options in
  let mode := mode options in
  let position := position options in
  let fontSize := Rmax 8 (fontSize options * scaleFactor) in
  let rowSpacing := rowSpacing options * scaleFactor in
  let colSpacing := colSpacing options * scaleFactor in
  set_fillStyle (hexToRgba color opacity) ;;;
  set_font (font_template fontSize) ;;;
  match mode with
  | single =>
      let pos := getWatermarkPosition position width height fontSize in
      set_textAlign (pos_textAlign pos) ;;;
      set_textBaseline (pos_textBaseline pos) ;;;
      save ;;;
      translate (pos_x pos) (pos_y pos) ;;;
      rotate (- angle * PI / 180) ;;;
      fillText text 0 0 ;;;
      restore
  | repeating =>
      save ;;;
      set_textAlign align_center ;;;
      set_textBaseline base_middle ;;;
      textWidth <- measureText text ;;
      let textHeight := fontSize in
      let rad := - angle * PI / 180 in
      let hSpacing := hSpacing textWidth textHeight rad colSpacing in
      let vSpacing := vSpacing textWidth textHeight rad rowSpacing in
      translate (width / 2) (height / 2) ;;;
      rotate rad ;;;
      translate (- width / 2) (- height / 2) ;;;
      for_lt fuel 0 (height * 2) vSpacing (fun y =>
        for_lt fuel 0 (width * 2) hSpacing (fun x =>
          fillText text (x - width) (y - height))) ;;;
      restore
  end.

(** What the render effect reads from the component. *)
Record Props : Type := mkProps {
  has_canvas : bool;   (** [canvasRef.current] and its 2D context exist *)
  has_file : bool;     (** [file] is given: an image *)
  has_pdfDoc : bool    (** [pdfDoc] is given: a page of a PDF *)
}.

(** One run of the render effect, render [r]; the off-screen canvas it
    creates has a 2D context. *)
Definition effect (r : RenderId) (p : Props) (w : World) : World :=
  if negb (has_canvas p)
  then set_cleanup false w
  else
    let w1 := cancel_current w in
    if has_file p then add_job (ImageLoad r) true w1
    else if has_pdfDoc p then add_job (GetPage r) true w1
    else set_cleanup true w1.

End WithHost.
End Thumbnail.

(** ** The event loop around a render effect *)

Inductive Event (P : Type) : Type :=
| Rerender (r : RenderId) (p : P)   (** the dependencies changed: cleanup, then the effect *)
| ImageLoaded (r : RenderId)
| PageReady (r : RenderId)
| RenderFinished (r : RenderId) (t : nat)
| RenderRejected (r : RenderId) (t : nat).

Arguments Rerender {P} r p.
Arguments ImageLoaded {P} r.
Arguments PageReady {P} r.
Arguments RenderFinished {P} r t.
Arguments RenderRejected {P} r t.

(** One event; [None] when the event cannot happen in this world. *)
Definition step {P : Type} (effect : RenderId -> P -> World -> World)
    (w : World) (e : Event P) : option World :=
  match e with
  | Rerender r p => Some (effect r p (run_cleanup w))
  | ImageLoaded r => image_loaded r w
  | PageReady r => page_ready r w
  | RenderFinished r t => render_finished r t w
  | RenderRejected r t => render_rejected r t w
  end.

Fixpoint run {P : Type} (effect : RenderId -> P -> World -> World)
    (w : World) (es : list (Event P)) : option World :=
  match es with
  | [] => Some w
  | e :: rest =>
      match step effect w e with
      | Some w' => run effect w' rest
      | None => None
      end
  end.

(** ** SettingsPanel.tsx: the presets at mount *)

(** [localStorage.removeItem(key)]. *)
Definition removeItem (key : string) (store : list (string * string))
  : list (string * string) :=
  filter (fun kv => negb (String.eqb (fst kv) key)) store.

(** The effect that runs once, at mount: the presets are read back from
    [localStorage].  [JSON_parse] is [JSON.parse] on what was stored, [None]
    when it throws; an empty string counts as nothing stored; a value that
    does not parse is removed from the storage. *)
Definition load_styles_effect (JSON_parse : string -> option (list SavedStyle))
    (p : SettingsPanel.Panel) : SettingsPanel.Panel :=
  match SettingsPanel.getItem "watermarkStyles" (SettingsPanel.localStorage p) with
  | Some stylesFromStorage =>
      if String.eqb stylesFromStorage "" then p
      else
        match JSON_parse stylesFromStorage with
        | Some styles =>
            SettingsPanel.mkPanel (SettingsPanel.styleName p) styles
              (SettingsPanel.localOptions p) (SettingsPanel.localStorage p)
              (SettingsPanel.alerts p)
        | None =>
            SettingsPanel.mkPanel (SettingsPanel.styleName p) (SettingsPanel.savedStyles p)
              (SettingsPanel.localOptions p)
              (removeItem "watermarkStyles" (SettingsPanel.localStorage p))
              (SettingsPanel.alerts p)
        end
  | None => p
  end.

(** ** The canvases the renders draw on *)

(** [canvas.width = v]: the attribute is an integer, the fraction of a
    positive [v] is dropped. *)
Definition canvas_dimension (v : R) : R := IZR (Int_part v).

(** PreviewWindow.tsx, [img.onload]: the off-screen canvas is the image
    scaled down to the width of the parent, never up, and the watermark is
    drawn on it. *)
Definition preview_image_canvas (parentWidth imgWidth imgHeight : R) : Canvas :=
  let scale := Rmin (parentWidth / imgWidth) 1 in
  blank_canvas (canvas_dimension (imgWidth * scale)) (canvas_dimension (imgHeight * scale)).

Definition preview_image_onload `{Host} (fuel : nat) (parentWidth imgWidth imgHeight : R)
    (options : WatermarkOptions) : option Canvas :=
  match PreviewWindow.drawWatermark fuel options
          (preview_image_canvas parentWidth imgWidth imgHeight) with
  | Some (_, c) => Some c
  | None => None
  end.

(** Thumbnail.tsx, [img.onload]: the off-screen canvas is 150 by 150 and the
    watermark carries the text of the options. *)
Definition thumbnail_image_onload `{Host} (fuel : nat) (options : WatermarkOptions)
  : option Canvas :=
  match Thumbnail.drawWatermarkToCanvas fuel options (text options) (blank_canvas 150 150) with
  | Some (_, c) => Some c
  | None => None
  end.

(** ** App.tsx and PreviewWindow.tsx: which file is shown *)

(** What the code reads of a [File]. *)
Record File : Type := mkFile { file_name : string; file_type : string }.

Inductive ViewMode : Type := overview_mode | detail_mode.

(** The state of [App]. *)
Record AppState : Type := mkApp {
  files : list File;
  viewMode : ViewMode;
  selectedIndex : nat
}.

Definition initial_app : AppState := mkApp [] detail_mode 0.

(** [setFiles(fs)], as the uploader calls it (with the chosen files, or with
    the empty list when its mode changes). *)
Definition setFiles (fs : list File) (s : AppState) : AppState :=
  mkApp fs (viewMode s) (selectedIndex s).

(** The effect of [App] on a change of [files]: the selection goes back to
    the first file, the view to the overview for several files and to the
    detail view otherwise. *)
Definition files_effect (s : AppState) : AppState :=
  mkApp (files s)
        (if Nat.ltb 1 (List.length (files s)) then overview_mode else detail_mode)
        0.

(** PreviewWindow.tsx: [files.length === 1 && files[0]?.type === 'application/pdf']. *)
Definition isPdfMode (fs : list File) : bool :=
  (Nat.eqb (List.length fs) 1
   && match nth_error fs 0 with
      | Some f => String.eqb (file_type f) "application/pdf"
      | None => false
      end)%bool.

(** PreviewWindow.tsx: [isPdfMode ? files[0] : files[selectedIndex]]; [None]
    is [undefined]. *)
Definition fileToRender (s : AppState) : option File :=
  if isPdfMode (files s) then nth_error (files s) 0
  else nth_error (files s) (selectedIndex s).

(** PreviewWindow.tsx, [handleThumbnailClick]. *)
Definition handleThumbnailClick (index : nat) (s : AppState) : AppState :=
  mkApp (files s) detail_mode index.

(** What the user does.  A thumbnail exists for every file, or for every
    page of the one PDF. *)
Inductive AppEvent : Type :=
| Upload (fs : list File)          (** [setFiles], then the effect on [files] *)
| ClickThumbnail (index : nat)     (** a thumbnail of the overview *)
| BackToOverview.                  (** the button of the detail view *)

Definition app_step (s : AppState) (e : AppEvent) : option AppState :=
  match e with
  | Upload fs => Some (files_effect (setFiles fs s))
  | ClickThumbnail index =>
      if (isPdfMode (files s) || Nat.ltb index (List.length (files s)))%bool
      then Some (handleThumbnailClick index s)
      else None
  | BackToOverview => Some (mkApp (files s) overview_mode (selectedIndex s))
  end.

Fixpoint app_run (s : AppState) (es : list AppEvent) : option AppState :=
  match es with
  | [] => Some s
  | e :: rest =>
      match app_step s e with
      | Some s' => app_run s' rest
      | None => None
      end
  end.

(** ** The vocabulary of the specification *)

(** The three rows and the three columns of the 3 x 3 anchor grid. *)
Inductive AnchorRow : Type := row_top | row_middle | row_bottom.

Inductive AnchorColumn : Type := col_left | col_center | col_right.

Definition anchor_row (p : WatermarkPosition) : AnchorRow :=
  match p with
  | top_left | top_center | top_right => row_top
  | middle_left | middle_center | middle_right => row_middle
  | bottom_left | bottom_center | bottom_right => row_bottom
  end.

Definition anchor_column (p : WatermarkPosition) : AnchorColumn :=
  match p with
  | top_left | middle_left | bottom_left => col_left
  | top_center | middle_center | bottom_center => col_center
  | top_right | middle_right | bottom_right => col_right
  end.

(** A colour string of the form the claim names: six hexadecimal digits,
    with or without a leading [#]. *)
Definition six_hex_digits (s : string) : bool :=
  (Nat.eqb (String.length s) 6 && forallb is_hex (list_ascii_of_string s))%bool.

Definition hex_form (s : string) : bool :=
  (six_hex_digits s
   || match s with
      | String "#" r => six_hex_digits r
      | _ => false
      end)%bool.

(** Where a text of width [textWidth] has to start so that it sits at the
    anchor as the column of the anchor says: a left anchor is the start of
    the text, a centre anchor its middle, a right anchor its end. *)
Definition aligned_start (c : AnchorColumn) (anchor_x textWidth : R) : R :=
  match c with
  | col_left => anchor_x
  | col_center => anchor_x - textWidth / 2
  | col_right => anchor_x - textWidth
  end.

(** Following the specification (4.2, step 4): the values [i] from [from] up
    to [bound] in steps of [step]. *)
Fixpoint range_lt (fuel : nat) (i bound step : R) : option (list R) :=
  match fuel with
  | O => None
  | S fuel' =>
      if Rlt_dec i bound
      then match range_lt fuel' (i + step) bound step with
           | Some rest => Some (i :: rest)
           | None => None
           end
      else Some []
  end.

(** Following the specification (4.2, step 4): origins for [y] from 0 to
    [2 * surfaceHeight] step [vStride] and [x] from 0 to [2 * surfaceWidth]
    step [hStride], each offset by [(- surfaceWidth, - surfaceHeight)]. *)
Definition canonical_origins (fuel : nat) (surfaceWidth surfaceHeight hStride vStride : R)
  : option (list (R * R)) :=
  match range_lt fuel 0 (2 * surfaceHeight) vStride,
        range_lt fuel 0 (2 * surfaceWidth) hStride with
  | Some ys, Some xs =>
      Some (flat_map (fun y => map (fun x => (x - surfaceWidth, y - surfaceHeight)) xs) ys)
  | _, _ => None
  end.

(** Following the specification (4.2, step 4): one rotation of the whole
    frame by [rad] about the centre of the surface, on top of the transform
    [m] in force. *)
Definition frame_rotation (m : Matrix) (surfaceWidth surfaceHeight rad : R) : Matrix :=
  m_translate (m_rotate (m_translate m (surfaceWidth / 2) (surfaceHeight / 2)) rad)
              (- surfaceWidth / 2) (- surfaceHeight / 2).

(** A rotation of one instance about its own origin [(x, y)]. *)
Definition instance_rotation (m : Matrix) (x y rad : R) : Matrix :=
  m_rotate (m_translate m x y) rad.

(** Where each painted text went: its user-space point and its transform. *)
Definition placements (c : Canvas) : list (R * R * Matrix) :=
  map (fun r => (run_x r, run_y r, transform (run_state r))) (painted c).

(** Some hosts to run the code on: every text measures [w] wide. *)
Definition fixed_width_host (w : R) : Host :=
  {| Number_toString := fun _ => "n";
     measureText_width := fun _ _ => w;
     widthOfTextAtSize := fun _ _ => w;
     JSON_stringify := fun l => String.concat "," (map name l) |}.

(** The canvas on entry to the loops of a repeating render: the fill style
    and the font are set, the state is saved, the text is centred on its
    point and the transform is [m]. *)
Definition entered (fill fnt : string) (m : Matrix) (c : Canvas) : Canvas :=
  mkCanvas (width c) (height c)
    (mkDrawingState fill fnt align_center base_middle m)
    (mkDrawingState fill fnt (textAlign (state c)) (textBaseline (state c))
                    (transform (state c)) :: saved c)
    (painted c).

(** The canvas with further text painted on it. *)
Definition paint (c : Canvas) (runs : list TextRun) : Canvas :=
  mkCanvas (width c) (height c) (state c) (saved c) (painted c ++ runs).

(** The origins the loops of [PreviewWindow.drawWatermark] run through: [y]
    from 0 while below [height + vSpacing], [x] from 0 while below
    [width + hSpacing], with no offset. *)
Definition preview_origins (fuel : nat) (width height hSpacing vSpacing : R)
  : option (list (R * R)) :=
  match range_lt fuel 0 (height + vSpacing) vSpacing,
        range_lt fuel 0 (width + hSpacing) hSpacing with
  | Some ys, Some xs => Some (flat_map (fun y => map (fun x => (x, y)) xs) ys)
  | _, _ => None
  end.

(** ** Sample inputs *)

Definition confidential (position : WatermarkPosition) : WatermarkOptions :=
  mkOptions "CONFIDENTIAL" 48 "#ffffff" (1 / 2) 0 single position 50 50.

Definition tiled_draft : WatermarkOptions :=
  mkOptions "DRAFT" 50 "#ffffff" (1 / 2) 90 repeating middle_center 0 0.

Definition sample_panel (typed : string) : SettingsPanel.Panel :=
  SettingsPanel.mkPanel typed
    [mkSavedStyle "draft" (mkOptions "DRAFT" 48 "#ff0000" (1 / 2) 45 repeating middle_center 50 50)]
    (mkOptions "FINAL" 64 "#000000" 1 0 single top_left 0 0)
    [("watermarkStyles", "draft")]
    [].

Definition preview_image : PreviewWindow.Props := PreviewWindow.mkProps true true true false false.

Definition preview_page : PreviewWindow.Props := PreviewWindow.mkProps true true true true true.

Definition thumbnail_image : Thumbnail.Props := Thumbnail.mkProps true true false.

Definition thumbnail_page : Thumbnail.Props := Thumbnail.mkProps true false true.

(** One turn of a loop on concrete numbers. *)
Ltac decide_turn lemma_enter lemma_exit :=
  first [ rewrite lemma_enter by lra | rewrite lemma_exit by lra ].

(** ** Further vocabulary *)

(** The drawing state of [c] with the fill style and the font a render
    sets. *)
Definition styled (fill fnt : string) (c : Canvas) : DrawingState :=
  mkDrawingState fill fnt (textAlign (state c)) (textBaseline (state c))
                 (transform (state c)).

(** The cell of an origin: the rectangle one stride wide and one stride high
    that starts at the origin. *)
Definition in_cell (o : R * R) (hStride vStride : R) (p : R * R) : Prop :=
  fst o <= fst p < fst o + hStride /\ snd o <= snd p < snd o + vStride.

(** A page with further [drawText] calls made on it. *)
Definition add_ops (p : PDFPage) (ops : list (string * DrawTextOptions)) : PDFPage :=
  mkPage (page_width p) (page_height p) (page_ops p ++ ops).

(** The colour of the page export: [rgb] of the three components of the
    string after its first character. *)
Definition pdf_color (color : string) : Color :=
  rgb (SettingsPanel.color_component (slice1 color) 0 2)
      (SettingsPanel.color_component (slice1 color) 2 4)
      (SettingsPanel.color_component (slice1 color) 4 6).

(** The names of the saved styles are pairwise distinct. *)
Definition unique_names (p : SettingsPanel.Panel) : Prop :=
  NoDup (map name (SettingsPanel.savedStyles p)).

(** The storage holds the list of saved styles that is on screen. *)
Definition in_sync `{Host} (p : SettingsPanel.Panel) : Prop :=
  SettingsPanel.getItem "watermarkStyles" (SettingsPanel.localStorage p)
  = Some (JSON_stringify (SettingsPanel.savedStyles p)).

(** What a render leaves of the canvas it was given: its size, its stack of
    saved states, its transform and what was painted on it before. *)
Definition canvas_kept (c c' : Canvas) : Prop :=
  width c' = width c /\ height c' = height c
  /\ saved c' = saved c
  /\ transform (state c') = transform (state c)
  /\ exists runs, painted c' = painted c ++ runs.

(** Where on the canvas a text is painted: the point it was given, under the
    transform in force when it was painted. *)
Definition painted_at (r : TextRun) : R * R :=
  m_apply (transform (run_state r)) (run_x r, run_y r).

(** The text alignment and baseline of the canvas are what they were. *)
Definition alignment_kept (c c' : Canvas) : Prop :=
  textAlign (state c') = textAlign (state c)
  /\ textBaseline (state c') = textBaseline (state c).

(** A [drawText] call of the page export on [page]: the text of the options
    in Helvetica, at the font size scaled by a thousandth of the page width,
    in the colour and opacity of the options, rotated by their angle. *)
Definition is_mark (options : WatermarkOptions) (page : PDFPage)
    (op : string * DrawTextOptions) : Prop :=
  fst op = text options
  /\ dt_font (snd op) = Helvetica
  /\ dt_size (snd op) = fontSize options * (page_width page / 1000)
  /\ dt_color (snd op) = pdf_color (color options)
  /\ dt_opacity (snd op) = opacity options
  /\ dt_rotate (snd op) = degrees (angle options).

(** The page [p'] is the page [p] with marks added: same size, the calls
    made before still there and in place, every new call a mark. *)
Definition page_marked (options : WatermarkOptions) (p p' : PDFPage) : Prop :=
  page_width p' = page_width p /\ page_height p' = page_height p
  /\ exists ops, page_ops p' = page_ops p ++ ops /\ Forall (is_mark options p) ops.


(** A world in which render 1 of a page is rasterising: its task is the one
    in [renderTaskRef] and is running. *)
Definition rasterising_world : World :=
  mkWorld (Some 0%nat) [Running] [PageRender 1%nat 0%nat] true [].

(** A name as [handleSaveStyle] stores it: not empty, and with nothing for
    [trim] to remove. *)
Definition clean_name (n : string) : Prop := n <> "" /\ trim n = n.


(** Following the specification (4.2, steps 1 to 3): the rotated bounding
    box of one instance, a text [textWidth] wide and [textHeight] high
    turned by [angleDegrees], and the strides it gives. *)
Definition absCos (angleDegrees : R) : R := Rabs (cos (angleDegrees * PI / 180)).

Definition absSin (angleDegrees : R) : R := Rabs (sin (angleDegrees * PI / 180)).

Definition rotated_boxWidth (textWidth textHeight angleDegrees : R) : R :=
  textWidth * absCos angleDegrees + textHeight * absSin angleDegrees.

Definition rotated_boxHeight (textWidth textHeight angleDegrees : R) : R :=
  textWidth * absSin angleDegrees + textHeight * absCos angleDegrees.

Definition hStride (textWidth textHeight angleDegrees colSpacing : R) : R :=
  rotated_boxWidth textWidth textHeight angleDegrees + colSpacing.

Definition vStride (textWidth textHeight angleDegrees rowSpacing : R) : R :=
  rotated_boxHeight textWidth textHeight angleDegrees + rowSpacing.

(** A mark turned by a quarter turn, with no spacing. *)
Definition upright_confidential : WatermarkOptions :=
  mkOptions "CONFIDENTIAL" 48 "#ffffff" (1 / 2) 90 repeating middle_center 0 0.
(** ** Colours *)

Lemma three_pairs_none (s : string) :
  six_hex_digits s = false -> three_pairs s = None.
Proof.
  intros Hs.
  destruct s as [|c1 [|c2 [|c3 [|c4 [|c5 [|c6 [|c7 s]]]]]]]; try reflexivity.
  unfold six_hex_digits in Hs. simpl in Hs.
  rewrite andb_true_r in Hs.
  unfold three_pairs. rewrite !andb_assoc in Hs. rewrite Hs. reflexivity.
Qed.

Lemma three_pairs_some (s : string) :
  six_hex_digits s = true -> three_pairs s <> None.
Proof.
  unfold six_hex_digits. intros Hs.
  apply andb_true_iff in Hs. destruct Hs as [Hlen Hall].
  destruct s as [|c1 [|c2 [|c3 [|c4 [|c5 [|c6 [|c7 s]]]]]]]; try discriminate.
  simpl in Hall. rewrite andb_true_r in Hall.
  unfold three_pairs. rewrite !andb_assoc in Hall. rewrite Hall. discriminate.
Qed.

Lemma strip_sharp_other (c : ascii) (r : string) :
  c <> "#"%char -> strip_sharp (String c r) = String c r.
Proof.
  intros Hc.
  destruct c as [[] [] [] [] [] [] [] []]; try reflexivity.
  exfalso. apply Hc. reflexivity.
Qed.

Lemma sharp_not_hex_start (r : string) : six_hex_digits (String "#" r) = false.
Proof.
  unfold six_hex_digits. simpl.
  destruct (Nat.eqb (String.length r) 5); reflexivity.
Qed.

Lemma hex_color_exec_none (hex : string) :
  hex_form hex = false -> hex_color_exec hex = None.
Proof.
  unfold hex_form. intros Hf.
  apply orb_false_iff in Hf. destruct Hf as [Hplain Hsharp].
  unfold hex_color_exec.
  destruct hex as [|c r].
  - reflexivity.
  - destruct (ascii_dec c "#") as [->|Hc].
    + apply three_pairs_none. exact Hsharp.
    + rewrite strip_sharp_other by exact Hc.
      apply three_pairs_none. exact Hplain.
Qed.

Lemma hex_color_exec_some (hex : string) :
  hex_form hex = true -> hex_color_exec hex <> None.
Proof.
  unfold hex_form, hex_color_exec. intros Hf.
  destruct hex as [|c r]; try discriminate.
  destruct (ascii_dec c "#") as [->|Hc].
  - rewrite sharp_not_hex_start in Hf. simpl in Hf.
    apply three_pairs_some. exact Hf.
  - rewrite strip_sharp_other by exact Hc.
    apply three_pairs_some.
    apply orb_true_iff in Hf. destruct Hf as [Hplain | Hsharp]; [exact Hplain|].
    exfalso.
    destruct c as [[] [] [] [] [] [] [] []]; try discriminate.
    apply Hc. reflexivity.
Qed.

(** C10.  A colour string that is not of the six-hexadecimal-digit form (with
    or without the leading [#]) makes each of the three copies of
    [hexToRgba] return [rgba(0, 0, 0, <opacity>)], for every opacity: the
    helper has a result and it is opaque black at the opacity given. *)
Theorem hexToRgba_invalid_is_black `{Host} (hex : string) (opacity : R) :
  hex_form hex = false ->
  PreviewWindow.hexToRgba hex opacity
    = ("rgba(0, 0, 0, " ++ Number_toString opacity ++ ")")%string
  /\ SettingsPanel.hexToRgba hex opacity
    = ("rgba(0, 0, 0, " ++ Number_toString opacity ++ ")")%string
  /\ Thumbnail.hexToRgba hex opacity
    = ("rgba(0, 0, 0, " ++ Number_toString opacity ++ ")")%string.
Proof.
  intros Hf. apply hex_color_exec_none in Hf.
  unfold PreviewWindow.hexToRgba, SettingsPanel.hexToRgba, Thumbnail.hexToRgba.
  rewrite Hf. unfold rgba_template. simpl. repeat split; reflexivity.
Qed.

Lemma hexToRgba_invalid_is_black_witness :
  hex_form "tomato" = false
  /\ @SettingsPanel.hexToRgba (fixed_width_host 0) "tomato" (1 / 2) = "rgba(0, 0, 0, n)".
Proof.
  split.
  - reflexivity.
  - apply (@hexToRgba_invalid_is_black (fixed_width_host 0) "tomato" (1 / 2)).
    reflexivity.
Defined.

(** The three raster renders hand the result of [hexToRgba] to the canvas
    before they draw, so a colour that is not of the hexadecimal form does
    not stop a render: the single mark is painted, in black at the opacity
    given. *)
Lemma invalid_color_still_paints `{Host} (fuel : nat) (options : WatermarkOptions)
    (label : string) (c : Canvas) :
  mode options = single ->
  hex_form (color options) = false ->
  let black := ("rgba(0, 0, 0, " ++ Number_toString (opacity options) ++ ")")%string in
  (exists c' run,
      PreviewWindow.drawWatermark fuel options c = Some (tt, c')
      /\ painted c' = painted c ++ [run]
      /\ fillStyle (run_state run) = black)
  /\ (exists c' run,
        SettingsPanel.drawWatermarkOnCanvas fuel (width c) (height c) options c = Some (tt, c')
        /\ painted c' = painted c ++ [run]
        /\ fillStyle (run_state run) = black)
  /\ (exists c' run,
        Thumbnail.drawWatermarkToCanvas fuel options label c = Some (tt, c')
        /\ painted c' = painted c ++ [run]
        /\ fillStyle (run_state run) = black).
Proof.
  destruct options as [t fs col op an md ps rs cs].
  cbn [mode color opacity]. intros -> Hf.
  set (black := ("rgba(0, 0, 0, " ++ Number_toString op ++ ")")%string).
  pose proof (hex_color_exec_none col Hf) as Hnone.
  assert (Hp : PreviewWindow.hexToRgba col op = black).
  { unfold PreviewWindow.hexToRgba. rewrite Hnone. reflexivity. }
  assert (Hs : SettingsPanel.hexToRgba col op = black).
  { unfold SettingsPanel.hexToRgba. rewrite Hnone. reflexivity. }
  assert (Ht : Thumbnail.hexToRgba col op = black).
  { unfold Thumbnail.hexToRgba. rewrite Hnone. reflexivity. }
  split; [|split]; eexists; eexists;
    (split; [unfold PreviewWindow.drawWatermark, SettingsPanel.drawWatermarkOnCanvas,
               Thumbnail.drawWatermarkToCanvas, bind; simpl; reflexivity|]);
    (split; [reflexivity|]); cbn [run_state fillStyle]; assumption.
Qed.

(** ** Anchors *)

(** The three copies of [getWatermarkPosition] return the same object. *)
Lemma getWatermarkPosition_copies (p : WatermarkPosition) (w h m : R) :
  PreviewWindow.getWatermarkPosition p w h m = SettingsPanel.getWatermarkPosition p w h m
  /\ Thumbnail.getWatermarkPosition p w h m = SettingsPanel.getWatermarkPosition p w h m.
Proof. destruct p; split; reflexivity. Qed.

(** The raster anchor, by row and column. *)
Lemma getWatermarkPosition_grid (p : WatermarkPosition) (w h m : R) :
  pos_x (SettingsPanel.getWatermarkPosition p w h m)
    = match anchor_column p with
      | col_left => m
      | col_center => w / 2
      | col_right => w - m
      end
  /\ pos_y (SettingsPanel.getWatermarkPosition p w h m)
    = match anchor_row p with
      | row_top => m
      | row_middle => h / 2
      | row_bottom => h - m
      end.
Proof. destruct p; split; reflexivity. Qed.

(** C2, as stated, fails: on a surface of 100 by 100 with margin 128 (the
    margin is the font size, which the slider takes up to 128) the top-left
    anchor is at x = 128, beyond [width - margin = -28]. *)
Lemma anchor_outside_margins :
  0 < 100 /\ 0 < 100
  /\ pos_x (PreviewWindow.getWatermarkPosition top_left 100 100 128) = 128
  /\ ~ (128 <= pos_x (PreviewWindow.getWatermarkPosition top_left 100 100 128) <= 100 - 128)
  /\ ~ (128 <= pos_x (SettingsPanel.getWatermarkPosition top_left 100 100 128) <= 100 - 128).
Proof.
  repeat split; try lra; simpl; lra.
Qed.

(** C2, amended.  For each of the 9 anchors, every positive width and height
    and every margin that is at most half the width and half the height, the
    resolved anchor lies in [margin, width - margin] horizontally and in
    [margin, height - margin] vertically. *)
Theorem anchor_within_margins (p : WatermarkPosition) (w h m : R) :
  0 < w -> 0 < h -> 2 * m <= w -> 2 * m <= h ->
  (m <= pos_x (PreviewWindow.getWatermarkPosition p w h m) <= w - m
   /\ m <= pos_y (PreviewWindow.getWatermarkPosition p w h m) <= h - m)
  /\ (m <= pos_x (SettingsPanel.getWatermarkPosition p w h m) <= w - m
      /\ m <= pos_y (SettingsPanel.getWatermarkPosition p w h m) <= h - m).
Proof.
  intros Hw Hh Hmw Hmh.
  destruct (getWatermarkPosition_copies p w h m) as [-> _].
  destruct (getWatermarkPosition_grid p w h m) as [-> ->].
  destruct p; simpl; lra.
Qed.

Lemma anchor_within_margins_witness :
  (48 <= pos_x (PreviewWindow.getWatermarkPosition bottom_right 1000 800 48) <= 1000 - 48
   /\ 48 <= pos_y (PreviewWindow.getWatermarkPosition bottom_right 1000 800 48) <= 800 - 48)
  /\ (48 <= pos_x (SettingsPanel.getWatermarkPosition bottom_right 1000 800 48) <= 1000 - 48
      /\ 48 <= pos_y (SettingsPanel.getWatermarkPosition bottom_right 1000 800 48) <= 800 - 48).
Proof.
  apply (anchor_within_margins bottom_right 1000 800 48); lra.
Defined.

(** The bound on the margin is needed: an anchor on the left column is
    within the margins only if the margin is at most half the width. *)
Lemma left_anchor_needs_half_width (w h m : R) :
  m <= pos_x (SettingsPanel.getWatermarkPosition top_left w h m) <= w - m ->
  2 * m <= w.
Proof. simpl. lra. Qed.

(** C6.  On a page (origin bottom-left, y up) the vertical coordinate is
    measured from the bottom edge: top-row anchors are at
    [pageHeight - margin], middle-row anchors at [pageHeight / 2] and
    bottom-row anchors at [margin], which is the raster coordinate of the
    same anchor inverted ([pageHeight - y]); the horizontal coordinate is
    that of the raster mapping. *)
Theorem getWatermarkPositionPdf_inverts (p : WatermarkPosition) (w h m : R) :
  pdf_y (SettingsPanel.getWatermarkPositionPdf p w h m)
    = match anchor_row p with
      | row_top => h - m
      | row_middle => h / 2
      | row_bottom => m
      end
  /\ pdf_y (SettingsPanel.getWatermarkPositionPdf p w h m)
    = h - pos_y (SettingsPanel.getWatermarkPosition p w h m)
  /\ pdf_x (SettingsPanel.getWatermarkPositionPdf p w h m)
    = pos_x (SettingsPanel.getWatermarkPosition p w h m).
Proof.
  destruct p; simpl; repeat split; lra.
Qed.

(** ** The single mark on a page *)

Lemma single_draw_x_by_column (p : WatermarkPosition) (x tw : R) :
  SettingsPanel.single_draw_x p x tw
    = match anchor_column p with
      | col_left => x + tw / 2
      | col_center => x - tw / 2
      | col_right => x - tw / 2
      end.
Proof. destruct p; reflexivity. Qed.

(** For the three centre anchors the text starts where the alignment says. *)
Lemma single_draw_x_center (p : WatermarkPosition) (x tw : R) :
  anchor_column p = col_center ->
  SettingsPanel.single_draw_x p x tw = aligned_start col_center x tw.
Proof.
  intros Hc. rewrite single_draw_x_by_column, Hc. reflexivity.
Qed.

(** For a left or right anchor it starts half a text width away from there. *)
Lemma single_draw_x_off (p : WatermarkPosition) (x tw : R) :
  anchor_column p <> col_center ->
  SettingsPanel.single_draw_x p x tw = aligned_start (anchor_column p) x tw + tw / 2.
Proof.
  intros Hc. rewrite single_draw_x_by_column.
  destruct (anchor_column p); simpl; try lra.
  exfalso. apply Hc. reflexivity.
Qed.

(** C7, at the failing input: a page of 1000 by 800, the mark of font size 48
    at the top-left anchor, its text measuring 200 wide.  The anchor is at
    x = 48, where a left-aligned text has to start; the one [drawText] call
    the code makes has x = 148, so the text runs from 148 to 348. *)
Theorem pdf_single_left_anchor_misplaced :
  let host := fixed_width_host 200 in
  let page := mkPage 1000 800 [] in
  pdf_x (SettingsPanel.getWatermarkPositionPdf top_left 1000 800 48) = 48
  /\ aligned_start (anchor_column top_left) 48 200 = 48
  /\ (exists page',
        @SettingsPanel.watermarkPage host 0 (confidential top_left) page = Some (tt, page')
        /\ map (fun op => dt_x (snd op)) (page_ops page') = [148])
  /\ 148 <> aligned_start (anchor_column top_left) 48 200.
Proof.
  simpl. repeat split; try lra.
  eexists. split.
  - unfold SettingsPanel.watermarkPage, bind, getSize, drawText. simpl. reflexivity.
  - simpl. f_equal. unfold SettingsPanel.single_draw_x. simpl. lra.
Qed.

(** ** Presets *)

Lemma name_exists_iff (n : string) (styles : list SavedStyle) :
  existsb (fun s => String.eqb (name s) n) styles = true <-> In n (map name styles).
Proof.
  induction styles as [|s rest IH]; simpl.
  - split; [discriminate | tauto].
  - rewrite orb_true_iff, IH, String.eqb_eq. tauto.
Qed.

Lemma getItem_setItem (key value : string) (store : list (string * string)) :
  SettingsPanel.getItem key (SettingsPanel.setItem key value store) = Some value.
Proof.
  unfold SettingsPanel.getItem.
  induction store as [|[k v] rest IH]; simpl.
  - rewrite String.eqb_refl. reflexivity.
  - destruct (String.eqb k key) eqn:Hk; simpl; rewrite Hk; [reflexivity | exact IH].
Qed.

Lemma getItem_setItem_other (key key' value : string) (store : list (string * string)) :
  key' <> key ->
  SettingsPanel.getItem key' (SettingsPanel.setItem key value store)
    = SettingsPanel.getItem key' store.
Proof.
  intros Hne. unfold SettingsPanel.getItem.
  induction store as [|[k v] rest IH]; simpl.
  - destruct (String.eqb key key') eqn:Hk; [|reflexivity].
    apply String.eqb_eq in Hk. congruence.
  - destruct (String.eqb k key) eqn:Hk; simpl.
    + apply String.eqb_eq in Hk. subst k.
      destruct (String.eqb key key') eqn:Hk'; [|reflexivity].
      apply String.eqb_eq in Hk'. congruence.
    + rewrite IH. reflexivity.
Qed.

(** A save with an empty name (after trimming) changes neither the list nor
    the storage. *)
Lemma handleSaveStyle_empty_name `{Host} (p : SettingsPanel.Panel) :
  trim (SettingsPanel.styleName p) = "" ->
  SettingsPanel.savedStyles (SettingsPanel.handleSaveStyle p) = SettingsPanel.savedStyles p
  /\ SettingsPanel.localStorage (SettingsPanel.handleSaveStyle p) = SettingsPanel.localStorage p.
Proof.
  intros He. unfold SettingsPanel.handleSaveStyle. rewrite He. simpl. split; reflexivity.
Qed.

(** C9.  A save under a name that, after trimming, is already the name of a
    saved style adds no entry: the list of saved styles and the persisted
    storage are what they were.  A save under a name that, after trimming,
    is not empty and not yet in the list appends exactly one entry, of that
    trimmed name and the current options, and persists the new list. *)
Theorem handleSaveStyle_duplicates `{Host} (p : SettingsPanel.Panel) :
  let n := trim (SettingsPanel.styleName p) in
  let p' := SettingsPanel.handleSaveStyle p in
  (In n (map name (SettingsPanel.savedStyles p)) ->
   SettingsPanel.savedStyles p' = SettingsPanel.savedStyles p
   /\ SettingsPanel.localStorage p' = SettingsPanel.localStorage p)
  /\ (n <> "" -> ~ In n (map name (SettingsPanel.savedStyles p)) ->
      let updated :=
        SettingsPanel.savedStyles p ++ [mkSavedStyle n (SettingsPanel.localOptions p)] in
      SettingsPanel.savedStyles p' = updated
      /\ SettingsPanel.localStorage p'
         = SettingsPanel.setItem "watermarkStyles" (JSON_stringify updated)
                                 (SettingsPanel.localStorage p)
      /\ SettingsPanel.getItem "watermarkStyles" (SettingsPanel.localStorage p')
         = Some (JSON_stringify updated)).
Proof.
  intros n p'. subst n p'. split.
  - intros Hin. apply name_exists_iff in Hin.
    unfold SettingsPanel.handleSaveStyle.
    destruct (String.eqb (trim (SettingsPanel.styleName p)) "").
    + simpl. split; reflexivity.
    + rewrite Hin. simpl. split; reflexivity.
  - intros Hne Hfresh updated. subst updated.
    unfold SettingsPanel.handleSaveStyle.
    destruct (String.eqb (trim (SettingsPanel.styleName p)) "") eqn:He.
    + apply String.eqb_eq in He. contradiction.
    + destruct (existsb _ (SettingsPanel.savedStyles p)) eqn:Hex.
      * apply name_exists_iff in Hex. contradiction.
      * simpl. repeat split. apply getItem_setItem.
Qed.

Lemma handleSaveStyle_duplicates_witness :
  (SettingsPanel.savedStyles
     (@SettingsPanel.handleSaveStyle (fixed_width_host 0) (sample_panel "  draft "))
   = SettingsPanel.savedStyles (sample_panel "  draft ")
   /\ SettingsPanel.localStorage
        (@SettingsPanel.handleSaveStyle (fixed_width_host 0) (sample_panel "  draft "))
      = [("watermarkStyles", "draft")])
  /\ map name (SettingsPanel.savedStyles
                 (@SettingsPanel.handleSaveStyle (fixed_width_host 0) (sample_panel " final ")))
     = ["draft"; "final"].
Proof.
  split.
  - apply (proj1 (@handleSaveStyle_duplicates (fixed_width_host 0) (sample_panel "  draft "))).
    simpl. left. reflexivity.
  - destruct (proj2 (@handleSaveStyle_duplicates (fixed_width_host 0) (sample_panel " final ")))
      as [Hs _].
    + simpl. discriminate.
    + simpl. intros [Hd | []]. discriminate.
    + rewrite Hs. reflexivity.
Defined.

(** ** Loops *)

Section Loops.
Context {S : Type}.
Implicit Types (body : R -> Eff S unit) (c : S).

Lemma for_lt_exit fuel i bound step body c :
  ~ i < bound -> for_lt (Datatypes.S fuel) i bound step body c = Some (tt, c).
Proof.
  intros Hge. simpl. destruct (Rlt_dec i bound); [contradiction | reflexivity].
Qed.

Lemma for_lt_enter fuel i bound step body c :
  i < bound ->
  for_lt (Datatypes.S fuel) i bound step body c
    = (body i ;;; for_lt fuel (i + step) bound step body) c.
Proof.
  intros Hlt. simpl. destruct (Rlt_dec i bound); [reflexivity | contradiction].
Qed.

(** A loop whose body does not finish does not finish. *)
Lemma for_lt_body_none fuel i bound step body c :
  i < bound -> body i c = None -> for_lt fuel i bound step body c = None.
Proof.
  intros Hlt Hb. destruct fuel as [|fuel]; [reflexivity|].
  rewrite for_lt_enter by exact Hlt. unfold bind. rewrite Hb. reflexivity.
Qed.

(** A loop that has work to do and a step that is zero or negative never
    finishes, whatever the fuel. *)
Lemma for_lt_stuck fuel i bound step body c :
  step <= 0 -> i < bound -> for_lt fuel i bound step body c = None.
Proof.
  intros Hstep. revert i c.
  induction fuel as [|fuel IH]; intros i c Hlt; [reflexivity|].
  rewrite for_lt_enter by exact Hlt. unfold bind.
  destruct (body i c) as [[[] c']|]; [|reflexivity].
  apply IH. lra.
Qed.

(** A loop with a positive step and a body that finishes, finishes: [k]
    steps reach the bound, and any fuel above [k] is enough. *)
Lemma for_lt_reaches k fuel i bound step body :
  0 < step ->
  (forall j c, exists c', body j c = Some (tt, c')) ->
  bound <= i + INR k * step ->
  (k < fuel)%nat ->
  forall c, exists c', for_lt fuel i bound step body c = Some (tt, c').
Proof.
  intros Hstep Hbody. revert fuel i.
  induction k as [|k IH]; intros fuel i Hk Hfuel c.
  - destruct fuel as [|fuel]; [lia|].
    exists c. apply for_lt_exit. simpl in Hk. lra.
  - destruct fuel as [|fuel]; [lia|].
    destruct (Rlt_dec i bound) as [Hlt | Hge].
    + rewrite for_lt_enter by exact Hlt. unfold bind.
      destruct (Hbody i c) as [c1 ->].
      apply IH; [|lia].
      rewrite S_INR in Hk. lra.
    + exists c. apply for_lt_exit. exact Hge.
Qed.

Lemma for_lt_terminates i bound step :
  0 < step ->
  exists n, forall fuel body,
    (n <= fuel)%nat ->
    (forall j c, exists c', body j c = Some (tt, c')) ->
    forall c, exists c', for_lt fuel i bound step body c = Some (tt, c').
Proof.
  intros Hstep.
  destruct (INR_archimed step (bound - i) Hstep) as [k Hk].
  exists (Datatypes.S k). intros fuel body Hfuel Hbody c.
  apply (for_lt_reaches k); try assumption. lra.
Qed.

(** Two nested loops with positive steps finish, given enough fuel. *)
Lemma nested_for_lt_terminates bound_y step_y bound_x step_x :
  0 < step_y -> 0 < step_x ->
  exists n, forall fuel (body : R -> R -> Eff S unit),
    (n <= fuel)%nat ->
    (forall y x c, exists c', body y x c = Some (tt, c')) ->
    forall c, exists c',
      for_lt fuel 0 bound_y step_y
        (fun y => for_lt fuel 0 bound_x step_x (fun x => body y x)) c = Some (tt, c').
Proof.
  intros Hy Hx.
  destruct (for_lt_terminates 0 bound_y step_y Hy) as [ny Hny].
  destruct (for_lt_terminates 0 bound_x step_x Hx) as [nx Hnx].
  exists (Nat.max ny nx). intros fuel body Hfuel Hbody c.
  apply Hny; [lia|].
  intros y c0. apply Hnx; [lia|].
  intros x c1. apply Hbody.
Qed.

End Loops.

(** ** Strides *)

Lemma rad_0 : - 0 * PI / 180 = 0.
Proof. lra. Qed.

Lemma rad_90 : - 90 * PI / 180 = - (PI / 2).
Proof. lra. Qed.

Lemma abs_cos_0 : Rabs (cos (- 0 * PI / 180)) = 1.
Proof. rewrite rad_0, cos_0. apply Rabs_R1. Qed.

Lemma abs_sin_0 : Rabs (sin (- 0 * PI / 180)) = 0.
Proof. rewrite rad_0, sin_0. apply Rabs_R0. Qed.

Lemma abs_cos_90 : Rabs (cos (- 90 * PI / 180)) = 0.
Proof. rewrite rad_90, cos_neg, cos_PI2. apply Rabs_R0. Qed.

Lemma abs_sin_90 : Rabs (sin (- 90 * PI / 180)) = 1.
Proof. rewrite rad_90, sin_neg, sin_PI2, Rabs_Ropp. apply Rabs_R1. Qed.

(** The sine and the cosine of an angle are not both zero. *)
Lemma abs_cos_sin_pos (rad : R) : 0 < Rabs (cos rad) + Rabs (sin rad).
Proof.
  pose proof (Rabs_pos (cos rad)) as Hc.
  pose proof (Rabs_pos (sin rad)) as Hs.
  destruct (Req_dec (Rabs (cos rad)) 0) as [Hc0 | Hc0]; [|lra].
  destruct (Req_dec (Rabs (sin rad)) 0) as [Hs0 | Hs0]; [|lra].
  exfalso.
  pose proof (sin2_cos2 rad) as H1. unfold Rsqr in H1.
  destruct (Req_dec (cos rad) 0) as [Hc1 | Hc1];
    [|exact (Rabs_no_R0 _ Hc1 Hc0)].
  destruct (Req_dec (sin rad) 0) as [Hs1 | Hs1];
    [|exact (Rabs_no_R0 _ Hs1 Hs0)].
  rewrite Hc1, Hs1 in H1. lra.
Qed.

(** The rotated bounding box of a text of positive width and height has a
    positive width and height, at every angle. *)
Lemma box_pos (tw th rad : R) :
  0 < tw -> 0 < th ->
  0 < tw * Rabs (cos rad) + th * Rabs (sin rad)
  /\ 0 < tw * Rabs (sin rad) + th * Rabs (cos rad).
Proof.
  intros Htw Hth.
  pose proof (Rabs_pos (cos rad)) as Hc.
  pose proof (Rabs_pos (sin rad)) as Hs.
  pose proof (abs_cos_sin_pos rad) as Hcs.
  assert (Htc : 0 <= tw * Rabs (cos rad)) by (apply Rmult_le_pos; lra).
  assert (Hts : 0 <= tw * Rabs (sin rad)) by (apply Rmult_le_pos; lra).
  assert (Hhc : 0 <= th * Rabs (cos rad)) by (apply Rmult_le_pos; lra).
  assert (Hhs : 0 <= th * Rabs (sin rad)) by (apply Rmult_le_pos; lra).
  destruct (Rle_lt_or_eq_dec 0 (Rabs (cos rad)) Hc) as [Hpos | Hzero].
  - pose proof (Rmult_lt_0_compat tw _ Htw Hpos).
    pose proof (Rmult_lt_0_compat th _ Hth Hpos).
    split; lra.
  - assert (Hspos : 0 < Rabs (sin rad)) by lra.
    pose proof (Rmult_lt_0_compat tw _ Htw Hspos).
    pose proof (Rmult_lt_0_compat th _ Hth Hspos).
    split; lra.
Qed.

(** The page export measures its angle the other way round. *)
Lemma pdf_abs_cos_0 : Rabs (cos (0 * PI / 180)) = 1.
Proof. replace (0 * PI / 180) with 0 by lra. rewrite cos_0. apply Rabs_R1. Qed.

Lemma pdf_abs_sin_0 : Rabs (sin (0 * PI / 180)) = 0.
Proof. replace (0 * PI / 180) with 0 by lra. rewrite sin_0. apply Rabs_R0. Qed.

Lemma pdf_abs_cos_90 : Rabs (cos (90 * PI / 180)) = 0.
Proof. replace (90 * PI / 180) with (PI / 2) by lra. rewrite cos_PI2. apply Rabs_R0. Qed.

Lemma pdf_abs_sin_90 : Rabs (sin (90 * PI / 180)) = 1.
Proof. replace (90 * PI / 180) with (PI / 2) by lra. rewrite sin_PI2. apply Rabs_R1. Qed.

(** The strides the export, the thumbnail and the page export compute are
    those of the rotated bounding box; the canvas renders turn by
    [- angle], the page export by [angle], and the box is the same. *)
Lemma render_strides (tw th an cs rs : R) :
  SettingsPanel.hSpacing tw th (- an * PI / 180) cs = hStride tw th an cs
  /\ SettingsPanel.vSpacing tw th (- an * PI / 180) rs = vStride tw th an rs
  /\ Thumbnail.hSpacing tw th (- an * PI / 180) cs = hStride tw th an cs
  /\ Thumbnail.vSpacing tw th (- an * PI / 180) rs = vStride tw th an rs
  /\ SettingsPanel.pdf_hSpacing tw th (an * PI / 180) cs = hStride tw th an cs
  /\ SettingsPanel.pdf_vSpacing tw th (an * PI / 180) rs = vStride tw th an rs.
Proof.
  unfold SettingsPanel.hSpacing, SettingsPanel.vSpacing,
    SettingsPanel.boxWidth, SettingsPanel.boxHeight,
    SettingsPanel.pdf_hSpacing, SettingsPanel.pdf_vSpacing,
    Thumbnail.hSpacing, Thumbnail.vSpacing, Thumbnail.boxWidth, Thumbnail.boxHeight,
    hStride, vStride, rotated_boxWidth, rotated_boxHeight, absCos, absSin.
  replace (- an * PI / 180) with (- (an * PI / 180)) by lra.
  rewrite cos_neg, sin_neg, Rabs_Ropp.
  repeat split; reflexivity.
Qed.

(** At angle 0 the box is the text's own; at 90 degrees its sides swap. *)
Lemma rotated_box_0_90 (tw th cs rs : R) :
  hStride tw th 0 cs = tw + cs /\ vStride tw th 0 rs = th + rs
  /\ rotated_boxWidth tw th 90 = th /\ rotated_boxHeight tw th 90 = tw.
Proof.
  unfold hStride, vStride, rotated_boxWidth, rotated_boxHeight, absCos, absSin.
  rewrite pdf_abs_cos_0, pdf_abs_sin_0, pdf_abs_cos_90, pdf_abs_sin_90.
  repeat split; lra.
Qed.

(** The values a loop runs through are spaced by its step, lie below its
    bound, and stop only at the bound: the [k]-th value is [i + k * step]. *)
Lemma range_lt_nth fuel i bound step xs :
  range_lt fuel i bound step = Some xs ->
  forall k x, nth_error xs k = Some x -> x = i + INR k * step /\ x < bound.
Proof.
  revert i xs. induction fuel as [|fuel IH]; intros i xs Hr k x Hk; [discriminate|].
  simpl in Hr. destruct (Rlt_dec i bound) as [Hlt | Hge].
  - destruct (range_lt fuel (i + step) bound step) as [rest|] eqn:Hrest; [|discriminate].
    injection Hr as <-.
    destruct k as [|k].
    + simpl in Hk. injection Hk as <-. simpl. split; [lra | exact Hlt].
    + simpl in Hk. destruct (IH _ _ Hrest k x Hk) as [Hx Hb].
      split; [|exact Hb]. rewrite S_INR. lra.
  - injection Hr as <-. destruct k; discriminate.
Qed.

Lemma range_lt_stops fuel i bound step xs :
  range_lt fuel i bound step = Some xs ->
  bound <= i + INR (List.length xs) * step.
Proof.
  revert i xs. induction fuel as [|fuel IH]; intros i xs Hr; [discriminate|].
  simpl in Hr. destruct (Rlt_dec i bound) as [Hlt | Hge].
  - destruct (range_lt fuel (i + step) bound step) as [rest|] eqn:Hrest; [|discriminate].
    injection Hr as <-. pose proof (IH _ _ Hrest) as Hb.
    cbn [List.length]. rewrite S_INR. lra.
  - injection Hr as <-. simpl. lra.
Qed.

(** C4, as stated, fails: nothing clamps a spacing.  With a text 200 wide,
    font size 48 and angle 0, a column spacing of -300 gives the horizontal
    stride -100, not the stride of the spacing clamped to 0 (200); the
    stride is not positive and the loop over x never finishes. *)
Lemma negative_spacing_not_clamped :
  let host := fixed_width_host 200 in
  let options := mkOptions "DRAFT" 48 "#ffffff" (1 / 2) 0 repeating middle_center 50 (- 300) in
  SettingsPanel.hSpacing 200 48 (- 0 * PI / 180) (- 300) = - 100
  /\ SettingsPanel.hSpacing 200 48 (- 0 * PI / 180) (- 300)
     <> SettingsPanel.hSpacing 200 48 (- 0 * PI / 180) (Rmax 0 (- 300))
  /\ ~ 0 < SettingsPanel.hSpacing 200 48 (- 0 * PI / 180) (- 300)
  /\ PreviewWindow.hSpacing 200 (- 300) = - 100
  /\ (forall fuel,
        @SettingsPanel.drawWatermarkOnCanvas host fuel 1000 800 options (blank_canvas 1000 800)
        = None)
  /\ (forall fuel,
        @PreviewWindow.drawWatermark host fuel options (blank_canvas 1000 800) = None).
Proof.
  intros host options.
  assert (Hh : SettingsPanel.hSpacing 200 48 (- 0 * PI / 180) (- 300) = - 100).
  { unfold SettingsPanel.hSpacing, SettingsPanel.boxWidth.
    rewrite abs_cos_0, abs_sin_0. lra. }
  assert (Hv : 0 < SettingsPanel.vSpacing 200 48 (- 0 * PI / 180) 50).
  { unfold SettingsPanel.vSpacing, SettingsPanel.boxHeight.
    rewrite abs_cos_0, abs_sin_0. lra. }
  split; [exact Hh|]. split; [|split; [|split; [|split]]].
  - rewrite Hh. unfold SettingsPanel.hSpacing, SettingsPanel.boxWidth.
    rewrite abs_cos_0, abs_sin_0. rewrite Rmax_left by lra. lra.
  - rewrite Hh. lra.
  - unfold PreviewWindow.hSpacing. lra.
  - intros fuel.
    unfold SettingsPanel.drawWatermarkOnCanvas, options, bind. simpl.
    rewrite for_lt_body_none; [reflexivity | lra |].
    apply for_lt_stuck; [|lra].
    rewrite Hh. lra.
  - intros fuel.
    unfold PreviewWindow.drawWatermark, options, bind. simpl.
    rewrite for_lt_body_none; [reflexivity | unfold PreviewWindow.vSpacing; lra |].
    apply for_lt_stuck; unfold PreviewWindow.hSpacing; lra.
Qed.

(** C4, amended.  The spacings are used as given.  For a text of positive
    measured width and a positive font size, and for row and column spacings
    that are not negative, both strides are strictly positive at every angle,
    in the export render and in the preview. *)
Theorem strides_positive (tw th angle rs cs : R) :
  0 < tw -> 0 < th -> 0 <= rs -> 0 <= cs ->
  (0 < SettingsPanel.hSpacing tw th (- angle * PI / 180) cs
   /\ 0 < SettingsPanel.vSpacing tw th (- angle * PI / 180) rs)
  /\ (0 < PreviewWindow.hSpacing tw cs /\ 0 < PreviewWindow.vSpacing th rs).
Proof.
  intros Htw Hth Hrs Hcs.
  destruct (box_pos tw th (- angle * PI / 180) Htw Hth) as [Hw Hh].
  unfold SettingsPanel.hSpacing, SettingsPanel.vSpacing,
    SettingsPanel.boxWidth, SettingsPanel.boxHeight,
    PreviewWindow.hSpacing, PreviewWindow.vSpacing.
  repeat split; lra.
Qed.

Lemma strides_positive_witness :
  (0 < SettingsPanel.hSpacing 200 48 (- 30 * PI / 180) 0
   /\ 0 < SettingsPanel.vSpacing 200 48 (- 30 * PI / 180) 50)
  /\ (0 < PreviewWindow.hSpacing 200 0 /\ 0 < PreviewWindow.vSpacing 48 50).
Proof.
  apply (strides_positive 200 48 30 50 0); lra.
Defined.

(** ** The repeating renders, unfolded *)

Lemma drawWatermarkOnCanvas_repeating `{Host} fuel w h t fs col op an ps rs cs (c : Canvas) :
  let tw := measureText_width (font_template fs) t in
  let rad := - an * PI / 180 in
  SettingsPanel.drawWatermarkOnCanvas fuel w h (mkOptions t fs col op an repeating ps rs cs) c
  = (for_lt fuel 0 (h * 2) (SettingsPanel.vSpacing tw fs rad rs) (fun y =>
       for_lt fuel 0 (w * 2) (SettingsPanel.hSpacing tw fs rad cs) (fun x =>
         fillText t (x - w) (y - h))) ;;; restore)
      (entered (SettingsPanel.hexToRgba col op) (font_template fs)
               (frame_rotation (transform (state c)) w h rad) c).
Proof. reflexivity. Qed.

Lemma drawWatermarkToCanvas_repeating `{Host} fuel t fs col op an ps rs cs label (c : Canvas) :
  let size := Rmax 8 (fs * Thumbnail.scaleFactor) in
  let tw := measureText_width (font_template size) label in
  let rad := - an * PI / 180 in
  Thumbnail.drawWatermarkToCanvas fuel (mkOptions t fs col op an repeating ps rs cs) label c
  = (for_lt fuel 0 (height c * 2)
       (Thumbnail.vSpacing tw size rad (rs * Thumbnail.scaleFactor)) (fun y =>
       for_lt fuel 0 (width c * 2)
         (Thumbnail.hSpacing tw size rad (cs * Thumbnail.scaleFactor)) (fun x =>
         fillText label (x - width c) (y - height c))) ;;; restore)
      (entered (Thumbnail.hexToRgba col op) (font_template size)
               (frame_rotation (transform (state c)) (width c) (height c) rad) c).
Proof. reflexivity. Qed.

Lemma drawWatermark_repeating `{Host} fuel t fs col op an ps rs cs (c : Canvas) :
  let tw := measureText_width (font_template fs) t in
  let rad := - an * PI / 180 in
  PreviewWindow.drawWatermark fuel (mkOptions t fs col op an repeating ps rs cs) c
  = (for_lt fuel 0 (height c + PreviewWindow.vSpacing fs rs) (PreviewWindow.vSpacing fs rs)
       (fun y =>
          for_lt fuel 0 (width c + PreviewWindow.hSpacing tw cs) (PreviewWindow.hSpacing tw cs)
            (fun x => save ;;; translate x y ;;; rotate rad ;;; fillText t 0 0 ;;; restore))
     ;;; restore)
      (entered (PreviewWindow.hexToRgba col op) (font_template fs) (transform (state c)) c).
Proof. reflexivity. Qed.

(** ** Termination of the repeating renders *)

Lemma restore_total (c : Canvas) : exists c', restore c = Some (tt, c').
Proof.
  unfold restore. destruct (saved c); eexists; reflexivity.
Qed.

Lemma then_restore_total (m : Draw unit) (c : Canvas) :
  (exists c1, m c = Some (tt, c1)) -> exists c', (m ;;; restore) c = Some (tt, c').
Proof.
  intros [c1 Hc1]. unfold bind. rewrite Hc1. apply restore_total.
Qed.

(** The export render finishes when both of its strides are positive. *)
Lemma drawWatermarkOnCanvas_terminates `{Host} (options : WatermarkOptions) (w h : R)
    (c : Canvas) :
  mode options = repeating ->
  let tw := measureText_width (font_template (fontSize options)) (text options) in
  let rad := - angle options * PI / 180 in
  0 < SettingsPanel.hSpacing tw (fontSize options) rad (colSpacing options) ->
  0 < SettingsPanel.vSpacing tw (fontSize options) rad (rowSpacing options) ->
  exists n, forall fuel, (n <= fuel)%nat ->
    exists c', SettingsPanel.drawWatermarkOnCanvas fuel w h options c = Some (tt, c').
Proof.
  destruct options as [t fs col op an md ps rs cs].
  cbn [mode text fontSize angle rowSpacing colSpacing].
  intros -> Hh Hv.
  destruct (nested_for_lt_terminates (S := Canvas) (h * 2) _ (w * 2) _ Hv Hh) as [n Hn].
  exists n. intros fuel Hfuel.
  rewrite drawWatermarkOnCanvas_repeating. apply then_restore_total.
  apply (Hn fuel (fun y x => fillText t (x - w) (y - h)) Hfuel).
  intros y x c0. eexists. reflexivity.
Qed.

(** The preview render finishes when both of its strides are positive. *)
Lemma drawWatermark_terminates `{Host} (options : WatermarkOptions) (c : Canvas) :
  mode options = repeating ->
  let tw := measureText_width (font_template (fontSize options)) (text options) in
  0 < PreviewWindow.hSpacing tw (colSpacing options) ->
  0 < PreviewWindow.vSpacing (fontSize options) (rowSpacing options) ->
  exists n, forall fuel, (n <= fuel)%nat ->
    exists c', PreviewWindow.drawWatermark fuel options c = Some (tt, c').
Proof.
  destruct options as [t fs col op an md ps rs cs].
  cbn [mode text fontSize angle rowSpacing colSpacing].
  intros -> Hh Hv.
  destruct (nested_for_lt_terminates (S := Canvas)
              (height c + PreviewWindow.vSpacing fs rs) _
              (width c + PreviewWindow.hSpacing (measureText_width (font_template fs) t) cs) _
              Hv Hh) as [n Hn].
  exists n. intros fuel Hfuel.
  rewrite drawWatermark_repeating. apply then_restore_total.
  apply (Hn fuel (fun y x => save ;;; translate x y ;;; rotate (- an * PI / 180) ;;;
                             fillText t 0 0 ;;; restore) Hfuel).
  intros y x c0. unfold bind. simpl. eexists. reflexivity.
Qed.

(** C3, as stated, fails: nothing is substituted for a measured width of 0.
    With the empty text measuring 0, font size 48, angle 0 and both spacings
    0, the horizontal stride is 0, not 48, and neither the export render nor
    the preview render ever finishes, whatever the fuel. *)
Lemma zero_width_text_zero_stride :
  let host := fixed_width_host 0 in
  let options := mkOptions "" 48 "#ffffff" (1 / 2) 0 repeating middle_center 0 0 in
  @measureText_width host (@font_template host 48) "" = 0
  /\ SettingsPanel.hSpacing 0 48 (- 0 * PI / 180) 0 = 0
  /\ PreviewWindow.hSpacing 0 0 = 0
  /\ (forall fuel,
        @SettingsPanel.drawWatermarkOnCanvas host fuel 1000 800 options (blank_canvas 1000 800)
        = None)
  /\ (forall fuel,
        @PreviewWindow.drawWatermark host fuel options (blank_canvas 1000 800) = None).
Proof.
  intros host options.
  assert (Hh : SettingsPanel.hSpacing 0 48 (- 0 * PI / 180) 0 = 0).
  { unfold SettingsPanel.hSpacing, SettingsPanel.boxWidth.
    rewrite abs_cos_0, abs_sin_0. lra. }
  split; [reflexivity|]. split; [exact Hh|]. split; [unfold PreviewWindow.hSpacing; lra|].
  split; intros fuel; unfold options.
  - rewrite drawWatermarkOnCanvas_repeating. unfold bind.
    rewrite for_lt_body_none; [reflexivity | lra |].
    apply for_lt_stuck; [|lra].
    simpl. rewrite Hh. lra.
  - rewrite drawWatermark_repeating. unfold bind at 1.
    rewrite for_lt_body_none; [reflexivity | simpl; unfold PreviewWindow.vSpacing; lra |].
    apply for_lt_stuck; simpl; unfold PreviewWindow.hSpacing; lra.
Qed.

(** C3, amended.  When the text of a repeating render measures to width 0,
    the width 0 is used as measured: the horizontal stride is
    [fontSize * |sin| + colSpacing] in the export render and [colSpacing] in
    the preview, the vertical one [fontSize * |cos| + rowSpacing] and
    [fontSize + rowSpacing].  When the font size and both spacings are
    positive, both strides are positive and the loops over the origins
    finish, in the export render and in the preview. *)
Theorem zero_width_text_terminates `{Host} (options : WatermarkOptions) (w h : R) (c : Canvas) :
  mode options = repeating ->
  measureText_width (font_template (fontSize options)) (text options) = 0 ->
  0 < fontSize options -> 0 < rowSpacing options -> 0 < colSpacing options ->
  let rad := - angle options * PI / 180 in
  (SettingsPanel.hSpacing 0 (fontSize options) rad (colSpacing options)
     = fontSize options * Rabs (sin rad) + colSpacing options
   /\ SettingsPanel.vSpacing 0 (fontSize options) rad (rowSpacing options)
     = fontSize options * Rabs (cos rad) + rowSpacing options
   /\ PreviewWindow.hSpacing 0 (colSpacing options) = colSpacing options
   /\ PreviewWindow.vSpacing (fontSize options) (rowSpacing options)
     = fontSize options + rowSpacing options)
  /\ (0 < SettingsPanel.hSpacing 0 (fontSize options) rad (colSpacing options)
      /\ 0 < SettingsPanel.vSpacing 0 (fontSize options) rad (rowSpacing options)
      /\ 0 < PreviewWindow.hSpacing 0 (colSpacing options)
      /\ 0 < PreviewWindow.vSpacing (fontSize options) (rowSpacing options))
  /\ (exists n, forall fuel, (n <= fuel)%nat ->
        exists c', SettingsPanel.drawWatermarkOnCanvas fuel w h options c = Some (tt, c'))
  /\ (exists n, forall fuel, (n <= fuel)%nat ->
        exists c', PreviewWindow.drawWatermark fuel options c = Some (tt, c')).
Proof.
  intros Hmode Hzero Hfs Hrs Hcs rad.
  assert (Hformulas :
    SettingsPanel.hSpacing 0 (fontSize options) rad (colSpacing options)
      = fontSize options * Rabs (sin rad) + colSpacing options
    /\ SettingsPanel.vSpacing 0 (fontSize options) rad (rowSpacing options)
      = fontSize options * Rabs (cos rad) + rowSpacing options
    /\ PreviewWindow.hSpacing 0 (colSpacing options) = colSpacing options
    /\ PreviewWindow.vSpacing (fontSize options) (rowSpacing options)
      = fontSize options + rowSpacing options).
  { unfold SettingsPanel.hSpacing, SettingsPanel.vSpacing,
      SettingsPanel.boxWidth, SettingsPanel.boxHeight,
      PreviewWindow.hSpacing, PreviewWindow.vSpacing.
    repeat split; lra. }
  assert (Hpos :
    0 < SettingsPanel.hSpacing 0 (fontSize options) rad (colSpacing options)
    /\ 0 < SettingsPanel.vSpacing 0 (fontSize options) rad (rowSpacing options)
    /\ 0 < PreviewWindow.hSpacing 0 (colSpacing options)
    /\ 0 < PreviewWindow.vSpacing (fontSize options) (rowSpacing options)).
  { destruct Hformulas as (-> & -> & -> & ->).
    pose proof (Rabs_pos (cos rad)) as Hc.
    pose proof (Rabs_pos (sin rad)) as Hs.
    pose proof (Rmult_le_pos _ _ (Rlt_le _ _ Hfs) Hc).
    pose proof (Rmult_le_pos _ _ (Rlt_le _ _ Hfs) Hs).
    repeat split; lra. }
  split; [exact Hformulas|]. split; [exact Hpos|].
  destruct Hpos as (Hsh & Hsv & Hph & Hpv).
  split.
  - apply drawWatermarkOnCanvas_terminates; [exact Hmode | |]; rewrite Hzero; assumption.
  - apply drawWatermark_terminates; [exact Hmode | | assumption]. rewrite Hzero. assumption.
Qed.

Lemma zero_width_text_terminates_witness :
  let options := mkOptions "" 48 "#ffffff" (1 / 2) 30 repeating middle_center 50 50 in
  exists n, forall fuel, (n <= fuel)%nat ->
    exists c',
      @SettingsPanel.drawWatermarkOnCanvas (fixed_width_host 0) fuel 1000 800 options
        (blank_canvas 1000 800) = Some (tt, c').
Proof.
  intros options.
  apply (@zero_width_text_terminates (fixed_width_host 0) options 1000 800
           (blank_canvas 1000 800)); simpl; try reflexivity; lra.
Defined.

(** ** The canonical frame *)

(** The whole-frame rotation is the rotation by [rad] about the centre of
    the surface: it sends [(x, y)] to the centre plus the rotated offset of
    [(x, y)] from the centre, and so leaves the centre where it is. *)
Lemma frame_rotation_about_centre (w h rad x y : R) :
  m_apply (frame_rotation m_identity w h rad) (x, y)
  = (w / 2 + ((x - w / 2) * cos rad - (y - h / 2) * sin rad),
     h / 2 + ((x - w / 2) * sin rad + (y - h / 2) * cos rad)).
Proof.
  unfold m_apply, frame_rotation, m_translate, m_rotate, m_identity. simpl.
  f_equal; field.
Qed.

Lemma frame_rotation_fixes_centre (w h rad : R) :
  m_apply (frame_rotation m_identity w h rad) (w / 2, h / 2) = (w / 2, h / 2).
Proof.
  rewrite frame_rotation_about_centre. f_equal; field.
Qed.

(** One row of the grid: every text of the row is painted under the state in
    force on entry. *)
Lemma fill_row (t : string) (w yy : R) fuel i bound step xs (c : Canvas) :
  range_lt fuel i bound step = Some xs ->
  for_lt fuel i bound step (fun x => fillText t (x - w) yy) c
  = Some (tt, paint c (map (fun x => mkTextRun t (x - w) yy (state c)) xs)).
Proof.
  revert i xs c.
  induction fuel as [|fuel IH]; intros i xs c Hr; [discriminate|].
  simpl in Hr. simpl.
  destruct (Rlt_dec i bound) as [Hlt | Hge].
  - destruct (range_lt fuel (i + step) bound step) as [rest|] eqn:Hrest; [|discriminate].
    injection Hr as <-.
    unfold bind, fillText at 1.
    rewrite (IH _ _ _ Hrest). unfold paint. simpl.
    rewrite <- app_assoc. reflexivity.
  - injection Hr as <-. unfold ret, paint. simpl. rewrite app_nil_r.
    destruct c. reflexivity.
Qed.

(** The grid: the rows one after the other. *)
Lemma fill_rows (t : string) (w h : R) fuel_y fuel_x i bound_y step_y bound_x step_x
    ys xs (c : Canvas) :
  range_lt fuel_y i bound_y step_y = Some ys ->
  range_lt fuel_x 0 bound_x step_x = Some xs ->
  for_lt fuel_y i bound_y step_y
    (fun y => for_lt fuel_x 0 bound_x step_x (fun x => fillText t (x - w) (y - h))) c
  = Some (tt, paint c (map (fun o => mkTextRun t (fst o) (snd o) (state c))
                           (flat_map (fun y => map (fun x => (x - w, y - h)) xs) ys))).
Proof.
  intros Hys Hxs. revert i ys c Hys.
  induction fuel_y as [|fuel_y IH]; intros i ys c Hys; [discriminate|].
  simpl in Hys. simpl.
  destruct (Rlt_dec i bound_y) as [Hlt | Hge].
  - destruct (range_lt fuel_y (i + step_y) bound_y step_y) as [rest|] eqn:Hrest;
      [|discriminate].
    injection Hys as <-.
    unfold bind. rewrite (fill_row t w (i - h) _ _ _ _ _ c Hxs).
    rewrite (IH _ _ _ Hrest). unfold paint. simpl.
    rewrite <- app_assoc, map_app, map_map. reflexivity.
  - injection Hys as <-. unfold ret, paint. simpl. rewrite app_nil_r.
    destruct c. reflexivity.
Qed.

Lemma placements_paint (c : Canvas) (st : DrawingState) (t : string) (os : list (R * R)) :
  map (fun r => (run_x r, run_y r, transform (run_state r)))
      (painted c ++ map (fun o => mkTextRun t (fst o) (snd o) st) os)
  = placements c ++ map (fun o => (fst o, snd o, transform st)) os.
Proof.
  unfold placements. rewrite map_app, map_map. reflexivity.
Qed.

(** The export render does what the specification mandates: when the
    origins of the canonical frame are [os], it paints one text at each of
    them, in that order, all under one rotation of the whole frame about the
    centre of the canvas. *)
Lemma drawWatermarkOnCanvas_canonical `{Host} (options : WatermarkOptions) (w h : R)
    (fuel : nat) (os : list (R * R)) (c : Canvas) :
  mode options = repeating ->
  let tw := measureText_width (font_template (fontSize options)) (text options) in
  let rad := - angle options * PI / 180 in
  canonical_origins fuel w h
    (SettingsPanel.hSpacing tw (fontSize options) rad (colSpacing options))
    (SettingsPanel.vSpacing tw (fontSize options) rad (rowSpacing options)) = Some os ->
  exists c',
    SettingsPanel.drawWatermarkOnCanvas fuel w h options c = Some (tt, c')
    /\ placements c'
       = placements c
         ++ map (fun o => (fst o, snd o, frame_rotation (transform (state c)) w h rad)) os.
Proof.
  destruct options as [t fs col op an md ps rs cs].
  cbn [mode text fontSize angle rowSpacing colSpacing].
  intros -> Hos. unfold canonical_origins in Hos.
  replace (2 * h) with (h * 2) in Hos by lra.
  replace (2 * w) with (w * 2) in Hos by lra.
  destruct (range_lt fuel 0 (h * 2) _) as [ys|] eqn:Hys; [|discriminate].
  destruct (range_lt fuel 0 (w * 2) _) as [xs|] eqn:Hxs; [|discriminate].
  injection Hos as <-.
  rewrite drawWatermarkOnCanvas_repeating. unfold bind.
  rewrite (fill_rows t w h _ _ _ _ _ _ _ _ _ _ Hys Hxs).
  eexists. split; [reflexivity|].
  unfold placements at 1. cbn [painted paint entered restore saved state].
  apply placements_paint.
Qed.

(** So does the thumbnail render, on its scaled font size and spacings. *)
Lemma drawWatermarkToCanvas_canonical `{Host} (options : WatermarkOptions) (label : string)
    (fuel : nat) (os : list (R * R)) (c : Canvas) :
  mode options = repeating ->
  let size := Rmax 8 (fontSize options * Thumbnail.scaleFactor) in
  let tw := measureText_width (font_template size) label in
  let rad := - angle options * PI / 180 in
  canonical_origins fuel (width c) (height c)
    (Thumbnail.hSpacing tw size rad (colSpacing options * Thumbnail.scaleFactor))
    (Thumbnail.vSpacing tw size rad (rowSpacing options * Thumbnail.scaleFactor)) = Some os ->
  exists c',
    Thumbnail.drawWatermarkToCanvas fuel options label c = Some (tt, c')
    /\ placements c'
       = placements c
         ++ map (fun o => (fst o, snd o,
                           frame_rotation (transform (state c)) (width c) (height c) rad)) os.
Proof.
  destruct options as [t fs col op an md ps rs cs].
  cbn [mode text fontSize angle rowSpacing colSpacing].
  intros -> Hos. unfold canonical_origins in Hos.
  replace (2 * height c) with (height c * 2) in Hos by lra.
  replace (2 * width c) with (width c * 2) in Hos by lra.
  destruct (range_lt fuel 0 (height c * 2) _) as [ys|] eqn:Hys; [|discriminate].
  destruct (range_lt fuel 0 (width c * 2) _) as [xs|] eqn:Hxs; [|discriminate].
  injection Hos as <-.
  rewrite drawWatermarkToCanvas_repeating. unfold bind.
  rewrite (fill_rows label (width c) (height c) _ _ _ _ _ _ _ _ _ _ Hys Hxs).
  eexists. split; [reflexivity|].
  unfold placements at 1. cbn [painted paint entered restore saved state].
  apply placements_paint.
Qed.

(** ** The preview render against the canonical frame *)

(** An instance rotated about its own origin is painted at that origin. *)
Lemma instance_rotation_origin (x y rad : R) :
  m_apply (instance_rotation m_identity x y rad) (0, 0) = (x, y).
Proof.
  unfold m_apply, instance_rotation, m_translate, m_rotate, m_identity. simpl.
  f_equal; ring.
Qed.

Lemma range_lt_enter fuel i bound step :
  i < bound ->
  range_lt (S fuel) i bound step
  = match range_lt fuel (i + step) bound step with
    | Some rest => Some (i :: rest)
    | None => None
    end.
Proof.
  intros Hlt. simpl. destruct (Rlt_dec i bound); [reflexivity | contradiction].
Qed.

Lemma range_lt_exit fuel i bound step :
  ~ i < bound -> range_lt (S fuel) i bound step = Some [].
Proof.
  intros Hge. simpl. destruct (Rlt_dec i bound); [contradiction | reflexivity].
Qed.

(** The body of the inner loop of the preview render: one text at the point
    (0, 0) of a frame moved to [(x, y)] and rotated there. *)
Lemma preview_instance (t : string) (x y rad : R) (c : Canvas) :
  (save ;;; translate x y ;;; rotate rad ;;; fillText t 0 0 ;;; restore) c
  = Some (tt, paint c [mkTextRun t 0 0
                         (mkDrawingState (fillStyle (state c)) (font (state c))
                            (textAlign (state c)) (textBaseline (state c))
                            (instance_rotation (transform (state c)) x y rad))]).
Proof. destruct c as [w h [fs fn ta tb m] sv pt]. reflexivity. Qed.

Lemma preview_row (t : string) (yy rad : R) fuel i bound step xs (c : Canvas) :
  range_lt fuel i bound step = Some xs ->
  for_lt fuel i bound step
    (fun x => save ;;; translate x yy ;;; rotate rad ;;; fillText t 0 0 ;;; restore) c
  = Some (tt, paint c (map (fun x => mkTextRun t 0 0
                         (mkDrawingState (fillStyle (state c)) (font (state c))
                            (textAlign (state c)) (textBaseline (state c))
                            (instance_rotation (transform (state c)) x yy rad))) xs)).
Proof.
  revert i xs c.
  induction fuel as [|fuel IH]; intros i xs c Hr; [discriminate|].
  destruct (Rlt_dec i bound) as [Hlt | Hge].
  - rewrite range_lt_enter in Hr by exact Hlt.
    destruct (range_lt fuel (i + step) bound step) as [rest|] eqn:Hrest; [|discriminate].
    injection Hr as <-.
    rewrite for_lt_enter by exact Hlt.
    unfold bind at 1. rewrite preview_instance.
    rewrite (IH _ _ _ Hrest). unfold paint. cbn [width height state saved painted map].
    rewrite <- app_assoc. reflexivity.
  - rewrite range_lt_exit in Hr by exact Hge. injection Hr as <-.
    rewrite for_lt_exit by exact Hge. unfold paint. cbn [map].
    rewrite app_nil_r. destruct c. reflexivity.
Qed.

Lemma preview_rows (t : string) (rad : R) fuel_y fuel_x i bound_y step_y bound_x step_x
    ys xs (c : Canvas) :
  range_lt fuel_y i bound_y step_y = Some ys ->
  range_lt fuel_x 0 bound_x step_x = Some xs ->
  for_lt fuel_y i bound_y step_y
    (fun y => for_lt fuel_x 0 bound_x step_x
       (fun x => save ;;; translate x y ;;; rotate rad ;;; fillText t 0 0 ;;; restore)) c
  = Some (tt, paint c (map (fun o => mkTextRun t 0 0
                         (mkDrawingState (fillStyle (state c)) (font (state c))
                            (textAlign (state c)) (textBaseline (state c))
                            (instance_rotation (transform (state c)) (fst o) (snd o) rad)))
                         (flat_map (fun y => map (fun x => (x, y)) xs) ys))).
Proof.
  intros Hys Hxs. revert i ys c Hys.
  induction fuel_y as [|fuel_y IH]; intros i ys c Hys; [discriminate|].
  destruct (Rlt_dec i bound_y) as [Hlt | Hge].
  - rewrite range_lt_enter in Hys by exact Hlt.
    destruct (range_lt fuel_y (i + step_y) bound_y step_y) as [rest|] eqn:Hrest;
      [|discriminate].
    injection Hys as <-.
    rewrite for_lt_enter by exact Hlt.
    unfold bind at 1. rewrite (preview_row t i rad _ _ _ _ _ c Hxs).
    rewrite (IH _ _ _ Hrest). unfold paint.
    cbn [width height state saved painted flat_map].
    rewrite <- app_assoc, map_app, map_map. reflexivity.
  - rewrite range_lt_exit in Hys by exact Hge. injection Hys as <-.
    rewrite for_lt_exit by exact Hge. unfold paint. cbn [flat_map map].
    rewrite app_nil_r. destruct c. reflexivity.
Qed.

(** What the preview render paints: one text per origin of its own grid, each
    at the point (0, 0) under a transform of its own, the rotation of that
    one instance about its origin. *)
Lemma drawWatermark_per_instance `{Host} (options : WatermarkOptions)
    (fuel : nat) (os : list (R * R)) (c : Canvas) :
  mode options = repeating ->
  let tw := measureText_width (font_template (fontSize options)) (text options) in
  let rad := - angle options * PI / 180 in
  preview_origins fuel (width c) (height c)
    (PreviewWindow.hSpacing tw (colSpacing options))
    (PreviewWindow.vSpacing (fontSize options) (rowSpacing options)) = Some os ->
  exists c',
    PreviewWindow.drawWatermark fuel options c = Some (tt, c')
    /\ placements c'
       = placements c
         ++ map (fun o => (0, 0, instance_rotation (transform (state c)) (fst o) (snd o) rad))
                os.
Proof.
  destruct options as [t fs col op an md ps rs cs].
  cbn [mode text fontSize angle rowSpacing colSpacing].
  intros -> Hos. unfold preview_origins in Hos.
  destruct (range_lt fuel 0 (height c + _) _) as [ys|] eqn:Hys; [|discriminate].
  destruct (range_lt fuel 0 (width c + _) _) as [xs|] eqn:Hxs; [|discriminate].
  injection Hos as <-.
  rewrite drawWatermark_repeating. unfold bind at 1.
  rewrite (preview_rows t _ _ _ _ _ _ _ _ _ _ _ Hys Hxs).
  eexists. split; [reflexivity|].
  unfold placements. cbn [painted paint entered restore saved state transform].
  rewrite map_app, map_map. reflexivity.
Qed.

Lemma tiled_draft_strides :
  SettingsPanel.hSpacing 100 50 (- 90 * PI / 180) 0 = 50
  /\ SettingsPanel.vSpacing 100 50 (- 90 * PI / 180) 0 = 100.
Proof.
  unfold SettingsPanel.hSpacing, SettingsPanel.vSpacing,
    SettingsPanel.boxWidth, SettingsPanel.boxHeight.
  rewrite abs_cos_90, abs_sin_90. split; lra.
Qed.

Lemma tiled_draft_canonical :
  canonical_origins 5 100 100
    (SettingsPanel.hSpacing 100 50 (- 90 * PI / 180) 0)
    (SettingsPanel.vSpacing 100 50 (- 90 * PI / 180) 0)
  = Some [(- 100, - 100); (- 50, - 100); (0, - 100); (50, - 100);
          (- 100, 0); (- 50, 0); (0, 0); (50, 0)].
Proof.
  destruct tiled_draft_strides as [-> ->].
  unfold canonical_origins.
  repeat decide_turn range_lt_enter range_lt_exit.
  cbv [flat_map map app fst snd].
  repeat (f_equal; try lra).
Qed.

Lemma tiled_draft_preview :
  preview_origins 5 100 100 (PreviewWindow.hSpacing 100 0) (PreviewWindow.vSpacing 50 0)
  = Some [(0, 0); (100, 0); (0, 50); (100, 50); (0, 100); (100, 100)].
Proof.
  unfold preview_origins, PreviewWindow.hSpacing, PreviewWindow.vSpacing.
  repeat decide_turn range_lt_enter range_lt_exit.
  cbv [flat_map map app fst snd].
  repeat (f_equal; try lra).
Qed.

(** C1, at the failing input: a canvas of 100 by 100, the text measuring 100
    wide at font size 50, angle 90 degrees, no spacing.  The canonical frame
    has 8 origins, from (-100, -100) on, under one rotation about the centre
    (50, 50), and the export render paints exactly that.  The preview render
    paints 6 texts, each at the point (0, 0) of a frame of its own, moved to
    (x, y) for y in 0, 50, 100 and x in 0, 100 and rotated there: no origin is
    offset by (-100, -100), the loops stop at height + vStride and
    width + hStride, and each instance turns about its own origin. *)
Theorem preview_repeating_not_canonical :
  let host := fixed_width_host 100 in
  let rad := - 90 * PI / 180 in
  let origins := [(- 100, - 100); (- 50, - 100); (0, - 100); (50, - 100);
                  (- 100, 0); (- 50, 0); (0, 0); (50, 0)] in
  canonical_origins 5 100 100
    (SettingsPanel.hSpacing 100 50 rad 0) (SettingsPanel.vSpacing 100 50 rad 0)
  = Some origins
  /\ (exists c',
        @SettingsPanel.drawWatermarkOnCanvas host 5 100 100 tiled_draft (blank_canvas 100 100)
        = Some (tt, c')
        /\ placements c'
           = map (fun o => (fst o, snd o, frame_rotation m_identity 100 100 rad)) origins)
  /\ (exists c',
        @PreviewWindow.drawWatermark host 5 tiled_draft (blank_canvas 100 100) = Some (tt, c')
        /\ placements c'
           = [(0, 0, instance_rotation m_identity 0 0 rad);
              (0, 0, instance_rotation m_identity 100 0 rad);
              (0, 0, instance_rotation m_identity 0 50 rad);
              (0, 0, instance_rotation m_identity 100 50 rad);
              (0, 0, instance_rotation m_identity 0 100 rad);
              (0, 0, instance_rotation m_identity 100 100 rad)]
        /\ placements c'
           <> map (fun o => (fst o, snd o, frame_rotation m_identity 100 100 rad)) origins).
Proof.
  intros host rad origins.
  split; [exact tiled_draft_canonical|]. split.
  - destruct (@drawWatermarkOnCanvas_canonical host tiled_draft 100 100 5 origins
                (blank_canvas 100 100) eq_refl tiled_draft_canonical) as [c' [Hrun Hpl]].
    exists c'. split; [exact Hrun | exact Hpl].
  - destruct (@drawWatermark_per_instance host tiled_draft 5 _
                (blank_canvas 100 100) eq_refl tiled_draft_preview) as [c' [Hrun Hpl]].
    exists c'. split; [exact Hrun|].
    split.
    + rewrite Hpl. reflexivity.
    + rewrite Hpl. cbv [placements blank_canvas painted map app]. discriminate.
Qed.

(** ** Superseded renders *)

Lemma set_status_other (t t' : nat) (s : TaskStatus) (ts : list TaskStatus) :
  t <> t' -> nth_error (set_status t' s ts) t = nth_error ts t.
Proof.
  revert t t'. induction ts as [|x ts IH]; intros t t' Hne.
  - destruct t'; reflexivity.
  - destruct t' as [|t']; destruct t as [|t]; simpl; try reflexivity; try congruence.
    apply IH. congruence.
Qed.

Lemma set_status_same (t : nat) (s : TaskStatus) (ts : list TaskStatus) :
  (t < List.length ts)%nat -> nth_error (set_status t s ts) t = Some s.
Proof.
  revert t. induction ts as [|x ts IH]; intros t Hlt; simpl in Hlt; [lia|].
  destruct t as [|t]; simpl; [reflexivity|]. apply IH. lia.
Qed.

(** [cancel] cancels a running task. *)
Lemma cancel_running (t : nat) (w : World) :
  status_of t w = Some Running -> status_of t (cancel t w) = Some Cancelled.
Proof.
  intros Hrun. unfold cancel. rewrite Hrun. unfold status_of in *. simpl.
  apply set_status_same. apply nth_error_Some. congruence.
Qed.

(** A cancelled task stays cancelled. *)
Lemma cancel_keeps_cancelled (t t' : nat) (w : World) :
  status_of t w = Some Cancelled -> status_of t (cancel t' w) = Some Cancelled.
Proof.
  intros Hc. unfold cancel.
  destruct (status_of t' w) as [[| |]|] eqn:Hs; try exact Hc.
  unfold status_of in *. simpl.
  rewrite set_status_other; [exact Hc|]. intros ->. congruence.
Qed.

Lemma cancel_current_keeps_cancelled (t : nat) (w : World) :
  status_of t w = Some Cancelled -> status_of t (cancel_current w) = Some Cancelled.
Proof.
  intros Hc. unfold cancel_current.
  destruct (renderTaskRef w); [apply cancel_keeps_cancelled|]; exact Hc.
Qed.

Lemma run_cleanup_keeps_cancelled (t : nat) (w : World) :
  status_of t w = Some Cancelled -> status_of t (run_cleanup w) = Some Cancelled.
Proof.
  intros Hc. unfold run_cleanup.
  destruct (has_cleanup w); [apply cancel_current_keeps_cancelled|]; exact Hc.
Qed.

Section Cancelled.
Context {P : Type} (effect : RenderId -> P -> World -> World).
Hypothesis effect_keeps_cancelled :
  forall r p t w, status_of t w = Some Cancelled -> status_of t (effect r p w) = Some Cancelled.

Lemma step_keeps_cancelled (t : nat) (w w' : World) (e : Event P) :
  status_of t w = Some Cancelled -> step effect w e = Some w' ->
  status_of t w' = Some Cancelled.
Proof.
  intros Hc Hstep. destruct e as [r p | r | r | r t' | r t']; simpl in Hstep.
  - injection Hstep as <-. apply effect_keeps_cancelled, run_cleanup_keeps_cancelled, Hc.
  - unfold image_loaded in Hstep.
    destruct (has_job _ w); [|discriminate]. injection Hstep as <-. exact Hc.
  - unfold page_ready in Hstep.
    destruct (has_job _ w); [|discriminate]. injection Hstep as <-.
    unfold status_of in *. simpl.
    rewrite nth_error_app1; [exact Hc|]. apply nth_error_Some. congruence.
  - unfold render_finished in Hstep.
    destruct (has_job _ w); [|discriminate].
    destruct (status_of t' w) as [[| |]|] eqn:Hs; try discriminate.
    injection Hstep as <-. unfold status_of in *. simpl.
    rewrite set_status_other; [exact Hc|]. intros ->. congruence.
  - unfold render_rejected in Hstep.
    destruct (has_job _ w); [|discriminate].
    destruct (status_of t' w) as [[| |]|]; try discriminate.
    injection Hstep as <-. exact Hc.
Qed.

Lemma run_keeps_cancelled (t : nat) (es : list (Event P)) (w w' : World) :
  status_of t w = Some Cancelled -> run effect w es = Some w' ->
  status_of t w' = Some Cancelled.
Proof.
  revert w. induction es as [|e es IH]; intros w Hc Hrun; simpl in Hrun.
  - injection Hrun as <-. exact Hc.
  - destruct (step effect w e) as [w1|] eqn:Hstep; [|discriminate].
    apply (IH w1); [|exact Hrun]. exact (step_keeps_cancelled t w w1 e Hc Hstep).
Qed.

(** A page render whose task was cancelled never reaches the visible canvas:
    after any events, the completion of that task is not among the events
    that can happen. *)
Lemma cancelled_never_commits (r : RenderId) (t : nat) (es : list (Event P)) (w w' : World) :
  status_of t w = Some Cancelled -> run effect w es = Some w' ->
  step effect w' (RenderFinished r t) = None.
Proof.
  intros Hc Hrun. simpl. unfold render_finished.
  rewrite (run_keeps_cancelled t es w w' Hc Hrun).
  destruct (has_job _ w'); reflexivity.
Qed.

End Cancelled.

Lemma PreviewWindow_effect_keeps_cancelled r p t w :
  status_of t w = Some Cancelled ->
  status_of t (PreviewWindow.effect r p w) = Some Cancelled.
Proof.
  intros Hc. unfold PreviewWindow.effect.
  pose proof (cancel_current_keeps_cancelled t w Hc) as Hc'.
  destruct (negb (PreviewWindow.detail p) || negb (PreviewWindow.has_canvas p)
            || negb (PreviewWindow.has_file p))%bool; [exact Hc|].
  destruct (negb (PreviewWindow.isPdfMode p) && PreviewWindow.has_file p)%bool; [exact Hc'|].
  destruct (PreviewWindow.isPdfMode p && PreviewWindow.has_pdfDoc p)%bool; exact Hc'.
Qed.

Lemma Thumbnail_effect_keeps_cancelled r p t w :
  status_of t w = Some Cancelled ->
  status_of t (Thumbnail.effect r p w) = Some Cancelled.
Proof.
  intros Hc. unfold Thumbnail.effect.
  pose proof (cancel_current_keeps_cancelled t w Hc) as Hc'.
  destruct (negb (Thumbnail.has_canvas p)); [exact Hc|].
  destruct (Thumbnail.has_file p); [exact Hc'|].
  destruct (Thumbnail.has_pdfDoc p); exact Hc'.
Qed.

(** What the code does get right: a page render that is rasterising when the
    next render is issued, its task in [renderTaskRef], is cancelled by that
    next render and never reaches the visible canvas. *)
Lemma rasterising_render_is_cancelled (a b : RenderId) (t : nat) (p : PreviewWindow.Props)
    (w : World) (es : list (Event PreviewWindow.Props)) (w' : World) :
  renderTaskRef w = Some t -> status_of t w = Some Running ->
  PreviewWindow.detail p = true -> PreviewWindow.has_canvas p = true ->
  PreviewWindow.has_file p = true ->
  run PreviewWindow.effect w (Rerender b p :: es) = Some w' ->
  step PreviewWindow.effect w' (RenderFinished a t) = None.
Proof.
  intros Href Hrun Hd Hc Hf Hes. simpl in Hes.
  apply (cancelled_never_commits PreviewWindow.effect PreviewWindow_effect_keeps_cancelled
           a t es (PreviewWindow.effect b p (run_cleanup w)) w'); [|exact Hes].
  unfold PreviewWindow.effect. rewrite Hd, Hc, Hf. simpl.
  assert (Hcur : status_of t (cancel_current (run_cleanup w)) = Some Cancelled).
  { unfold run_cleanup. destruct (has_cleanup w).
    - apply cancel_current_keeps_cancelled. unfold cancel_current. rewrite Href.
      apply cancel_running, Hrun.
    - unfold cancel_current. rewrite Href. apply cancel_running, Hrun. }
  destruct (negb (PreviewWindow.isPdfMode p)); simpl; [exact Hcur|].
  destruct (PreviewWindow.isPdfMode p && PreviewWindow.has_pdfDoc p)%bool; exact Hcur.
Qed.

(** C8, at the failing inputs.  Render 1 is issued, then render 2 for the same
    canvas while render 1 is still in flight.

    Image path: nothing cancels the pending [onload] of render 1; when the
    image of render 2 loads first, render 1 draws to the visible canvas
    after it, and the canvas ends with the output of render 1.

    Page path: while render 1 still waits for [getPage], [renderTaskRef]
    holds no task of its own, so render 2 cancels nothing; render 1 starts
    its task afterwards, finishes after render 2 and draws over it.

    The same holds in the detail preview and in the thumbnail. *)
Theorem superseded_render_overwrites :
  (exists w,
      run PreviewWindow.effect initial_world
          [Rerender 1%nat preview_image; Rerender 2%nat preview_image;
           ImageLoaded 2%nat; ImageLoaded 1%nat] = Some w
      /\ visible w = [2%nat; 1%nat])
  /\ (exists w,
        run Thumbnail.effect initial_world
            [Rerender 1%nat thumbnail_image; Rerender 2%nat thumbnail_image;
             ImageLoaded 2%nat; ImageLoaded 1%nat] = Some w
        /\ visible w = [2%nat; 1%nat])
  /\ (exists w,
        run PreviewWindow.effect initial_world
            [Rerender 1%nat preview_page; Rerender 2%nat preview_page;
             PageReady 1%nat; PageReady 2%nat;
             RenderFinished 2%nat 1%nat; RenderFinished 1%nat 0%nat] = Some w
        /\ visible w = [2%nat; 1%nat])
  /\ (exists w,
        run Thumbnail.effect initial_world
            [Rerender 1%nat thumbnail_page; Rerender 2%nat thumbnail_page;
             PageReady 1%nat; PageReady 2%nat;
             RenderFinished 2%nat 1%nat; RenderFinished 1%nat 0%nat] = Some w
        /\ visible w = [2%nat; 1%nat]).
Proof.
  split; [|split; [|split]]; eexists; (split; [vm_compute; reflexivity | reflexivity]).
Qed.

(** ** More on presets: deleting, reloading, and what the list keeps *)

Lemma names_filter_in (f : SavedStyle -> bool) (l : list SavedStyle) (n : string) :
  In n (map name (filter f l)) -> In n (map name l).
Proof.
  rewrite !in_map_iff. intros [s [Hn Hs]]. apply filter_In in Hs.
  exists s. tauto.
Qed.

Lemma names_filter_nodup (f : SavedStyle -> bool) (l : list SavedStyle) :
  NoDup (map name l) -> NoDup (map name (filter f l)).
Proof.
  induction l as [|s l IH]; simpl; intros Hnd; [constructor|].
  inversion Hnd as [|? ? Hnotin Hrest]; subst.
  destruct (f s); simpl; [constructor|]; auto.
  intros Hin. apply Hnotin. exact (names_filter_in f l _ Hin).
Qed.

Lemma filter_fresh_name (n : string) (l : list SavedStyle) :
  ~ In n (map name l) ->
  filter (fun s => negb (String.eqb (name s) n)) l = l.
Proof.
  induction l as [|s l IH]; simpl; intros Hfresh; [reflexivity|].
  destruct (String.eqb (name s) n) eqn:He.
  - apply String.eqb_eq in He. exfalso. apply Hfresh. left. exact He.
  - simpl. rewrite IH; [reflexivity|]. tauto.
Qed.

(** X1.  [deleteStyle] removes every saved style of the name given and no
    other: afterwards no style has that name, a style is in the list exactly
    when it was there under another name, and a name that was not saved
    leaves the list as it was. *)
Theorem deleteStyle_removes_only_that_name `{Host} (n : string) (p : SettingsPanel.Panel) :
  let p' := SettingsPanel.deleteStyle n p in
  ~ In n (map name (SettingsPanel.savedStyles p'))
  /\ (forall s, In s (SettingsPanel.savedStyles p')
                <-> In s (SettingsPanel.savedStyles p) /\ name s <> n)
  /\ (~ In n (map name (SettingsPanel.savedStyles p)) ->
      SettingsPanel.savedStyles p' = SettingsPanel.savedStyles p).
Proof.
  cbv zeta. unfold SettingsPanel.deleteStyle. cbn [SettingsPanel.savedStyles].
  split; [|split].
  - rewrite in_map_iff. intros [s [Hn Hs]]. apply filter_In in Hs.
    destruct Hs as [_ Hs]. rewrite Hn, String.eqb_refl in Hs. discriminate.
  - intros s. rewrite filter_In, negb_true_iff, String.eqb_neq. tauto.
  - apply filter_fresh_name.
Qed.

Lemma deleteStyle_removes_only_that_name_witness :
  SettingsPanel.savedStyles
    (@SettingsPanel.deleteStyle (fixed_width_host 0) "absent" (sample_panel ""))
  = SettingsPanel.savedStyles (sample_panel "").
Proof.
  apply (proj2 (proj2 (@deleteStyle_removes_only_that_name (fixed_width_host 0) "absent"
                         (sample_panel "")))).
  simpl. intros [Hd | []]. discriminate.
Defined.

(** X2.  Saving a style under a fresh name and deleting that name again gives
    back the list of saved styles there was before. *)
Theorem save_then_delete `{Host} (p : SettingsPanel.Panel) :
  let n := trim (SettingsPanel.styleName p) in
  n <> "" -> ~ In n (map name (SettingsPanel.savedStyles p)) ->
  SettingsPanel.savedStyles (SettingsPanel.deleteStyle n (SettingsPanel.handleSaveStyle p))
  = SettingsPanel.savedStyles p.
Proof.
  cbv zeta. intros Hne Hfresh.
  unfold SettingsPanel.handleSaveStyle.
  destruct (String.eqb (trim (SettingsPanel.styleName p)) "") eqn:He.
  { apply String.eqb_eq in He. contradiction. }
  destruct (existsb _ (SettingsPanel.savedStyles p)) eqn:Hex.
  { apply name_exists_iff in Hex. contradiction. }
  unfold SettingsPanel.deleteStyle. cbn [SettingsPanel.savedStyles].
  rewrite filter_app. cbn [filter name]. rewrite String.eqb_refl. cbn [negb].
  rewrite app_nil_r. apply filter_fresh_name. exact Hfresh.
Qed.

Lemma save_then_delete_witness :
  map name
    (SettingsPanel.savedStyles
       (@SettingsPanel.deleteStyle (fixed_width_host 0) "final"
          (@SettingsPanel.handleSaveStyle (fixed_width_host 0) (sample_panel " final "))))
  = ["draft"].
Proof.
  refine (f_equal (map name)
            (@save_then_delete (fixed_width_host 0) (sample_panel " final ") _ _)).
  - simpl. discriminate.
  - simpl. intros [Hd | []]. discriminate.
Defined.

(** X3.  The names of the saved styles stay pairwise distinct: a list without
    two styles of one name has none after [handleSaveStyle], whatever was
    typed, and none after [deleteStyle]. *)
Theorem names_stay_unique `{Host} (p : SettingsPanel.Panel) (n : string) :
  unique_names p ->
  unique_names (SettingsPanel.handleSaveStyle p)
  /\ unique_names (SettingsPanel.deleteStyle n p).
Proof.
  unfold unique_names. intros Hnd. split.
  - unfold SettingsPanel.handleSaveStyle.
    destruct (String.eqb (trim (SettingsPanel.styleName p)) ""); [exact Hnd|].
    destruct (existsb _ (SettingsPanel.savedStyles p)) eqn:Hex; [exact Hnd|].
    cbn [SettingsPanel.savedStyles]. rewrite map_app. cbn [map name].
    assert (Hfresh : ~ In (trim (SettingsPanel.styleName p))
                          (map name (SettingsPanel.savedStyles p))).
    { intros Hin. apply name_exists_iff in Hin. congruence. }
    clear Hex. revert Hnd Hfresh.
    generalize (trim (SettingsPanel.styleName p)) as m.
    generalize (map name (SettingsPanel.savedStyles p)) as l.
    induction l as [|x l IH]; intros m Hnd Hfresh; simpl.
    + constructor; [tauto | constructor].
    + inversion Hnd as [|? ? Hx Hl]; subst. constructor.
      * rewrite in_app_iff. simpl. intros [Hin | [Heq | []]]; [tauto|].
        apply Hfresh. left. symmetry. exact Heq.
      * apply IH; [exact Hl|]. intros Hin. apply Hfresh. right. exact Hin.
  - unfold SettingsPanel.deleteStyle. cbn [SettingsPanel.savedStyles].
    apply names_filter_nodup. exact Hnd.
Qed.

Lemma names_stay_unique_witness :
  unique_names (@SettingsPanel.handleSaveStyle (fixed_width_host 0) (sample_panel " final "))
  /\ unique_names (@SettingsPanel.deleteStyle (fixed_width_host 0) "draft"
                     (sample_panel " final ")).
Proof.
  apply (@names_stay_unique (fixed_width_host 0) (sample_panel " final ") "draft").
  unfold unique_names. simpl. constructor; [tauto | constructor].
Defined.

(** X4.  The storage follows the list: after [deleteStyle] the value stored
    under [watermarkStyles] is the JSON of the list on screen, and
    [handleSaveStyle] keeps that agreement, in each of its three outcomes. *)
Theorem storage_follows_list `{Host} (p : SettingsPanel.Panel) (n : string) :
  in_sync (SettingsPanel.deleteStyle n p)
  /\ (in_sync p -> in_sync (SettingsPanel.handleSaveStyle p)).
Proof.
  unfold in_sync. split.
  - unfold SettingsPanel.deleteStyle.
    cbn [SettingsPanel.localStorage SettingsPanel.savedStyles].
    apply getItem_setItem.
  - intros Hsync. unfold SettingsPanel.handleSaveStyle.
    destruct (String.eqb (trim (SettingsPanel.styleName p)) ""); [exact Hsync|].
    destruct (existsb _ (SettingsPanel.savedStyles p)); [exact Hsync|].
    cbn [SettingsPanel.localStorage SettingsPanel.savedStyles].
    apply getItem_setItem.
Qed.

Lemma storage_follows_list_witness :
  @in_sync (fixed_width_host 0)
    (@SettingsPanel.handleSaveStyle (fixed_width_host 0) (sample_panel " final ")).
Proof.
  apply (proj2 (@storage_follows_list (fixed_width_host 0) (sample_panel " final ") "")).
  reflexivity.
Defined.

Lemma getItem_removeItem (key : string) (store : list (string * string)) :
  SettingsPanel.getItem key (removeItem key store) = None.
Proof.
  unfold SettingsPanel.getItem, removeItem.
  induction store as [|[k v] rest IH]; simpl; [reflexivity|].
  destruct (String.eqb k key) eqn:Hk; simpl; [exact IH|].
  rewrite Hk. exact IH.
Qed.

Lemma getItem_removeItem_other (key key' : string) (store : list (string * string)) :
  key' <> key ->
  SettingsPanel.getItem key' (removeItem key store) = SettingsPanel.getItem key' store.
Proof.
  intros Hne. unfold SettingsPanel.getItem, removeItem.
  induction store as [|[k v] rest IH]; simpl; [reflexivity|].
  destruct (String.eqb k key) eqn:Hk; simpl.
  - apply String.eqb_eq in Hk. subst k.
    destruct (String.eqb key key') eqn:Hk'; [|exact IH].
    apply String.eqb_eq in Hk'. congruence.
  - destruct (String.eqb k key'); [reflexivity | exact IH].
Qed.

(** X5.  A reload gives back what was persisted: when the storage holds the
    JSON of a list of styles, that JSON is not the empty string and
    [JSON.parse] reads it back, the effect at mount sets the saved styles to
    that list, whatever the panel held before, and leaves the storage
    alone. *)
Theorem reload_restores_styles `{Host} (JSON_parse : string -> option (list SavedStyle))
    (styles : list SavedStyle) (p : SettingsPanel.Panel) :
  SettingsPanel.getItem "watermarkStyles" (SettingsPanel.localStorage p)
    = Some (JSON_stringify styles) ->
  JSON_stringify styles <> "" ->
  JSON_parse (JSON_stringify styles) = Some styles ->
  SettingsPanel.savedStyles (load_styles_effect JSON_parse p) = styles
  /\ SettingsPanel.localStorage (load_styles_effect JSON_parse p)
     = SettingsPanel.localStorage p.
Proof.
  intros Hget Hne Hparse. unfold load_styles_effect. rewrite Hget.
  destruct (String.eqb (JSON_stringify styles) "") eqn:He.
  { apply String.eqb_eq in He. contradiction. }
  rewrite Hparse. split; reflexivity.
Qed.

Lemma reload_restores_styles_witness :
  map name
    (SettingsPanel.savedStyles
       (load_styles_effect
          (fun s => if String.eqb s "draft"
                    then Some (SettingsPanel.savedStyles (sample_panel ""))
                    else None)
          (SettingsPanel.mkPanel "" [] (confidential top_left)
             [("watermarkStyles", "draft")] [])))
  = ["draft"].
Proof.
  rewrite (proj1 (@reload_restores_styles (fixed_width_host 0)
                    (fun s => if String.eqb s "draft"
                              then Some (SettingsPanel.savedStyles (sample_panel ""))
                              else None)
                    (SettingsPanel.savedStyles (sample_panel ""))
                    (SettingsPanel.mkPanel "" [] (confidential top_left)
                       [("watermarkStyles", "draft")] [])
                    eq_refl ltac:(discriminate) eq_refl)).
  reflexivity.
Defined.

(** X6.  The effect at mount fails soft.  With nothing stored, or the empty
    string stored, the panel is left as it is.  A stored value that does not
    parse is removed: nothing is stored under [watermarkStyles] afterwards,
    the other keys keep their values and the saved styles are untouched. *)
Theorem load_fails_soft (JSON_parse : string -> option (list SavedStyle))
    (p : SettingsPanel.Panel) :
  (SettingsPanel.getItem "watermarkStyles" (SettingsPanel.localStorage p) = None ->
   load_styles_effect JSON_parse p = p)
  /\ (SettingsPanel.getItem "watermarkStyles" (SettingsPanel.localStorage p) = Some "" ->
      load_styles_effect JSON_parse p = p)
  /\ (forall stored,
        SettingsPanel.getItem "watermarkStyles" (SettingsPanel.localStorage p) = Some stored ->
        stored <> "" -> JSON_parse stored = None ->
        let p' := load_styles_effect JSON_parse p in
        SettingsPanel.getItem "watermarkStyles" (SettingsPanel.localStorage p') = None
        /\ (forall key, key <> "watermarkStyles" ->
              SettingsPanel.getItem key (SettingsPanel.localStorage p')
              = SettingsPanel.getItem key (SettingsPanel.localStorage p))
        /\ SettingsPanel.savedStyles p' = SettingsPanel.savedStyles p).
Proof.
  unfold load_styles_effect. split; [|split].
  - intros ->. reflexivity.
  - intros ->. reflexivity.
  - intros stored -> Hne Hparse. cbv zeta.
    destruct (String.eqb stored "") eqn:He.
    { apply String.eqb_eq in He. contradiction. }
    rewrite Hparse. cbn [SettingsPanel.localStorage SettingsPanel.savedStyles].
    split; [apply getItem_removeItem|]. split; [|reflexivity].
    intros key Hkey. apply getItem_removeItem_other. exact Hkey.
Qed.

Lemma load_fails_soft_witness :
  SettingsPanel.getItem "watermarkStyles"
    (SettingsPanel.localStorage
       (load_styles_effect (fun _ => None)
          (SettingsPanel.mkPanel "" [] (confidential top_left)
             [("theme", "dark"); ("watermarkStyles", "{oops")] [])))
  = None.
Proof.
  apply (proj2 (proj2 (load_fails_soft (fun _ => None)
                         (SettingsPanel.mkPanel "" [] (confidential top_left)
                            [("theme", "dark"); ("watermarkStyles", "{oops")] [])))
           "{oops" eq_refl ltac:(discriminate) eq_refl).
Defined.

(** ** More on loops: what a loop that finished has run through *)

Lemma range_lt_cons fuel i bound step x xs :
  range_lt fuel i bound step = Some (x :: xs) -> x = i /\ i < bound.
Proof.
  destruct fuel as [|fuel]; [discriminate|]. simpl.
  destruct (Rlt_dec i bound) as [Hlt|]; [|discriminate].
  destruct (range_lt fuel (i + step) bound step); [|discriminate].
  intros Heq. injection Heq as <- _. split; [reflexivity | exact Hlt].
Qed.

Lemma range_lt_nonempty fuel i bound step xs :
  range_lt fuel i bound step = Some xs -> i < bound -> xs <> [].
Proof.
  destruct fuel as [|fuel]; [discriminate|].
  intros Hr Hlt. rewrite range_lt_enter in Hr by exact Hlt.
  destruct (range_lt fuel (i + step) bound step); [|discriminate].
  injection Hr as <-. discriminate.
Qed.

(** A loop that ran at least once and stopped has a positive step. *)
Lemma range_lt_step_pos fuel i bound step xs :
  range_lt fuel i bound step = Some xs -> xs <> [] -> 0 < step.
Proof.
  intros Hr Hne.
  destruct xs as [|x xs]; [contradiction|].
  destruct (range_lt_cons _ _ _ _ _ _ Hr) as [_ Hlt].
  pose proof (range_lt_stops _ _ _ _ _ Hr) as Hstop.
  destruct (Rlt_dec 0 step) as [Hpos | Hnpos]; [exact Hpos | exfalso].
  pose proof (pos_INR (List.length (x :: xs))) as Hn.
  assert (Hprod : INR (List.length (x :: xs)) * step <= 0).
  { replace 0 with (INR (List.length (x :: xs)) * 0) by ring.
    apply Rmult_le_compat_l; [exact Hn | lra]. }
  lra.
Qed.

(** The values of a loop with a step that is not negative lie between its
    start and its bound. *)
Lemma range_lt_In fuel i bound step xs :
  range_lt fuel i bound step = Some xs -> 0 <= step ->
  forall x, In x xs -> i <= x < bound.
Proof.
  intros Hr Hstep x Hin.
  destruct (In_nth_error _ _ Hin) as [k Hk].
  destruct (range_lt_nth _ _ _ _ _ Hr k x Hk) as [-> Hb].
  split; [|exact Hb].
  pose proof (pos_INR k) as Hk0.
  pose proof (Rmult_le_pos _ _ Hk0 Hstep). lra.
Qed.

(** Every point between the start and the bound is reached to within one
    step: some value of the loop is at or below it and less than a step
    away. *)
Lemma range_lt_covers fuel i bound step xs :
  range_lt fuel i bound step = Some xs -> 0 < step ->
  forall p, i <= p < bound -> exists x, In x xs /\ x <= p < x + step.
Proof.
  intros Hr Hstep. revert i xs Hr.
  induction fuel as [|fuel IH]; intros i xs Hr p Hp; [discriminate|].
  rewrite range_lt_enter in Hr by lra.
  destruct (range_lt fuel (i + step) bound step) as [rest|] eqn:Hrest; [|discriminate].
  injection Hr as <-.
  destruct (Rlt_dec p (i + step)) as [Hnear | Hfar].
  - exists i. split; [left; reflexivity | lra].
  - destruct (IH _ _ Hrest p) as [x [Hin Hx]]; [lra|].
    exists x. split; [right; exact Hin | exact Hx].
Qed.

Section MoreLoops.
Context {S : Type}.
Implicit Types (body : R -> Eff S unit) (c : S).

(** A loop that finished ran through the values of its range. *)
Lemma for_lt_range fuel i bound step body c r :
  for_lt fuel i bound step body c = Some r ->
  exists xs, range_lt fuel i bound step = Some xs.
Proof.
  revert i c. induction fuel as [|fuel IH]; intros i c Hr; [discriminate|].
  destruct (Rlt_dec i bound) as [Hlt | Hge].
  - rewrite for_lt_enter in Hr by exact Hlt. unfold bind in Hr.
    destruct (body i c) as [[[] c1]|]; [|discriminate].
    destruct (IH _ _ Hr) as [xs Hxs].
    exists (i :: xs). rewrite range_lt_enter by exact Hlt. rewrite Hxs. reflexivity.
  - exists []. apply range_lt_exit. exact Hge.
Qed.

(** A loop that finished and had work to do finished its first turn. *)
Lemma for_lt_first fuel i bound step body c r :
  for_lt fuel i bound step body c = Some r -> i < bound ->
  exists c1, body i c = Some (tt, c1).
Proof.
  destruct fuel as [|fuel]; [discriminate|].
  intros Hr Hlt. rewrite for_lt_enter in Hr by exact Hlt. unfold bind in Hr.
  destruct (body i c) as [[[] c1]|]; [|discriminate].
  exists c1. reflexivity.
Qed.

(** What every turn keeps, the loop keeps. *)
Lemma for_lt_invariant (P : S -> Prop) fuel i bound step body c c' :
  (forall j c1 c2, P c1 -> body j c1 = Some (tt, c2) -> P c2) ->
  P c -> for_lt fuel i bound step body c = Some (tt, c') -> P c'.
Proof.
  intros Hbody. revert i c.
  induction fuel as [|fuel IH]; intros i c Hc Hr; [discriminate|].
  destruct (Rlt_dec i bound) as [Hlt | Hge].
  - rewrite for_lt_enter in Hr by exact Hlt. unfold bind in Hr.
    destruct (body i c) as [[[] c1]|] eqn:Hb; [|discriminate].
    apply (IH (i + step) c1); [|exact Hr]. exact (Hbody i c c1 Hc Hb).
  - rewrite for_lt_exit in Hr by exact Hge. injection Hr as <-. exact Hc.
Qed.

End MoreLoops.

(** Two nested loops whose inner body adds one element to what the state
    has collected: the loops add the elements of the grid, row by row. *)
Section Emit.
Context {S E : Type} (emit : S -> list E -> S) (g : S -> R -> R -> E)
        (body : R -> R -> Eff S unit).
Hypothesis emit_nil : forall c, emit c [] = c.
Hypothesis emit_app : forall c a b, emit (emit c a) b = emit c (a ++ b).
Hypothesis g_emit : forall c l x y, g (emit c l) x y = g c x y.
Hypothesis body_emits : forall y x c, body y x c = Some (tt, emit c [g c x y]).

Lemma emit_row (y : R) fuel i bound step xs (c : S) :
  range_lt fuel i bound step = Some xs ->
  for_lt fuel i bound step (fun x => body y x) c
  = Some (tt, emit c (map (fun x => g c x y) xs)).
Proof.
  revert i xs c.
  induction fuel as [|fuel IH]; intros i xs c Hr; [discriminate|].
  destruct (Rlt_dec i bound) as [Hlt | Hge].
  - rewrite range_lt_enter in Hr by exact Hlt.
    destruct (range_lt fuel (i + step) bound step) as [rest|] eqn:Hrest; [|discriminate].
    injection Hr as <-.
    rewrite for_lt_enter by exact Hlt. unfold bind. rewrite body_emits.
    rewrite (IH _ _ _ Hrest). rewrite emit_app. cbn [map app].
    assert (Hm : map (fun x => g (emit c [g c i y]) x y) rest
                 = map (fun x => g c x y) rest)
      by (apply map_ext; intros x; apply g_emit).
    rewrite Hm. reflexivity.
  - rewrite range_lt_exit in Hr by exact Hge. injection Hr as <-.
    rewrite for_lt_exit by exact Hge. cbn [map]. rewrite emit_nil. reflexivity.
Qed.

Lemma emit_rows fuel_y fuel_x i bound_y step_y bound_x step_x ys xs (c : S) :
  range_lt fuel_y i bound_y step_y = Some ys ->
  (ys <> [] -> range_lt fuel_x 0 bound_x step_x = Some xs) ->
  for_lt fuel_y i bound_y step_y
    (fun y => for_lt fuel_x 0 bound_x step_x (fun x => body y x)) c
  = Some (tt, emit c (flat_map (fun y => map (fun x => g c x y) xs) ys)).
Proof.
  revert i ys c.
  induction fuel_y as [|fuel_y IH]; intros i ys c Hys Hxs; [discriminate|].
  destruct (Rlt_dec i bound_y) as [Hlt | Hge].
  - rewrite range_lt_enter in Hys by exact Hlt.
    destruct (range_lt fuel_y (i + step_y) bound_y step_y) as [rest|] eqn:Hrest;
      [|discriminate].
    injection Hys as <-.
    assert (Hrow : range_lt fuel_x 0 bound_x step_x = Some xs)
      by (apply Hxs; discriminate).
    rewrite for_lt_enter by exact Hlt. unfold bind at 1.
    rewrite (emit_row i _ _ _ _ _ c Hrow).
    rewrite (IH _ _ _ Hrest (fun _ => Hrow)). rewrite emit_app. cbn [flat_map].
    assert (Hm : flat_map (fun y => map (fun x => g (emit c (map (fun x0 => g c x0 i) xs)) x y)
                                        xs) rest
                 = flat_map (fun y => map (fun x => g c x y) xs) rest)
      by (apply flat_map_ext; intros y; apply map_ext; intros x; apply g_emit).
    rewrite Hm. reflexivity.
  - rewrite range_lt_exit in Hys by exact Hge. injection Hys as <-.
    rewrite for_lt_exit by exact Hge. cbn [flat_map]. rewrite emit_nil. reflexivity.
Qed.

(** The converse: when the nested loops finished, they ran through a grid
    and added its elements. *)
Lemma emit_rows_finished fuel bound_y step_y bound_x step_x (c c' : S) :
  for_lt fuel 0 bound_y step_y
    (fun y => for_lt fuel 0 bound_x step_x (fun x => body y x)) c = Some (tt, c') ->
  exists ys xs,
    range_lt fuel 0 bound_y step_y = Some ys
    /\ (ys <> [] -> range_lt fuel 0 bound_x step_x = Some xs)
    /\ c' = emit c (flat_map (fun y => map (fun x => g c x y) xs) ys).
Proof.
  intros Hloop.
  destruct (for_lt_range _ _ _ _ _ _ _ Hloop) as [ys Hys].
  assert (Hxs : exists xs, ys <> [] -> range_lt fuel 0 bound_x step_x = Some xs).
  { destruct ys as [|y ys].
    - exists []. intros Hne. contradiction.
    - destruct (range_lt_cons _ _ _ _ _ _ Hys) as [_ Hlt].
      destruct (for_lt_first _ _ _ _ _ _ _ Hloop Hlt) as [c1 Hrow].
      destruct (for_lt_range _ _ _ _ _ _ _ Hrow) as [xs Hxs].
      exists xs. intros _. exact Hxs. }
  destruct Hxs as [xs Hxs].
  exists ys, xs. split; [exact Hys|]. split; [exact Hxs|].
  pose proof (emit_rows _ _ _ _ _ _ _ _ _ c Hys Hxs) as Hrows.
  rewrite Hrows in Hloop. injection Hloop as <-. reflexivity.
Qed.

End Emit.

(** ** Grids *)

Section Grid.
Variables (fuel_y fuel_x : nat) (bound_y step_y bound_x step_x off_x off_y : R).
Variables (ys xs : list R).
Hypothesis Hys : range_lt fuel_y 0 bound_y step_y = Some ys.
Hypothesis Hxs : ys <> [] -> range_lt fuel_x 0 bound_x step_x = Some xs.

Let grid : list (R * R) :=
  flat_map (fun y => map (fun x => (x - off_x, y - off_y)) xs) ys.

Lemma grid_In (o : R * R) :
  In o grid <-> exists y x, In y ys /\ In x xs /\ o = (x - off_x, y - off_y).
Proof.
  unfold grid. rewrite in_flat_map. split.
  - intros [y [Hy Ho]]. apply in_map_iff in Ho. destruct Ho as [x [Hx Hin]].
    exists y, x. auto.
  - intros [y [x [Hy [Hx ->]]]]. exists y. split; [exact Hy|].
    apply in_map_iff. exists x. auto.
Qed.

(** The origins of a grid lie in the frame the loops span. *)
Lemma grid_within (o : R * R) :
  In o grid ->
  (- off_x <= fst o < bound_x - off_x) /\ (- off_y <= snd o < bound_y - off_y).
Proof.
  intros Hin. apply grid_In in Hin. destruct Hin as [y [x [Hy [Hx ->]]]].
  assert (Hne : ys <> []) by (intros ->; contradiction).
  assert (Hxne : xs <> []) by (intros ->; contradiction).
  pose proof (range_lt_step_pos _ _ _ _ _ Hys Hne) as Hsy.
  pose proof (range_lt_step_pos _ _ _ _ _ (Hxs Hne) Hxne) as Hsx.
  pose proof (range_lt_In _ _ _ _ _ Hys (Rlt_le _ _ Hsy) y Hy).
  pose proof (range_lt_In _ _ _ _ _ (Hxs Hne) (Rlt_le _ _ Hsx) x Hx).
  simpl. lra.
Qed.

(** The cells of a grid cover the frame: every point of the frame lies in
    the cell of some origin. *)
Lemma grid_covers (p : R * R) :
  - off_x <= fst p < bound_x - off_x -> - off_y <= snd p < bound_y - off_y ->
  exists o, In o grid /\ in_cell o step_x step_y p.
Proof.
  intros Hpx Hpy.
  assert (Hne : ys <> []) by (apply (range_lt_nonempty _ _ _ _ _ Hys); lra).
  assert (Hxne : xs <> []) by (apply (range_lt_nonempty _ _ _ _ _ (Hxs Hne)); lra).
  pose proof (range_lt_step_pos _ _ _ _ _ Hys Hne) as Hsy.
  pose proof (range_lt_step_pos _ _ _ _ _ (Hxs Hne) Hxne) as Hsx.
  destruct (range_lt_covers _ _ _ _ _ Hys Hsy (snd p + off_y)) as [y [Hy Hyc]]; [lra|].
  destruct (range_lt_covers _ _ _ _ _ (Hxs Hne) Hsx (fst p + off_x)) as [x [Hx Hxc]];
    [lra|].
  exists (x - off_x, y - off_y). split.
  - apply grid_In. exists y, x. auto.
  - unfold in_cell. simpl. lra.
Qed.

End Grid.

(** ** What the raster renders return *)

Lemma paint_nil (c : Canvas) : paint c [] = c.
Proof. destruct c. unfold paint. simpl. rewrite app_nil_r. reflexivity. Qed.

Lemma paint_app (c : Canvas) (a b : list TextRun) : paint (paint c a) b = paint c (a ++ b).
Proof. unfold paint. simpl. rewrite app_assoc. reflexivity. Qed.

Lemma runs_of_grid {A B : Type} (f : A -> B) (a : R -> R -> A) (xs ys : list R) :
  flat_map (fun y => map (fun x => f (a x y)) xs) ys
  = map f (flat_map (fun y => map (fun x => a x y) xs) ys).
Proof.
  induction ys as [|y ys IH]; simpl; [reflexivity|].
  rewrite map_app, map_map, IH. reflexivity.
Qed.

(** The export render, when it returns: the grid it ran through and the
    canvas it leaves. *)
Lemma drawWatermarkOnCanvas_finished `{Host} fuel w h t fs col op an ps rs cs (c c' : Canvas) :
  let tw := measureText_width (font_template fs) t in
  let rad := - an * PI / 180 in
  let fill := SettingsPanel.hexToRgba col op in
  SettingsPanel.drawWatermarkOnCanvas fuel w h (mkOptions t fs col op an repeating ps rs cs) c
  = Some (tt, c') ->
  exists ys xs,
    range_lt fuel 0 (h * 2) (SettingsPanel.vSpacing tw fs rad rs) = Some ys
    /\ (ys <> [] -> range_lt fuel 0 (w * 2) (SettingsPanel.hSpacing tw fs rad cs) = Some xs)
    /\ c' = mkCanvas (width c) (height c) (styled fill (font_template fs) c) (saved c)
              (painted c
               ++ map (fun o => mkTextRun t (fst o) (snd o)
                           (mkDrawingState fill (font_template fs) align_center base_middle
                              (frame_rotation (transform (state c)) w h rad)))
                      (flat_map (fun y => map (fun x => (x - w, y - h)) xs) ys)).
Proof.
  intros tw rad fill Hrun.
  rewrite drawWatermarkOnCanvas_repeating in Hrun. unfold bind at 1 in Hrun.
  match type of Hrun with
  | match ?loop with _ => _ end = _ => destruct loop as [[[] c2]|] eqn:Hloop; [|discriminate]
  end.
  apply (emit_rows_finished paint (fun c0 x y => mkTextRun t (x - w) (y - h) (state c0))
           (fun y x => fillText t (x - w) (y - h)) paint_nil paint_app
           (fun _ _ _ _ => eq_refl) (fun _ _ _ => eq_refl)) in Hloop.
  destruct Hloop as (ys & xs & Hys & Hxs & ->).
  exists ys, xs. split; [exact Hys|]. split; [exact Hxs|].
  cbn [restore paint entered saved width height state painted] in Hrun.
  injection Hrun as <-. unfold styled.
  rewrite (runs_of_grid (fun o => mkTextRun t (fst o) (snd o) _) (fun x y => (x - w, y - h))).
  reflexivity.
Qed.

(** The thumbnail render, when it returns. *)
Lemma drawWatermarkToCanvas_finished `{Host} fuel t fs col op an ps rs cs label
    (c c' : Canvas) :
  let size := Rmax 8 (fs * Thumbnail.scaleFactor) in
  let tw := measureText_width (font_template size) label in
  let rad := - an * PI / 180 in
  let fill := Thumbnail.hexToRgba col op in
  Thumbnail.drawWatermarkToCanvas fuel (mkOptions t fs col op an repeating ps rs cs) label c
  = Some (tt, c') ->
  exists ys xs,
    range_lt fuel 0 (height c * 2)
      (Thumbnail.vSpacing tw size rad (rs * Thumbnail.scaleFactor)) = Some ys
    /\ (ys <> [] ->
        range_lt fuel 0 (width c * 2)
          (Thumbnail.hSpacing tw size rad (cs * Thumbnail.scaleFactor)) = Some xs)
    /\ c' = mkCanvas (width c) (height c) (styled fill (font_template size) c) (saved c)
              (painted c
               ++ map (fun o => mkTextRun label (fst o) (snd o)
                           (mkDrawingState fill (font_template size) align_center base_middle
                              (frame_rotation (transform (state c)) (width c) (height c) rad)))
                      (flat_map (fun y => map (fun x => (x - width c, y - height c)) xs) ys)).
Proof.
  intros size tw rad fill Hrun.
  rewrite drawWatermarkToCanvas_repeating in Hrun. unfold bind at 1 in Hrun.
  match type of Hrun with
  | match ?loop with _ => _ end = _ => destruct loop as [[[] c2]|] eqn:Hloop; [|discriminate]
  end.
  apply (emit_rows_finished paint
           (fun c0 x y => mkTextRun label (x - width c) (y - height c) (state c0))
           (fun y x => fillText label (x - width c) (y - height c)) paint_nil paint_app
           (fun _ _ _ _ => eq_refl) (fun _ _ _ => eq_refl)) in Hloop.
  destruct Hloop as (ys & xs & Hys & Hxs & ->).
  exists ys, xs. split; [exact Hys|]. split; [exact Hxs|].
  cbn [restore paint entered saved width height state painted] in Hrun.
  injection Hrun as <-. unfold styled.
  rewrite (runs_of_grid (fun o => mkTextRun label (fst o) (snd o) _)
             (fun x y => (x - width c, y - height c))).
  reflexivity.
Qed.

(** The preview render, when it returns. *)
Lemma drawWatermark_finished `{Host} fuel t fs col op an ps rs cs (c c' : Canvas) :
  let tw := measureText_width (font_template fs) t in
  let rad := - an * PI / 180 in
  let fill := PreviewWindow.hexToRgba col op in
  PreviewWindow.drawWatermark fuel (mkOptions t fs col op an repeating ps rs cs) c
  = Some (tt, c') ->
  exists ys xs,
    range_lt fuel 0 (height c + PreviewWindow.vSpacing fs rs) (PreviewWindow.vSpacing fs rs)
    = Some ys
    /\ (ys <> [] ->
        range_lt fuel 0 (width c + PreviewWindow.hSpacing tw cs) (PreviewWindow.hSpacing tw cs)
        = Some xs)
    /\ c' = mkCanvas (width c) (height c) (styled fill (font_template fs) c) (saved c)
              (painted c
               ++ map (fun o => mkTextRun t 0 0
                           (mkDrawingState fill (font_template fs) align_center base_middle
                              (instance_rotation (transform (state c))
                                 (fst o) (snd o) rad)))
                      (flat_map (fun y => map (fun x => (x, y)) xs) ys)).
Proof.
  intros tw rad fill Hrun.
  rewrite drawWatermark_repeating in Hrun. unfold bind at 1 in Hrun.
  match type of Hrun with
  | match ?loop with _ => _ end = _ => destruct loop as [[[] c2]|] eqn:Hloop; [|discriminate]
  end.
  apply (emit_rows_finished paint
           (fun c0 x y => mkTextRun t 0 0
                (mkDrawingState (fillStyle (state c0)) (font (state c0))
                   (textAlign (state c0)) (textBaseline (state c0))
                   (instance_rotation (transform (state c0)) x y (- an * PI / 180))))
           (fun y x => save ;;; translate x y ;;; rotate (- an * PI / 180) ;;;
                       fillText t 0 0 ;;; restore)
           paint_nil paint_app (fun _ _ _ _ => eq_refl)
           (fun y x c0 => preview_instance t x y (- an * PI / 180) c0)) in Hloop.
  destruct Hloop as (ys & xs & Hys & Hxs & ->).
  exists ys, xs. split; [exact Hys|]. split; [exact Hxs|].
  cbn [restore paint entered saved width height state painted
       fillStyle font textAlign textBaseline transform] in Hrun.
  injection Hrun as <-. unfold styled.
  pose proof (runs_of_grid
                (fun o => mkTextRun t 0 0
                   (mkDrawingState fill (font_template fs) align_center base_middle
                      (instance_rotation (transform (state c)) (fst o) (snd o) rad)))
                (fun x y => (x, y)) xs ys) as Hg.
  cbv beta in Hg. rewrite <- Hg. reflexivity.
Qed.

(** The three renders in single mode: they always return, whatever the fuel,
    having painted one text at the point (0, 0) of a frame moved to the
    anchor and rotated there. *)
Lemma drawWatermarkOnCanvas_single `{Host} fuel w h t fs col op an ps rs cs (c : Canvas) :
  let pos := SettingsPanel.getWatermarkPosition ps w h fs in
  let st m := mkDrawingState (SettingsPanel.hexToRgba col op) (font_template fs)
                (pos_textAlign pos) (pos_textBaseline pos) m in
  SettingsPanel.drawWatermarkOnCanvas fuel w h (mkOptions t fs col op an single ps rs cs) c
  = Some (tt, mkCanvas (width c) (height c) (st (transform (state c))) (saved c)
                (painted c
                 ++ [mkTextRun t 0 0
                       (st (instance_rotation (transform (state c)) (pos_x pos) (pos_y pos)
                              (- an * PI / 180)))])).
Proof. reflexivity. Qed.

Lemma drawWatermark_single `{Host} fuel t fs col op an ps rs cs (c : Canvas) :
  let pos := PreviewWindow.getWatermarkPosition ps (width c) (height c) fs in
  let st m := mkDrawingState (PreviewWindow.hexToRgba col op) (font_template fs)
                (pos_textAlign pos) (pos_textBaseline pos) m in
  PreviewWindow.drawWatermark fuel (mkOptions t fs col op an single ps rs cs) c
  = Some (tt, mkCanvas (width c) (height c) (st (transform (state c))) (saved c)
                (painted c
                 ++ [mkTextRun t 0 0
                       (st (instance_rotation (transform (state c)) (pos_x pos) (pos_y pos)
                              (- an * PI / 180)))])).
Proof. reflexivity. Qed.

Lemma drawWatermarkToCanvas_single `{Host} fuel t fs col op an ps rs cs label (c : Canvas) :
  let size := Rmax 8 (fs * Thumbnail.scaleFactor) in
  let pos := Thumbnail.getWatermarkPosition ps (width c) (height c) size in
  let st m := mkDrawingState (Thumbnail.hexToRgba col op) (font_template size)
                (pos_textAlign pos) (pos_textBaseline pos) m in
  Thumbnail.drawWatermarkToCanvas fuel (mkOptions t fs col op an single ps rs cs) label c
  = Some (tt, mkCanvas (width c) (height c) (st (transform (state c))) (saved c)
                (painted c
                 ++ [mkTextRun label 0 0
                       (st (instance_rotation (transform (state c)) (pos_x pos) (pos_y pos)
                              (- an * PI / 180)))])).
Proof. reflexivity. Qed.

(** ** What the raster renders keep and where they paint *)

(** X7.  A render that returns leaves the canvas as it found it but for the
    text it added: the size, the stack of saved states and the transform
    are unchanged and what was painted before is still there.  In repeating
    mode the text alignment and baseline are restored as well.  This holds
    for the preview, the export and the thumbnail render. *)
Theorem renders_keep_canvas `{Host} (fuel : nat) (options : WatermarkOptions)
    (label : string) (w h : R) (c c' : Canvas) :
  (PreviewWindow.drawWatermark fuel options c = Some (tt, c') ->
   canvas_kept c c' /\ (mode options = repeating -> alignment_kept c c'))
  /\ (SettingsPanel.drawWatermarkOnCanvas fuel w h options c = Some (tt, c') ->
      canvas_kept c c' /\ (mode options = repeating -> alignment_kept c c'))
  /\ (Thumbnail.drawWatermarkToCanvas fuel options label c = Some (tt, c') ->
      canvas_kept c c' /\ (mode options = repeating -> alignment_kept c c')).
Proof.
  destruct options as [t fs col op an md ps rs cs]. cbn [mode].
  unfold canvas_kept, alignment_kept.
  destruct md.
  - rewrite drawWatermark_single, drawWatermarkOnCanvas_single, drawWatermarkToCanvas_single.
    repeat split; try discriminate;
      match goal with
      | Hrun : Some _ = Some _ |- _ => injection Hrun as <-
      end; cbn [width height saved state transform painted];
      try reflexivity; eexists; reflexivity.
  - split; [|split]; intros Hrun.
    + apply drawWatermark_finished in Hrun.
      destruct Hrun as (ys & xs & _ & _ & ->).
      cbn [width height saved state transform painted styled textAlign textBaseline].
      repeat split; try reflexivity. eexists. reflexivity.
    + apply drawWatermarkOnCanvas_finished in Hrun.
      destruct Hrun as (ys & xs & _ & _ & ->).
      cbn [width height saved state transform painted styled textAlign textBaseline].
      repeat split; try reflexivity. eexists. reflexivity.
    + apply drawWatermarkToCanvas_finished in Hrun.
      destruct Hrun as (ys & xs & _ & _ & ->).
      cbn [width height saved state transform painted styled textAlign textBaseline].
      repeat split; try reflexivity. eexists. reflexivity.
Qed.

Lemma renders_keep_canvas_witness :
  exists c',
    @PreviewWindow.drawWatermark (fixed_width_host 200) 0 (confidential top_left)
      (blank_canvas 1000 800) = Some (tt, c')
    /\ canvas_kept (blank_canvas 1000 800) c'.
Proof.
  eexists. split.
  - apply (@drawWatermark_single (fixed_width_host 200)).
  - apply (proj1 (@renders_keep_canvas (fixed_width_host 200) 0 (confidential top_left)
                    "" 1000 800 (blank_canvas 1000 800) _)).
    apply (@drawWatermark_single (fixed_width_host 200)).
Defined.

(** X8.  In single mode each of the three renders returns whatever the fuel and
    paints exactly one text.  On a canvas whose transform is the identity
    that text is painted at the resolved anchor, for every angle (the
    rotation turns the text about the anchor), with the alignment and the
    baseline of the anchor. *)
Theorem single_mark_at_anchor `{Host} (fuel : nat) (options : WatermarkOptions)
    (label : string) (w h : R) (c : Canvas) :
  mode options = single -> transform (state c) = m_identity ->
  (let pos := PreviewWindow.getWatermarkPosition (position options) (width c) (height c)
                (fontSize options) in
   exists c' run,
     PreviewWindow.drawWatermark fuel options c = Some (tt, c')
     /\ painted c' = painted c ++ [run]
     /\ run_text run = text options
     /\ painted_at run = (pos_x pos, pos_y pos)
     /\ textAlign (run_state run) = pos_textAlign pos
     /\ textBaseline (run_state run) = pos_textBaseline pos)
  /\ (let pos := SettingsPanel.getWatermarkPosition (position options) w h
                   (fontSize options) in
      exists c' run,
        SettingsPanel.drawWatermarkOnCanvas fuel w h options c = Some (tt, c')
        /\ painted c' = painted c ++ [run]
        /\ run_text run = text options
        /\ painted_at run = (pos_x pos, pos_y pos)
        /\ textAlign (run_state run) = pos_textAlign pos
        /\ textBaseline (run_state run) = pos_textBaseline pos)
  /\ (let pos := Thumbnail.getWatermarkPosition (position options) (width c) (height c)
                   (Rmax 8 (fontSize options * Thumbnail.scaleFactor)) in
      exists c' run,
        Thumbnail.drawWatermarkToCanvas fuel options label c = Some (tt, c')
        /\ painted c' = painted c ++ [run]
        /\ run_text run = label
        /\ painted_at run = (pos_x pos, pos_y pos)
        /\ textAlign (run_state run) = pos_textAlign pos
        /\ textBaseline (run_state run) = pos_textBaseline pos).
Proof.
  destruct options as [t fs col op an md ps rs cs].
  cbn [mode position fontSize text]. intros -> Hid.
  rewrite drawWatermark_single, drawWatermarkOnCanvas_single, drawWatermarkToCanvas_single.
  cbv zeta.
  split; [|split]; eexists; eexists; (split; [reflexivity|]);
    cbn [painted]; (split; [reflexivity|]);
    unfold painted_at; cbn [run_text run_state run_x run_y transform textAlign textBaseline];
    rewrite Hid, instance_rotation_origin; repeat split; reflexivity.
Qed.

Lemma single_mark_at_anchor_witness :
  exists c' run,
    @SettingsPanel.drawWatermarkOnCanvas (fixed_width_host 200) 0 1000 800
      (confidential middle_center) (blank_canvas 1000 800) = Some (tt, c')
    /\ painted c' = [run]
    /\ painted_at run = (1000 / 2, 800 / 2).
Proof.
  destruct (proj1 (proj2 (@single_mark_at_anchor (fixed_width_host 200) 0
                            (confidential middle_center) "" 1000 800
                            (blank_canvas 1000 800) eq_refl eq_refl)))
    as (c' & run & Hrun & Hp & _ & Hat & _).
  exists c', run. split; [exact Hrun|]. split; [exact Hp | exact Hat].
Defined.

(** ** The grids of the repeating renders *)

(** X9.  When the export render returns in repeating mode, every text it
    painted has its origin in the frame [-w, w) x [-h, h), all under the one
    rotation of the frame, and the cells of the origins (one stride wide and
    high) cover that frame: every point of the frame lies in the cell of an
    origin. *)
Theorem export_frame_is_tiled `{Host} (fuel : nat) (options : WatermarkOptions) (w h : R)
    (c c' : Canvas) :
  mode options = repeating ->
  SettingsPanel.drawWatermarkOnCanvas fuel w h options c = Some (tt, c') ->
  let tw := measureText_width (font_template (fontSize options)) (text options) in
  let rad := - angle options * PI / 180 in
  let hS := SettingsPanel.hSpacing tw (fontSize options) rad (colSpacing options) in
  let vS := SettingsPanel.vSpacing tw (fontSize options) rad (rowSpacing options) in
  exists os,
    placements c'
    = placements c
      ++ map (fun o => (fst o, snd o, frame_rotation (transform (state c)) w h rad)) os
    /\ (forall o, In o os -> (- w <= fst o < w) /\ (- h <= snd o < h))
    /\ (forall p, - w <= fst p < w -> - h <= snd p < h ->
          exists o, In o os /\ in_cell o hS vS p).
Proof.
  destruct options as [t fs col op an md ps rs cs].
  cbn [mode text fontSize angle rowSpacing colSpacing]. intros -> Hrun. cbv zeta.
  apply drawWatermarkOnCanvas_finished in Hrun.
  destruct Hrun as (ys & xs & Hys & Hxs & ->).
  exists (flat_map (fun y => map (fun x => (x - w, y - h)) xs) ys).
  split; [|split].
  - unfold placements. cbn [painted]. rewrite map_app, map_map. reflexivity.
  - intros o Hin.
    pose proof (grid_within _ _ _ _ _ _ w h ys xs Hys Hxs o Hin) as [Hx Hy].
    lra.
  - intros p Hpx Hpy.
    apply (grid_covers _ _ _ _ _ _ w h ys xs Hys Hxs p); lra.
Qed.

Lemma export_frame_is_tiled_witness :
  exists c' os,
    @SettingsPanel.drawWatermarkOnCanvas (fixed_width_host 100) 5 100 100 tiled_draft
      (blank_canvas 100 100) = Some (tt, c')
    /\ placements c'
       = map (fun o => (fst o, snd o, frame_rotation m_identity 100 100 (- 90 * PI / 180))) os
    /\ (forall o, In o os -> (- 100 <= fst o < 100) /\ (- 100 <= snd o < 100)).
Proof.
  destruct (@drawWatermarkOnCanvas_canonical (fixed_width_host 100) tiled_draft 100 100 5 _
              (blank_canvas 100 100) eq_refl tiled_draft_canonical) as [c' [Hrun _]].
  destruct (@export_frame_is_tiled (fixed_width_host 100) 5 tiled_draft 100 100
              (blank_canvas 100 100) c' eq_refl Hrun) as (os & Hpl & Hin & _).
  exists c', os. split; [exact Hrun|]. split; [exact Hpl | exact Hin].
Defined.

(** X10.  The same for the thumbnail render, on the canvas it is given:
    origins in [-width, width) x [-height, height) under one rotation of
    the frame, cells that cover that frame. *)
Theorem thumbnail_frame_is_tiled `{Host} (fuel : nat) (options : WatermarkOptions)
    (label : string) (c c' : Canvas) :
  mode options = repeating ->
  Thumbnail.drawWatermarkToCanvas fuel options label c = Some (tt, c') ->
  let size := Rmax 8 (fontSize options * Thumbnail.scaleFactor) in
  let tw := measureText_width (font_template size) label in
  let rad := - angle options * PI / 180 in
  let hS := Thumbnail.hSpacing tw size rad (colSpacing options * Thumbnail.scaleFactor) in
  let vS := Thumbnail.vSpacing tw size rad (rowSpacing options * Thumbnail.scaleFactor) in
  exists os,
    placements c'
    = placements c
      ++ map (fun o => (fst o, snd o,
                        frame_rotation (transform (state c)) (width c) (height c) rad)) os
    /\ (forall o, In o os ->
          (- width c <= fst o < width c) /\ (- height c <= snd o < height c))
    /\ (forall p, - width c <= fst p < width c -> - height c <= snd p < height c ->
          exists o, In o os /\ in_cell o hS vS p).
Proof.
  destruct options as [t fs col op an md ps rs cs].
  cbn [mode text fontSize angle rowSpacing colSpacing]. intros -> Hrun. cbv zeta.
  apply drawWatermarkToCanvas_finished in Hrun.
  destruct Hrun as (ys & xs & Hys & Hxs & ->).
  exists (flat_map (fun y => map (fun x => (x - width c, y - height c)) xs) ys).
  split; [|split].
  - unfold placements. cbn [painted]. rewrite map_app, map_map. reflexivity.
  - intros o Hin.
    pose proof (grid_within _ _ _ _ _ _ (width c) (height c) ys xs Hys Hxs o Hin) as [Hx Hy].
    lra.
  - intros p Hpx Hpy.
    apply (grid_covers _ _ _ _ _ _ (width c) (height c) ys xs Hys Hxs p); lra.
Qed.

Lemma grid_no_offset (xs ys : list R) :
  flat_map (fun y => map (fun x => (x - 0, y - 0)) xs) ys
  = flat_map (fun y => map (fun x => (x, y)) xs) ys.
Proof.
  apply flat_map_ext. intros y. apply map_ext. intros x.
  f_equal; lra.
Qed.

(** X11.  When the preview render returns in repeating mode, every text it
    painted is at the point (0, 0) of a frame of its own, moved to an origin
    in [0, width + hSpacing) x [0, height + vSpacing) and rotated there.
    With positive strides the cells of the origins cover the canvas: every
    point of [0, width] x [0, height] lies in the cell of an origin. *)
Theorem preview_grid_covers_canvas `{Host} (fuel : nat) (options : WatermarkOptions)
    (c c' : Canvas) :
  mode options = repeating ->
  PreviewWindow.drawWatermark fuel options c = Some (tt, c') ->
  let tw := measureText_width (font_template (fontSize options)) (text options) in
  let rad := - angle options * PI / 180 in
  let hS := PreviewWindow.hSpacing tw (colSpacing options) in
  let vS := PreviewWindow.vSpacing (fontSize options) (rowSpacing options) in
  exists os,
    placements c'
    = placements c
      ++ map (fun o => (0, 0, instance_rotation (transform (state c)) (fst o) (snd o) rad)) os
    /\ (forall o, In o os -> (0 <= fst o < width c + hS) /\ (0 <= snd o < height c + vS))
    /\ (0 < hS -> 0 < vS ->
        forall p, 0 <= fst p <= width c -> 0 <= snd p <= height c ->
          exists o, In o os /\ in_cell o hS vS p).
Proof.
  destruct options as [t fs col op an md ps rs cs].
  cbn [mode text fontSize angle rowSpacing colSpacing]. intros -> Hrun. cbv zeta.
  apply drawWatermark_finished in Hrun.
  destruct Hrun as (ys & xs & Hys & Hxs & ->).
  exists (flat_map (fun y => map (fun x => (x, y)) xs) ys).
  split; [|split].
  - unfold placements. cbn [painted]. rewrite map_app, map_map. reflexivity.
  - intros o Hin. rewrite <- grid_no_offset in Hin.
    pose proof (grid_within _ _ _ _ _ _ 0 0 ys xs Hys Hxs o Hin) as [Hx Hy].
    lra.
  - intros Hh Hv p Hpx Hpy.
    destruct (grid_covers _ _ _ _ _ _ 0 0 ys xs Hys Hxs p) as [o [Hin Hcell]]; try lra.
    exists o. split; [|exact Hcell]. rewrite <- grid_no_offset. exact Hin.
Qed.

Lemma preview_grid_covers_canvas_witness :
  exists c' os,
    @PreviewWindow.drawWatermark (fixed_width_host 100) 5 tiled_draft (blank_canvas 100 100)
    = Some (tt, c')
    /\ (forall o, In o os -> (0 <= fst o < 100 + 100) /\ (0 <= snd o < 100 + 50))
    /\ (forall p, 0 <= fst p <= 100 -> 0 <= snd p <= 100 ->
          exists o, In o os /\ in_cell o 100 50 p).
Proof.
  destruct (@drawWatermark_per_instance (fixed_width_host 100) tiled_draft 5 _
              (blank_canvas 100 100) eq_refl tiled_draft_preview) as [c' [Hrun _]].
  destruct (@preview_grid_covers_canvas (fixed_width_host 100) 5 tiled_draft
              (blank_canvas 100 100) c' eq_refl Hrun) as (os & _ & Hin & Hcov).
  exists c', os. split; [exact Hrun|]. split.
  - intros o Ho. destruct (Hin o Ho) as [Hx Hy].
    unfold PreviewWindow.hSpacing, PreviewWindow.vSpacing in Hx, Hy. simpl in Hx, Hy.
    split; lra.
  - intros p Hpx Hpy.
    destruct (Hcov ltac:(unfold PreviewWindow.hSpacing; simpl; lra)
                   ltac:(unfold PreviewWindow.vSpacing; simpl; lra) p Hpx Hpy)
      as [o [Ho Hcell]].
    exists o. split; [exact Ho|].
    unfold in_cell, PreviewWindow.hSpacing, PreviewWindow.vSpacing in *.
    simpl in *. lra.
Defined.

(** X12.  On a canvas of positive width and height the export render in
    repeating mode finishes, given enough fuel, exactly when both of its
    strides are positive. *)
Theorem export_finishes_iff_strides_positive `{Host} (options : WatermarkOptions) (w h : R)
    (c : Canvas) :
  mode options = repeating -> 0 < w -> 0 < h ->
  let tw := measureText_width (font_template (fontSize options)) (text options) in
  let rad := - angle options * PI / 180 in
  (exists fuel c', SettingsPanel.drawWatermarkOnCanvas fuel w h options c = Some (tt, c'))
  <-> (0 < SettingsPanel.hSpacing tw (fontSize options) rad (colSpacing options)
       /\ 0 < SettingsPanel.vSpacing tw (fontSize options) rad (rowSpacing options)).
Proof.
  intros Hmode Hw Hh tw rad. split.
  - intros (fuel & c' & Hrun).
    destruct options as [t fs col op an md ps rs cs].
    cbn [mode text fontSize angle rowSpacing colSpacing] in *. subst md.
    apply drawWatermarkOnCanvas_finished in Hrun.
    destruct Hrun as (ys & xs & Hys & Hxs & _).
    assert (Hne : ys <> []) by (apply (range_lt_nonempty _ _ _ _ _ Hys); lra).
    assert (Hxne : xs <> []) by (apply (range_lt_nonempty _ _ _ _ _ (Hxs Hne)); lra).
    split.
    + exact (range_lt_step_pos _ _ _ _ _ (Hxs Hne) Hxne).
    + exact (range_lt_step_pos _ _ _ _ _ Hys Hne).
  - intros [Hhs Hvs].
    destruct (drawWatermarkOnCanvas_terminates options w h c Hmode Hhs Hvs) as [n Hn].
    exists n. apply Hn. apply Nat.le_refl.
Qed.

Lemma export_finishes_iff_strides_positive_witness :
  ~ exists fuel c',
      @SettingsPanel.drawWatermarkOnCanvas (fixed_width_host 0) fuel 1000 800
        (mkOptions "" 48 "#ffffff" (1 / 2) 0 repeating middle_center 0 0)
        (blank_canvas 1000 800) = Some (tt, c').
Proof.
  intros Hex.
  apply (@export_finishes_iff_strides_positive (fixed_width_host 0)
           (mkOptions "" 48 "#ffffff" (1 / 2) 0 repeating middle_center 0 0)
           1000 800 (blank_canvas 1000 800) eq_refl ltac:(lra) ltac:(lra)) in Hex.
  destruct Hex as [Hh _]. cbn [fontSize colSpacing angle text] in Hh.
  unfold SettingsPanel.hSpacing, SettingsPanel.boxWidth in Hh.
  rewrite abs_cos_0, abs_sin_0 in Hh. simpl in Hh. lra.
Defined.

(** The thumbnail render finishes when both of its strides are positive. *)
Lemma drawWatermarkToCanvas_terminates `{Host} (options : WatermarkOptions) (label : string)
    (c : Canvas) :
  mode options = repeating ->
  let size := Rmax 8 (fontSize options * Thumbnail.scaleFactor) in
  let tw := measureText_width (font_template size) label in
  let rad := - angle options * PI / 180 in
  0 < Thumbnail.hSpacing tw size rad (colSpacing options * Thumbnail.scaleFactor) ->
  0 < Thumbnail.vSpacing tw size rad (rowSpacing options * Thumbnail.scaleFactor) ->
  exists n, forall fuel, (n <= fuel)%nat ->
    exists c', Thumbnail.drawWatermarkToCanvas fuel options label c = Some (tt, c').
Proof.
  destruct options as [t fs col op an md ps rs cs].
  cbn [mode text fontSize angle rowSpacing colSpacing].
  intros -> Hh Hv.
  destruct (nested_for_lt_terminates (S := Canvas) (height c * 2) _ (width c * 2) _ Hv Hh)
    as [n Hn].
  exists n. intros fuel Hfuel.
  rewrite drawWatermarkToCanvas_repeating. apply then_restore_total.
  apply (Hn fuel (fun y x => fillText label (x - width c) (y - height c)) Hfuel).
  intros y x c0. eexists. reflexivity.
Qed.

(** X13.  The thumbnail render never works with a font size below 8, so its
    repeating mode finishes, given enough fuel, for every font size of the
    options: it is enough that the label measures to a positive width and
    that the spacings are not negative. *)
Theorem thumbnail_finishes `{Host} (options : WatermarkOptions) (label : string)
    (c : Canvas) :
  mode options = repeating ->
  0 < measureText_width
        (font_template (Rmax 8 (fontSize options * Thumbnail.scaleFactor))) label ->
  0 <= rowSpacing options -> 0 <= colSpacing options ->
  8 <= Rmax 8 (fontSize options * Thumbnail.scaleFactor)
  /\ exists n, forall fuel, (n <= fuel)%nat ->
       exists c', Thumbnail.drawWatermarkToCanvas fuel options label c = Some (tt, c').
Proof.
  intros Hmode Htw Hrs Hcs.
  pose proof (Rmax_l 8 (fontSize options * Thumbnail.scaleFactor)) as Hsize.
  split; [exact Hsize|].
  destruct (box_pos _ (Rmax 8 (fontSize options * Thumbnail.scaleFactor))
              (- angle options * PI / 180) Htw ltac:(lra)) as [Hbw Hbh].
  apply drawWatermarkToCanvas_terminates; [exact Hmode | |];
    unfold Thumbnail.hSpacing, Thumbnail.vSpacing, Thumbnail.boxWidth, Thumbnail.boxHeight,
      Thumbnail.scaleFactor in *; lra.
Qed.

Lemma thumbnail_finishes_witness :
  exists n, forall fuel, (n <= fuel)%nat ->
    exists c',
      @Thumbnail.drawWatermarkToCanvas (fixed_width_host 40) fuel
        (mkOptions "DRAFT" (- 5) "#ffffff" (1 / 2) 30 repeating middle_center 0 0) "DRAFT"
        (blank_canvas 150 150) = Some (tt, c').
Proof.
  apply (@thumbnail_finishes (fixed_width_host 40)
           (mkOptions "DRAFT" (- 5) "#ffffff" (1 / 2) 30 repeating middle_center 0 0)
           "DRAFT" (blank_canvas 150 150)); simpl; try reflexivity; lra.
Defined.

Lemma thumbnail_frame_is_tiled_witness :
  exists fuel c' os,
    @Thumbnail.drawWatermarkToCanvas (fixed_width_host 40) fuel
      (mkOptions "DRAFT" 48 "#ffffff" (1 / 2) 30 repeating middle_center 50 50) "Page 1"
      (blank_canvas 150 150) = Some (tt, c')
    /\ (forall o, In o os -> (- 150 <= fst o < 150) /\ (- 150 <= snd o < 150)).
Proof.
  pose proof (Rmax_l 8 (48 * Thumbnail.scaleFactor)) as Hsize.
  destruct (box_pos 40 (Rmax 8 (48 * Thumbnail.scaleFactor)) (- (30) * PI / 180)
              ltac:(lra) ltac:(lra)) as [Hbw Hbh].
  destruct (@drawWatermarkToCanvas_terminates (fixed_width_host 40)
              (mkOptions "DRAFT" 48 "#ffffff" (1 / 2) 30 repeating middle_center 50 50)
              "Page 1" (blank_canvas 150 150) eq_refl) as [n Hn].
  - cbn [fontSize angle colSpacing measureText_width fixed_width_host].
    unfold Thumbnail.hSpacing, Thumbnail.boxWidth, Thumbnail.scaleFactor in *. lra.
  - cbn [fontSize angle rowSpacing measureText_width fixed_width_host].
    unfold Thumbnail.vSpacing, Thumbnail.boxHeight, Thumbnail.scaleFactor in *. lra.
  - destruct (Hn n (Nat.le_refl n)) as [c' Hrun].
    destruct (@thumbnail_frame_is_tiled (fixed_width_host 40) n
                (mkOptions "DRAFT" 48 "#ffffff" (1 / 2) 30 repeating middle_center 50 50)
                "Page 1"
                (blank_canvas 150 150) c' eq_refl Hrun) as (os & _ & Hin & _).
    exists n, c', os. split; [exact Hrun | exact Hin].
Defined.

(** ** The canvases of the renders *)

(** X14.  The thumbnail of an image is 150 by 150 and its font size a quarter
    of the one of the options, at least 8.  For every font size up to 300 the
    single mark of the thumbnail is painted within the margins: its anchor is
    at least the scaled font size away from each edge of the thumbnail. *)
Theorem thumbnail_image_anchor_within_margins `{Host} (fuel : nat)
    (options : WatermarkOptions) :
  mode options = single -> fontSize options <= 300 ->
  let size := Rmax 8 (fontSize options * Thumbnail.scaleFactor) in
  exists c run,
    thumbnail_image_onload fuel options = Some c
    /\ width c = 150 /\ height c = 150
    /\ painted c = [run]
    /\ run_text run = text options
    /\ size <= fst (painted_at run) <= 150 - size
    /\ size <= snd (painted_at run) <= 150 - size.
Proof.
  destruct options as [t fs col op an md ps rs cs].
  cbn [mode fontSize text]. intros -> Hfs. cbv zeta.
  unfold thumbnail_image_onload. cbn [text].
  rewrite drawWatermarkToCanvas_single.
  eexists. eexists. split; [reflexivity|].
  cbn [width height painted blank_canvas app run_text].
  do 4 (split; [reflexivity|]).
  unfold painted_at.
  cbn [run_state run_x run_y transform state blank_canvas initial_state].
  rewrite instance_rotation_origin. cbn [fst snd].
  assert (Hlow : 8 <= Rmax 8 (fs * Thumbnail.scaleFactor)) by apply Rmax_l.
  assert (Hhigh : Rmax 8 (fs * Thumbnail.scaleFactor) <= 75).
  { apply Rmax_lub; [lra|]. unfold Thumbnail.scaleFactor. lra. }
  destruct (getWatermarkPosition_copies ps 150 150 (Rmax 8 (fs * Thumbnail.scaleFactor)))
    as [_ ->].
  destruct (getWatermarkPosition_grid ps 150 150 (Rmax 8 (fs * Thumbnail.scaleFactor)))
    as [-> ->].
  destruct ps; cbn [anchor_column anchor_row]; lra.
Qed.

Lemma thumbnail_image_anchor_within_margins_witness :
  exists c run,
    @thumbnail_image_onload (fixed_width_host 200) 0 (confidential bottom_right) = Some c
    /\ painted c = [run]
    /\ Rmax 8 (48 * Thumbnail.scaleFactor) <= fst (painted_at run)
       <= 150 - Rmax 8 (48 * Thumbnail.scaleFactor).
Proof.
  destruct (@thumbnail_image_anchor_within_margins (fixed_width_host 200) 0
              (confidential bottom_right) eq_refl ltac:(simpl; lra))
    as (c & run & Hrun & _ & _ & Hp & _ & Hx & _).
  exists c, run. split; [exact Hrun|]. split; [exact Hp | exact Hx].
Defined.

Lemma canvas_dimension_le (v : R) : canvas_dimension v <= v.
Proof. unfold canvas_dimension. destruct (base_Int_part v) as [Hle _]. exact Hle. Qed.

Lemma canvas_dimension_integer (a : Z) : canvas_dimension (IZR a) = IZR a.
Proof.
  unfold canvas_dimension. f_equal. symmetry. apply Int_part_spec. lra.
Qed.

(** X15.  The canvas of the image preview fits: for a parent of positive width
    and an image of positive width, the canvas is no wider than the parent, no
    wider than the image and no higher than the image (the image is scaled
    down, never up).  An image that is not wider than the parent keeps its
    size, its width and height being whole numbers. *)
Theorem preview_image_canvas_fits (parentWidth imgWidth imgHeight : R) :
  0 < parentWidth -> 0 < imgWidth -> 0 <= imgHeight ->
  let c := preview_image_canvas parentWidth imgWidth imgHeight in
  (width c <= parentWidth /\ width c <= imgWidth /\ height c <= imgHeight)
  /\ (forall a b : Z, imgWidth = IZR a -> imgHeight = IZR b -> imgWidth <= parentWidth ->
        width c = imgWidth /\ height c = imgHeight).
Proof.
  intros Hpw Hiw Hih. cbv zeta. unfold preview_image_canvas.
  cbn [width height blank_canvas].
  set (scale := Rmin (parentWidth / imgWidth) 1).
  assert (Hs1 : scale <= 1) by apply Rmin_r.
  assert (Hs2 : scale <= parentWidth / imgWidth) by apply Rmin_l.
  assert (Hw1 : imgWidth * scale <= imgWidth).
  { replace imgWidth with (imgWidth * 1) at 2 by ring.
    apply Rmult_le_compat_l; lra. }
  assert (Hw2 : imgWidth * scale <= parentWidth).
  { apply Rle_trans with (imgWidth * (parentWidth / imgWidth)).
    - apply Rmult_le_compat_l; lra.
    - right. field. lra. }
  assert (Hh : imgHeight * scale <= imgHeight).
  { replace imgHeight with (imgHeight * 1) at 2 by ring.
    apply Rmult_le_compat_l; lra. }
  pose proof (canvas_dimension_le (imgWidth * scale)).
  pose proof (canvas_dimension_le (imgHeight * scale)).
  split; [repeat split; lra|].
  intros a b Ha Hb Hfit.
  assert (Hscale : scale = 1).
  { unfold scale. apply Rmin_right.
    apply (Rmult_le_reg_r imgWidth); [exact Hiw|].
    replace (parentWidth / imgWidth * imgWidth) with parentWidth by (field; lra). lra. }
  rewrite Hscale, !Rmult_1_r, Ha, Hb.
  split; apply canvas_dimension_integer.
Qed.

Lemma preview_image_canvas_fits_witness :
  width (preview_image_canvas 600 400 300) = 400
  /\ height (preview_image_canvas 600 400 300) = 300.
Proof.
  apply (proj2 (preview_image_canvas_fits 600 400 300 ltac:(lra) ltac:(lra) ltac:(lra))
           400%Z 300%Z eq_refl eq_refl ltac:(lra)).
Defined.

(** ** The page export *)

Lemma add_ops_nil (p : PDFPage) : add_ops p [] = p.
Proof. destruct p. unfold add_ops. simpl. rewrite app_nil_r. reflexivity. Qed.

Lemma add_ops_app (p : PDFPage) (a b : list (string * DrawTextOptions)) :
  add_ops (add_ops p a) b = add_ops p (a ++ b).
Proof. unfold add_ops. simpl. rewrite app_assoc. reflexivity. Qed.

(** One page in single mode: one call, whatever the fuel. *)
Lemma watermarkPage_single `{Host} fuel t fs col op an ps rs cs (p : PDFPage) :
  let size := fs * (page_width p / 1000) in
  let pos := SettingsPanel.getWatermarkPositionPdf ps (page_width p) (page_height p) size in
  SettingsPanel.watermarkPage fuel (mkOptions t fs col op an single ps rs cs) p
  = Some (tt, add_ops p
                [(t, mkDrawText
                       (SettingsPanel.single_draw_x ps (pdf_x pos) (widthOfTextAtSize t size))
                       (pdf_y pos) Helvetica size (pdf_color col) op (degrees an))]).
Proof. reflexivity. Qed.

Lemma watermarkPage_repeating `{Host} fuel t fs col op an ps rs cs (p : PDFPage) :
  let size := fs * (page_width p / 1000) in
  let tw := widthOfTextAtSize t size in
  let rad := an * PI / 180 in
  let hS := SettingsPanel.pdf_hSpacing tw size rad cs in
  let vS := SettingsPanel.pdf_vSpacing tw size rad rs in
  SettingsPanel.watermarkPage fuel (mkOptions t fs col op an repeating ps rs cs) p
  = for_lt fuel 0 (page_height p + vS) vS (fun y =>
      for_lt fuel 0 (page_width p + hS) hS (fun x =>
        drawText t (mkDrawText x y Helvetica size (pdf_color col) op (degrees an)))) p.
Proof. reflexivity. Qed.

(** One page in repeating mode, when the loops return: the grid they ran
    through and the page they leave. *)
Lemma watermarkPage_finished `{Host} fuel t fs col op an ps rs cs (p p' : PDFPage) :
  let size := fs * (page_width p / 1000) in
  let tw := widthOfTextAtSize t size in
  let rad := an * PI / 180 in
  let hS := SettingsPanel.pdf_hSpacing tw size rad cs in
  let vS := SettingsPanel.pdf_vSpacing tw size rad rs in
  SettingsPanel.watermarkPage fuel (mkOptions t fs col op an repeating ps rs cs) p
  = Some (tt, p') ->
  exists ys xs,
    range_lt fuel 0 (page_height p + vS) vS = Some ys
    /\ (ys <> [] -> range_lt fuel 0 (page_width p + hS) hS = Some xs)
    /\ p' = add_ops p
              (map (fun o => (t, mkDrawText (fst o) (snd o) Helvetica size (pdf_color col)
                                            op (degrees an)))
                   (flat_map (fun y => map (fun x => (x, y)) xs) ys)).
Proof.
  intros size tw rad hS vS Hrun.
  rewrite watermarkPage_repeating in Hrun.
  apply (emit_rows_finished add_ops
           (fun _ x y => (t, mkDrawText x y Helvetica (fs * (page_width p / 1000))
                                        (pdf_color col) op (degrees an)))
           (fun y x => drawText t (mkDrawText x y Helvetica (fs * (page_width p / 1000))
                                              (pdf_color col) op (degrees an)))
           add_ops_nil add_ops_app (fun _ _ _ _ => eq_refl) (fun _ _ _ => eq_refl)) in Hrun.
  destruct Hrun as (ys & xs & Hys & Hxs & ->).
  exists ys, xs. split; [exact Hys|]. split; [exact Hxs|].
  pose proof (runs_of_grid
                (fun o => (t, mkDrawText (fst o) (snd o) Helvetica size (pdf_color col)
                                         op (degrees an)))
                (fun x y => (x, y)) xs ys) as Hg.
  cbv beta in Hg. rewrite <- Hg. reflexivity.
Qed.

Lemma watermarkPage_marks `{Host} fuel options (p p' : PDFPage) :
  SettingsPanel.watermarkPage fuel options p = Some (tt, p') -> page_marked options p p'.
Proof.
  destruct options as [t fs col op an md ps rs cs]. unfold page_marked, is_mark.
  cbn [text fontSize color opacity angle].
  destruct md; intros Hrun.
  - rewrite watermarkPage_single in Hrun. injection Hrun as <-.
    cbn [add_ops page_width page_height page_ops].
    split; [reflexivity|]. split; [reflexivity|].
    eexists. split; [reflexivity|].
    constructor; [|constructor]. cbn. repeat split; reflexivity.
  - apply watermarkPage_finished in Hrun.
    destruct Hrun as (ys & xs & _ & _ & ->).
    cbn [add_ops page_width page_height page_ops].
    split; [reflexivity|]. split; [reflexivity|].
    eexists. split; [reflexivity|].
    apply Forall_forall. intros o Hin. apply in_map_iff in Hin.
    destruct Hin as [xy [<- _]]. cbn. repeat split; reflexivity.
Qed.

(** X16.  The page export, when it returns, returns as many pages as it was
    given, in the same order and of the same sizes; on each page the drawing
    calls that were there are still there, in place, and every call added
    draws the text of the options in Helvetica at the font size scaled by a
    thousandth of the page width, in their colour and opacity, rotated by
    their angle. *)
Theorem pdf_export_keeps_pages `{Host} (fuel : nat) (options : WatermarkOptions)
    (pages pages' : list PDFPage) :
  SettingsPanel.applyWatermarkToPdf fuel options pages = Some pages' ->
  List.length pages' = List.length pages
  /\ Forall2 (page_marked options) pages pages'.
Proof.
  revert pages'. induction pages as [|p pages IH]; intros pages' Hrun; simpl in Hrun.
  - injection Hrun as <-. split; [reflexivity | constructor].
  - destruct (SettingsPanel.watermarkPage fuel options p) as [[[] p']|] eqn:Hp;
      [|discriminate].
    destruct (SettingsPanel.applyWatermarkToPdf fuel options pages) as [rest|];
      [|discriminate].
    injection Hrun as <-.
    destruct (IH rest eq_refl) as [Hlen Hall].
    split; [simpl; rewrite Hlen; reflexivity|].
    constructor; [|exact Hall]. exact (watermarkPage_marks fuel options p p' Hp).
Qed.

Lemma pdf_export_keeps_pages_witness :
  exists pages',
    @SettingsPanel.applyWatermarkToPdf (fixed_width_host 200) 0 (confidential top_left)
      [mkPage 1000 800 []; mkPage 500 700 []] = Some pages'
    /\ List.length pages' = 2%nat.
Proof.
  eexists. split.
  - reflexivity.
  - apply (@pdf_export_keeps_pages (fixed_width_host 200) 0 (confidential top_left)
             [mkPage 1000 800 []; mkPage 500 700 []] _ eq_refl).
Defined.



(** X18.  In repeating mode, when the loops over a page return, the calls
    added have their origins in [0, width + hSpacing) x [0, height + vSpacing)
    and, the strides being positive, the cells of the origins cover the page:
    every point of the page lies in the cell of the origin of some call. *)
Theorem pdf_grid_covers_page `{Host} (fuel : nat) (options : WatermarkOptions)
    (p p' : PDFPage) :
  mode options = repeating ->
  SettingsPanel.watermarkPage fuel options p = Some (tt, p') ->
  let size := fontSize options * (page_width p / 1000) in
  let tw := widthOfTextAtSize (text options) size in
  let rad := angle options * PI / 180 in
  let hS := SettingsPanel.pdf_hSpacing tw size rad (colSpacing options) in
  let vS := SettingsPanel.pdf_vSpacing tw size rad (rowSpacing options) in
  exists ops,
    page_ops p' = page_ops p ++ ops
    /\ (forall o, In o ops ->
          (0 <= dt_x (snd o) < page_width p + hS)
          /\ (0 <= dt_y (snd o) < page_height p + vS))
    /\ (0 < hS -> 0 < vS ->
        forall pt, 0 <= fst pt <= page_width p -> 0 <= snd pt <= page_height p ->
          exists o, In o ops /\ in_cell (dt_x (snd o), dt_y (snd o)) hS vS pt).
Proof.
  destruct options as [t fs col op an md ps rs cs].
  cbn [mode text fontSize angle rowSpacing colSpacing]. intros -> Hrun. cbv zeta.
  apply watermarkPage_finished in Hrun.
  destruct Hrun as (ys & xs & Hys & Hxs & ->).
  eexists. split; [reflexivity|]. split.
  - intros o Hin. apply in_map_iff in Hin. destruct Hin as [xy [<- Hin]].
    rewrite <- grid_no_offset in Hin.
    pose proof (grid_within _ _ _ _ _ _ 0 0 ys xs Hys Hxs xy Hin) as [Hx Hy].
    cbn [snd dt_x dt_y]. lra.
  - intros Hh Hv pt Hpx Hpy.
    destruct (grid_covers _ _ _ _ _ _ 0 0 ys xs Hys Hxs pt) as [xy [Hin Hcell]]; try lra.
    rewrite grid_no_offset in Hin.
    eexists. split.
    + apply in_map_iff. exists xy. split; [reflexivity | exact Hin].
    + cbn [snd dt_x dt_y]. destruct xy as [x y]. exact Hcell.
Qed.

(** X19.  The page export and the image export move by the same strides: for
    the same text width, text height and spacings, the strides of the page
    export at the angle [a] are those of the image export, which measures
    the angle the other way round. *)
Theorem pdf_strides_match_canvas (tw th an rs cs : R) :
  SettingsPanel.pdf_hSpacing tw th (an * PI / 180) cs
    = SettingsPanel.hSpacing tw th (- an * PI / 180) cs
  /\ SettingsPanel.pdf_vSpacing tw th (an * PI / 180) rs
    = SettingsPanel.vSpacing tw th (- an * PI / 180) rs.
Proof.
  unfold SettingsPanel.pdf_hSpacing, SettingsPanel.pdf_vSpacing,
    SettingsPanel.hSpacing, SettingsPanel.vSpacing,
    SettingsPanel.boxWidth, SettingsPanel.boxHeight.
  replace (- an * PI / 180) with (- (an * PI / 180)) by lra.
  rewrite cos_neg, sin_neg, Rabs_Ropp. split; reflexivity.
Qed.

Lemma watermarkPage_terminates `{Host} (options : WatermarkOptions) (p : PDFPage) :
  mode options = repeating ->
  let size := fontSize options * (page_width p / 1000) in
  let tw := widthOfTextAtSize (text options) size in
  let rad := angle options * PI / 180 in
  0 < SettingsPanel.pdf_hSpacing tw size rad (colSpacing options) ->
  0 < SettingsPanel.pdf_vSpacing tw size rad (rowSpacing options) ->
  exists n, forall fuel, (n <= fuel)%nat ->
    exists p', SettingsPanel.watermarkPage fuel options p = Some (tt, p').
Proof.
  destruct options as [t fs col op an md ps rs cs].
  cbn [mode text fontSize angle rowSpacing colSpacing].
  intros -> Hh Hv.
  destruct (nested_for_lt_terminates (S := PDFPage)
              (page_height p
               + SettingsPanel.pdf_vSpacing (widthOfTextAtSize t (fs * (page_width p / 1000)))
                   (fs * (page_width p / 1000)) (an * PI / 180) rs) _
              (page_width p
               + SettingsPanel.pdf_hSpacing (widthOfTextAtSize t (fs * (page_width p / 1000)))
                   (fs * (page_width p / 1000)) (an * PI / 180) cs) _ Hv Hh) as [n Hn].
  exists n. intros fuel Hfuel.
  rewrite watermarkPage_repeating.
  apply (Hn fuel (fun y x => drawText t (mkDrawText x y Helvetica
                                           (fs * (page_width p / 1000)) (pdf_color col)
                                           op (degrees an))) Hfuel).
  intros y x p0. eexists. reflexivity.
Qed.

Lemma pdf_grid_covers_page_witness :
  exists fuel p' ops,
    @SettingsPanel.watermarkPage (fixed_width_host 200) fuel
      (mkOptions "DRAFT" 48 "#ffffff" (1 / 2) 30 repeating middle_center 50 50)
      (mkPage 1000 800 []) = Some (tt, p')
    /\ page_ops p' = ops
    /\ (forall pt, 0 <= fst pt <= 1000 -> 0 <= snd pt <= 800 ->
          exists o, In o ops
            /\ dt_x (snd o) <= fst pt /\ dt_y (snd o) <= snd pt).
Proof.
  destruct (box_pos 200 (48 * (1000 / 1000)) (30 * PI / 180) ltac:(lra) ltac:(lra))
    as [Hbw Hbh].
  assert (Hh : 0 < SettingsPanel.pdf_hSpacing 200 (48 * (1000 / 1000)) (30 * PI / 180) 50)
    by (unfold SettingsPanel.pdf_hSpacing; lra).
  assert (Hv : 0 < SettingsPanel.pdf_vSpacing 200 (48 * (1000 / 1000)) (30 * PI / 180) 50)
    by (unfold SettingsPanel.pdf_vSpacing; lra).
  destruct (@watermarkPage_terminates (fixed_width_host 200)
              (mkOptions "DRAFT" 48 "#ffffff" (1 / 2) 30 repeating middle_center 50 50)
              (mkPage 1000 800 []) eq_refl Hh Hv) as [n Hn].
  destruct (Hn n (Nat.le_refl n)) as [p' Hrun].
  destruct (@pdf_grid_covers_page (fixed_width_host 200) n
              (mkOptions "DRAFT" 48 "#ffffff" (1 / 2) 30 repeating middle_center 50 50)
              (mkPage 1000 800 []) p' eq_refl Hrun) as (ops & Hops & _ & Hcov).
  exists n, p', ops. split; [exact Hrun|]. split; [exact Hops|].
  intros pt Hx Hy.
  destruct (Hcov Hh Hv pt Hx Hy) as [o [Hin [[Hcx _] [Hcy _]]]].
  exists o. split; [exact Hin|]. split; [exact Hcx | exact Hcy].
Defined.

(** ** Colours of the hexadecimal form *)





(** ** Cancelling a rasterisation *)

Lemma thumbnail_rasterising_render_is_cancelled (a b : RenderId) (t : nat)
    (p : Thumbnail.Props) (w : World) (es : list (Event Thumbnail.Props)) (w' : World) :
  renderTaskRef w = Some t -> status_of t w = Some Running ->
  Thumbnail.has_canvas p = true ->
  run Thumbnail.effect w (Rerender b p :: es) = Some w' ->
  step Thumbnail.effect w' (RenderFinished a t) = None.
Proof.
  intros Href Hrun Hc Hes. simpl in Hes.
  apply (cancelled_never_commits Thumbnail.effect Thumbnail_effect_keeps_cancelled
           a t es (Thumbnail.effect b p (run_cleanup w)) w'); [|exact Hes].
  unfold Thumbnail.effect. rewrite Hc. simpl.
  assert (Hcur : status_of t (cancel_current (run_cleanup w)) = Some Cancelled).
  { unfold run_cleanup. destruct (has_cleanup w).
    - apply cancel_current_keeps_cancelled. unfold cancel_current. rewrite Href.
      apply cancel_running, Hrun.
    - unfold cancel_current. rewrite Href. apply cancel_running, Hrun. }
  destruct (Thumbnail.has_file p); [exact Hcur|].
  destruct (Thumbnail.has_pdfDoc p); exact Hcur.
Qed.

(** X21.  A page render that is rasterising when the next render is issued,
    its task being the one in [renderTaskRef], is cancelled by that next
    render: whatever happens afterwards, the completion of its task is not
    among the events that can happen, so it never draws to the visible
    canvas.  This holds in the detail preview (when the next render gets past
    its guards) and in the thumbnail (when its canvas exists). *)
Theorem superseded_rasterisation_never_commits (a b : RenderId) (t : nat) (w : World) :
  renderTaskRef w = Some t -> status_of t w = Some Running ->
  (forall p es w',
      PreviewWindow.detail p = true -> PreviewWindow.has_canvas p = true ->
      PreviewWindow.has_file p = true ->
      run PreviewWindow.effect w (Rerender b p :: es) = Some w' ->
      step PreviewWindow.effect w' (RenderFinished a t) = None)
  /\ (forall p es w',
        Thumbnail.has_canvas p = true ->
        run Thumbnail.effect w (Rerender b p :: es) = Some w' ->
        step Thumbnail.effect w' (RenderFinished a t) = None).
Proof.
  intros Href Hrun. split.
  - intros p es w' Hd Hc Hf Hes.
    exact (rasterising_render_is_cancelled a b t p w es w' Href Hrun Hd Hc Hf Hes).
  - intros p es w' Hc Hes.
    exact (thumbnail_rasterising_render_is_cancelled a b t p w es w' Href Hrun Hc Hes).
Qed.

Lemma superseded_rasterisation_never_commits_witness :
  exists w',
    run PreviewWindow.effect rasterising_world
        [Rerender 2%nat preview_page; PageReady 2%nat] = Some w'
    /\ step PreviewWindow.effect w' (RenderFinished 1%nat 0%nat) = None.
Proof.
  eexists. split.
  - vm_compute. reflexivity.
  - apply (proj1 (superseded_rasterisation_never_commits 1%nat 2%nat 0%nat rasterising_world
                    eq_refl eq_refl) preview_page [PageReady 2%nat] _ eq_refl eq_refl eq_refl).
    vm_compute. reflexivity.
Defined.

(** ** The file on show *)

Lemma isPdfMode_first (fs : list File) :
  isPdfMode fs = true -> exists f, fs = [f] /\ file_type f = "application/pdf".
Proof.
  unfold isPdfMode. intros Hp. apply andb_true_iff in Hp. destruct Hp as [Hlen Hty].
  destruct fs as [|f [|g fs]]; try discriminate.
  exists f. split; [reflexivity|]. simpl in Hty. apply String.eqb_eq. exact Hty.
Qed.

Lemma app_step_selection (s s' : AppState) (e : AppEvent) :
  (isPdfMode (files s) = true \/ files s = []
   \/ (selectedIndex s < List.length (files s))%nat) ->
  app_step s e = Some s' ->
  isPdfMode (files s') = true \/ files s' = []
  \/ (selectedIndex s' < List.length (files s'))%nat.
Proof.
  intros Hinv Hstep. destruct e as [fs | index |]; simpl in Hstep.
  - injection Hstep as <-. cbn [files_effect setFiles files selectedIndex].
    destruct fs as [|f fs]; [right; left; reflexivity|].
    right. right. simpl. lia.
  - destruct (isPdfMode (files s)) eqn:Hpdf; simpl in Hstep.
    + injection Hstep as <-. left. exact Hpdf.
    + destruct (Nat.ltb index (List.length (files s))) eqn:Hlt; [|discriminate].
      injection Hstep as <-. right. right.
      cbn [handleThumbnailClick files selectedIndex]. apply Nat.ltb_lt. exact Hlt.
  - injection Hstep as <-. exact Hinv.
Qed.

(** X22.  Whatever the user uploads and clicks, the preview has a file to
    show as soon as there is one: after any sequence of uploads, thumbnail
    clicks and returns to the overview, [fileToRender] is defined whenever
    the list of files is not empty, and it is the one PDF when the preview is
    in PDF mode. *)
Theorem preview_has_a_file (es : list AppEvent) (s : AppState) :
  app_run initial_app es = Some s ->
  (files s <> [] -> exists f, fileToRender s = Some f /\ In f (files s))
  /\ (isPdfMode (files s) = true ->
      exists f, fileToRender s = Some f /\ files s = [f]
                /\ file_type f = "application/pdf").
Proof.
  assert (Hgen : forall s0 s1,
            (isPdfMode (files s0) = true \/ files s0 = []
             \/ (selectedIndex s0 < List.length (files s0))%nat) ->
            app_run s0 es = Some s1 ->
            isPdfMode (files s1) = true \/ files s1 = []
            \/ (selectedIndex s1 < List.length (files s1))%nat).
  { induction es as [|e es IH]; intros s0 s1 Hinv Hrun; simpl in Hrun.
    - injection Hrun as <-. exact Hinv.
    - destruct (app_step s0 e) as [s2|] eqn:Hstep; [|discriminate].
      apply (IH s2 s1); [|exact Hrun]. exact (app_step_selection s0 s2 e Hinv Hstep). }
  intros Hrun.
  pose proof (Hgen initial_app s (or_intror (or_introl eq_refl)) Hrun) as Hinv.
  split.
  - intros Hne. unfold fileToRender.
    destruct (isPdfMode (files s)) eqn:Hpdf.
    + destruct (isPdfMode_first _ Hpdf) as [f [Hf _]].
      exists f. rewrite Hf. split; [reflexivity | left; reflexivity].
    + destruct Hinv as [Hp | [He | Hlt]]; [discriminate | contradiction |].
      destruct (nth_error (files s) (selectedIndex s)) as [f|] eqn:Hnth.
      * exists f. split; [reflexivity|]. exact (nth_error_In _ _ Hnth).
      * apply nth_error_None in Hnth. lia.
  - intros Hpdf. unfold fileToRender. rewrite Hpdf.
    destruct (isPdfMode_first _ Hpdf) as [f [Hf Hty]].
    exists f. rewrite Hf. repeat split. exact Hty.
Qed.

Lemma preview_has_a_file_witness :
  exists s f,
    app_run initial_app
      [Upload [mkFile "a.png" "image/png"; mkFile "b.png" "image/png"];
       ClickThumbnail 1; BackToOverview] = Some s
    /\ fileToRender s = Some f.
Proof.
  eexists. 
  destruct (proj1 (preview_has_a_file
                     [Upload [mkFile "a.png" "image/png"; mkFile "b.png" "image/png"];
                      ClickThumbnail 1; BackToOverview] _ eq_refl)) as [f [Hf _]].
  - simpl. discriminate.
  - exists f. split; [reflexivity | exact Hf].
Defined.

(** ** Trimmed names *)

Lemma trim_start_head (s : string) :
  trim_start s = "" \/ exists c r, trim_start s = String c r /\ is_white c = false.
Proof.
  induction s as [|c s IH]; simpl; [left; reflexivity|].
  destruct (is_white c) eqn:Hc; [exact IH|].
  right. exists c, s. split; [reflexivity | exact Hc].
Qed.

Lemma trim_end_head (c : ascii) (r : string) :
  is_white c = false -> exists r', trim_end (String c r) = String c r'.
Proof.
  intros Hc. simpl. destruct (trim_end r) as [|d u].
  - rewrite Hc. exists "". reflexivity.
  - exists (String d u). reflexivity.
Qed.

Lemma trim_end_idempotent (s : string) : trim_end (trim_end s) = trim_end s.
Proof.
  induction s as [|c s IH]; [reflexivity|].
  simpl. destruct (trim_end s) as [|d u] eqn:Hs.
  - destruct (is_white c) eqn:Hc; [reflexivity|].
    simpl. rewrite Hc. reflexivity.
  - change (trim_end (String c (String d u)) = String c (String d u)).
    cbn [trim_end]. fold trim_end.
    change (match trim_end (String d u) with
            | "" => if is_white c then "" else String c ""
            | String a t => String c (String a t)
            end = String c (String d u)).
    rewrite IH. reflexivity.
Qed.

(** [trim] has nothing left to remove from what it returns. *)
Lemma trim_idempotent (s : string) : trim (trim s) = trim s.
Proof.
  unfold trim. destruct (trim_start_head s) as [-> | (c & r & -> & Hc)]; [reflexivity|].
  destruct (trim_end_head c r Hc) as [r' Hr'].
  rewrite Hr'. cbn [trim_start]. rewrite Hc. rewrite <- Hr'.
  apply trim_end_idempotent.
Qed.

(** X23.  The names of the saved styles stay clean: when every saved style has
    a name that is not empty and has no white space at either end, this is
    still so after [handleSaveStyle], whatever was typed, and after
    [deleteStyle]. *)
Theorem names_stay_clean `{Host} (p : SettingsPanel.Panel) (n : string) :
  Forall (fun s => clean_name (name s)) (SettingsPanel.savedStyles p) ->
  Forall (fun s => clean_name (name s))
         (SettingsPanel.savedStyles (SettingsPanel.handleSaveStyle p))
  /\ Forall (fun s => clean_name (name s))
            (SettingsPanel.savedStyles (SettingsPanel.deleteStyle n p)).
Proof.
  intros Hall. split.
  - unfold SettingsPanel.handleSaveStyle.
    destruct (String.eqb (trim (SettingsPanel.styleName p)) "") eqn:He; [exact Hall|].
    destruct (existsb _ (SettingsPanel.savedStyles p)); [exact Hall|].
    cbn [SettingsPanel.savedStyles]. apply Forall_app. split; [exact Hall|].
    constructor; [|constructor]. cbn [name]. split.
    + apply String.eqb_neq. exact He.
    + apply trim_idempotent.
  - unfold SettingsPanel.deleteStyle. cbn [SettingsPanel.savedStyles].
    apply Forall_forall. intros s Hin. apply filter_In in Hin.
    rewrite Forall_forall in Hall. apply Hall. tauto.
Qed.

Lemma names_stay_clean_witness :
  Forall (fun s => clean_name (name s))
         (SettingsPanel.savedStyles
            (@SettingsPanel.handleSaveStyle (fixed_width_host 0) (sample_panel "  final  "))).
Proof.
  refine (proj1 (@names_stay_clean (fixed_width_host 0) (sample_panel "  final  ") "" _)).
  constructor; [|constructor]. split; [discriminate | reflexivity].
Defined.

(** ** The image export *)

(** X24.  The image export scales the font size by a thousandth of the image
    width and uses it as the margin of the single mark.  For an image of
    positive width and a font size from 0 to 500 the mark is painted, at an
    anchor that is horizontally within the margins; it is vertically within
    the margins when the image is at least two margins high. *)
Theorem export_image_anchor `{Host} (fuel : nat) (imgWidth imgHeight : R)
    (options : WatermarkOptions) :
  mode options = single -> 0 < imgWidth -> 0 <= fontSize options <= 500 ->
  let margin := fontSize options * (imgWidth / 1000) in
  exists c run,
    SettingsPanel.applyWatermarkToImage fuel imgWidth imgHeight options = Some c
    /\ painted c = [run]
    /\ run_text run = text options
    /\ font (run_state run) = font_template margin
    /\ margin <= fst (painted_at run) <= imgWidth - margin
    /\ (2 * margin <= imgHeight -> margin <= snd (painted_at run) <= imgHeight - margin).
Proof.
  destruct options as [t fs col op an md ps rs cs].
  cbn [mode fontSize text]. intros -> Hw Hfs. cbv zeta.
  unfold SettingsPanel.applyWatermarkToImage.
  cbn [mode fontSize text color opacity angle position rowSpacing colSpacing].
  rewrite drawWatermarkOnCanvas_single.
  eexists. eexists. split; [reflexivity|].
  cbn [painted blank_canvas app run_text run_state font].
  do 3 (split; [reflexivity|]).
  unfold painted_at.
  cbn [run_state run_x run_y transform state blank_canvas initial_state].
  rewrite instance_rotation_origin. cbn [fst snd].
  destruct (getWatermarkPosition_grid ps imgWidth imgHeight (fs * (imgWidth / 1000)))
    as [-> ->].
  assert (Hm : 0 <= fs * (imgWidth / 1000)).
  { apply Rmult_le_pos; lra. }
  assert (Hm2 : 2 * (fs * (imgWidth / 1000)) <= imgWidth).
  { assert (Hle : fs * (imgWidth / 1000) <= 500 * (imgWidth / 1000)).
    { apply Rmult_le_compat_r; lra. }
    lra. }
  destruct ps; cbn [anchor_column anchor_row]; split; try lra; intros; lra.
Qed.

Lemma export_image_anchor_witness :
  exists c run,
    @SettingsPanel.applyWatermarkToImage (fixed_width_host 200) 0 2000 1500
      (confidential bottom_right) = Some c
    /\ painted c = [run]
    /\ 48 * (2000 / 1000) <= fst (painted_at run) <= 2000 - 48 * (2000 / 1000).
Proof.
  destruct (@export_image_anchor (fixed_width_host 200) 0 2000 1500
              (confidential bottom_right) eq_refl ltac:(lra) ltac:(simpl; lra))
    as (c & run & Hrun & Hp & _ & _ & Hx & _).
  exists c, run. split; [exact Hrun|]. split; [exact Hp | exact Hx].
Defined.

(** ** The strides of the four repeating renders *)

Lemma range_lt_terminates i bound step :
  0 < step ->
  exists n, forall fuel, (n <= fuel)%nat -> exists xs, range_lt fuel i bound step = Some xs.
Proof.
  intros Hstep.
  destruct (for_lt_terminates (S := unit) i bound step Hstep) as [n Hn].
  exists n. intros fuel Hfuel.
  destruct (Hn fuel (fun _ c => Some (tt, c)) Hfuel
               (fun _ c => ex_intro _ c eq_refl) tt) as [c' Hrun].
  exact (for_lt_range _ _ _ _ _ _ _ Hrun).
Qed.

Lemma canonical_origins_terminates w h hS vS :
  0 < hS -> 0 < vS ->
  exists n, forall fuel, (n <= fuel)%nat ->
    exists os, canonical_origins fuel w h hS vS = Some os.
Proof.
  intros Hh Hv.
  destruct (range_lt_terminates 0 (2 * h) vS Hv) as [ny Hny].
  destruct (range_lt_terminates 0 (2 * w) hS Hh) as [nx Hnx].
  exists (Nat.max ny nx). intros fuel Hfuel.
  destruct (Hny fuel) as [ys Hys]; [lia|].
  destruct (Hnx fuel) as [xs Hxs]; [lia|].
  unfold canonical_origins. rewrite Hys, Hxs. eexists. reflexivity.
Qed.

Lemma preview_origins_terminates w h hS vS :
  0 < hS -> 0 < vS ->
  exists n, forall fuel, (n <= fuel)%nat ->
    exists os, preview_origins fuel w h hS vS = Some os.
Proof.
  intros Hh Hv.
  destruct (range_lt_terminates 0 (h + vS) vS Hv) as [ny Hny].
  destruct (range_lt_terminates 0 (w + hS) hS Hh) as [nx Hnx].
  exists (Nat.max ny nx). intros fuel Hfuel.
  destruct (Hny fuel) as [ys Hys]; [lia|].
  destruct (Hnx fuel) as [xs Hxs]; [lia|].
  unfold preview_origins. rewrite Hys, Hxs. eexists. reflexivity.
Qed.

(** The export render: given enough fuel it returns, and paints one text at
    each origin of the canonical frame whose strides are those of the rotated
    bounding box. *)
Lemma drawWatermarkOnCanvas_rotated_box `{Host} w h t fs col op an ps rs cs (c : Canvas) :
  let tw := measureText_width (font_template fs) t in
  0 < hStride tw fs an cs -> 0 < vStride tw fs an rs ->
  exists n, forall fuel, (n <= fuel)%nat ->
    exists os c',
      canonical_origins fuel w h (hStride tw fs an cs) (vStride tw fs an rs) = Some os
      /\ SettingsPanel.drawWatermarkOnCanvas fuel w h
           (mkOptions t fs col op an repeating ps rs cs) c = Some (tt, c')
      /\ placements c'
         = placements c
           ++ map (fun o => (fst o, snd o,
                             frame_rotation (transform (state c)) w h (- an * PI / 180))) os.
Proof.
  intros tw Hh Hv.
  destruct (canonical_origins_terminates w h _ _ Hh Hv) as [n Hn].
  exists n. intros fuel Hfuel. destruct (Hn fuel Hfuel) as [os Hos].
  exists os.
  destruct (render_strides tw fs an cs rs) as (Eh & Ev & _).
  destruct (drawWatermarkOnCanvas_canonical (mkOptions t fs col op an repeating ps rs cs)
              w h fuel os c eq_refl) as [c' [Hrun Hpl]].
  { cbn [text fontSize angle rowSpacing colSpacing]. fold tw. rewrite Eh, Ev. exact Hos. }
  exists c'. split; [exact Hos|]. split; [exact Hrun | exact Hpl].
Qed.

(** The thumbnail render, on its own font size and spacings. *)
Lemma drawWatermarkToCanvas_rotated_box `{Host} t fs col op an ps rs cs label (c : Canvas) :
  let size := Rmax 8 (fs * Thumbnail.scaleFactor) in
  let tw := measureText_width (font_template size) label in
  let hS := hStride tw size an (cs * Thumbnail.scaleFactor) in
  let vS := vStride tw size an (rs * Thumbnail.scaleFactor) in
  0 < hS -> 0 < vS ->
  exists n, forall fuel, (n <= fuel)%nat ->
    exists os c',
      canonical_origins fuel (width c) (height c) hS vS = Some os
      /\ Thumbnail.drawWatermarkToCanvas fuel
           (mkOptions t fs col op an repeating ps rs cs) label c = Some (tt, c')
      /\ placements c'
         = placements c
           ++ map (fun o => (fst o, snd o,
                             frame_rotation (transform (state c)) (width c) (height c)
                                            (- an * PI / 180))) os.
Proof.
  intros size tw hS vS Hh Hv.
  destruct (canonical_origins_terminates (width c) (height c) _ _ Hh Hv) as [n Hn].
  exists n. intros fuel Hfuel. destruct (Hn fuel Hfuel) as [os Hos].
  exists os.
  destruct (render_strides tw size an (cs * Thumbnail.scaleFactor)
              (rs * Thumbnail.scaleFactor)) as (_ & _ & Eh & Ev & _).
  destruct (drawWatermarkToCanvas_canonical (mkOptions t fs col op an repeating ps rs cs)
              label fuel os c eq_refl) as [c' [Hrun Hpl]].
  { cbn [text fontSize angle rowSpacing colSpacing]. fold size. fold tw.
    rewrite Eh, Ev. exact Hos. }
  exists c'. split; [exact Hos|]. split; [exact Hrun | exact Hpl].
Qed.

(** The page export: origins from 0 with no offset, strides of the rotated
    bounding box at the scaled font size. *)
Lemma watermarkPage_rotated_box `{Host} t fs col op an ps rs cs (p : PDFPage) :
  let size := fs * (page_width p / 1000) in
  let tw := widthOfTextAtSize t size in
  0 < hStride tw size an cs -> 0 < vStride tw size an rs ->
  exists n, forall fuel, (n <= fuel)%nat ->
    exists os p',
      preview_origins fuel (page_width p) (page_height p)
        (hStride tw size an cs) (vStride tw size an rs) = Some os
      /\ SettingsPanel.watermarkPage fuel (mkOptions t fs col op an repeating ps rs cs) p
         = Some (tt, p')
      /\ page_ops p'
         = page_ops p
           ++ map (fun o => (t, mkDrawText (fst o) (snd o) Helvetica size (pdf_color col)
                                           op (degrees an))) os.
Proof.
  intros size tw Hh Hv.
  destruct (preview_origins_terminates (page_width p) (page_height p) _ _ Hh Hv) as [n Hn].
  exists n. intros fuel Hfuel. destruct (Hn fuel Hfuel) as [os Hos].
  exists os. unfold preview_origins in Hos |- *.
  destruct (range_lt fuel 0 (page_height p + _) _) as [ys|] eqn:Hys; [|discriminate].
  destruct (range_lt fuel 0 (page_width p + _) _) as [xs|] eqn:Hxs; [|discriminate].
  injection Hos as <-.
  destruct (render_strides tw size an cs rs) as (_ & _ & _ & _ & Eh & Ev).
  pose proof (emit_rows add_ops
             (fun _ x y => (t, mkDrawText x y Helvetica size (pdf_color col) op (degrees an)))
             (fun y x => drawText t (mkDrawText x y Helvetica size (pdf_color col) op
                                                (degrees an)))
             add_ops_nil add_ops_app (fun _ _ _ _ => eq_refl) (fun _ _ _ => eq_refl)
             _ _ _ _ _ _ _ ys xs p Hys (fun _ => Hxs)) as Hrun.
  rewrite <- Ev, <- Eh in Hrun.
  eexists. split; [reflexivity|]. split; [exact Hrun|].
  cbn [add_ops page_ops]. f_equal.
  exact (runs_of_grid
           (fun o => (t, mkDrawText (fst o) (snd o) Helvetica size (pdf_color col)
                                    op (degrees an)))
           (fun x y => (x, y)) xs ys).
Qed.

(** The preview render: origins from 0 with no offset, and strides that are
    the text's own width and the font size plus the spacings, whatever the
    angle. *)
Lemma drawWatermark_own_strides `{Host} t fs col op an ps rs cs (c : Canvas) :
  let tw := measureText_width (font_template fs) t in
  0 < tw + cs -> 0 < fs + rs ->
  exists n, forall fuel, (n <= fuel)%nat ->
    exists os c',
      preview_origins fuel (width c) (height c) (tw + cs) (fs + rs) = Some os
      /\ PreviewWindow.drawWatermark fuel (mkOptions t fs col op an repeating ps rs cs) c
         = Some (tt, c')
      /\ placements c'
         = placements c
           ++ map (fun o => (0, 0, instance_rotation (transform (state c)) (fst o) (snd o)
                                                     (- an * PI / 180))) os.
Proof.
  intros tw Hh Hv.
  destruct (preview_origins_terminates (width c) (height c) _ _ Hh Hv) as [n Hn].
  exists n. intros fuel Hfuel. destruct (Hn fuel Hfuel) as [os Hos].
  exists os.
  destruct (drawWatermark_per_instance (mkOptions t fs col op an repeating ps rs cs)
              fuel os c eq_refl) as [c' [Hrun Hpl]].
  { exact Hos. }
  exists c'. split; [exact Hos|]. split; [exact Hrun | exact Hpl].
Qed.

(** *** The failing input: "CONFIDENTIAL" measuring 200 wide at font size 48,
    turned by 90 degrees, no spacing, on a canvas of 100 by 50 *)

Lemma upright_strides : hStride 200 48 90 0 = 48 /\ vStride 200 48 90 0 = 200.
Proof.
  destruct (rotated_box_0_90 200 48 0 0) as (_ & _ & Hw & Hh).
  unfold hStride, vStride. rewrite Hw, Hh. split; lra.
Qed.

Lemma upright_canonical :
  canonical_origins 6 100 50 (hStride 200 48 90 0) (vStride 200 48 90 0)
  = Some [(- 100, - 50); (- 52, - 50); (- 4, - 50); (44, - 50); (92, - 50)].
Proof.
  destruct upright_strides as [-> ->].
  unfold canonical_origins.
  repeat decide_turn range_lt_enter range_lt_exit.
  cbv [flat_map map app fst snd].
  repeat (f_equal; try lra).
Qed.

Lemma upright_preview :
  preview_origins 6 100 50 (PreviewWindow.hSpacing 200 0) (PreviewWindow.vSpacing 48 0)
  = Some [(0, 0); (200, 0); (0, 48); (200, 48); (0, 96); (200, 96)].
Proof.
  unfold preview_origins, PreviewWindow.hSpacing, PreviewWindow.vSpacing.
  repeat decide_turn range_lt_enter range_lt_exit.
  cbv [flat_map map app fst snd].
  repeat (f_equal; try lra).
Qed.

(** C5.  The strides of the repeating renders.  The rotated bounding box of
    the specification gives, at angle 0, the strides [textWidth + colSpacing]
    and [textHeight + rowSpacing], and at 90 degrees a box [textHeight] wide
    and [textWidth] high.  The image export, the thumbnail render and the
    page export take their strides from that box: whenever the strides are
    positive they return, given enough fuel, and place one text at every
    origin of the grid that has those strides.  The preview render does not:
    at every angle its strides are [textWidth + colSpacing] and
    [fontSize + rowSpacing].  At the failing input (a text 200 wide at font
    size 48, 90 degrees, no spacing, canvas 100 by 50) the box gives the
    strides 48 and 200; the export paints its texts 48 apart in one row, the
    preview paints them 200 apart in rows 48 apart. *)
Theorem preview_strides_ignore_angle :
  (forall tw th cs rs : R,
      hStride tw th 0 cs = tw + cs /\ vStride tw th 0 rs = th + rs
      /\ rotated_boxWidth tw th 90 = th /\ rotated_boxHeight tw th 90 = tw)
  /\ (forall (host : Host) w h t fs col op an ps rs cs (c : Canvas),
        let tw := measureText_width (font_template fs) t in
        0 < hStride tw fs an cs -> 0 < vStride tw fs an rs ->
        exists n, forall fuel, (n <= fuel)%nat ->
          exists os c',
            canonical_origins fuel w h (hStride tw fs an cs) (vStride tw fs an rs) = Some os
            /\ SettingsPanel.drawWatermarkOnCanvas fuel w h
                 (mkOptions t fs col op an repeating ps rs cs) c = Some (tt, c')
            /\ placements c'
               = placements c
                 ++ map (fun o => (fst o, snd o,
                                   frame_rotation (transform (state c)) w h
                                                  (- an * PI / 180))) os)
  /\ (forall (host : Host) t fs col op an ps rs cs label (c : Canvas),
        let size := Rmax 8 (fs * Thumbnail.scaleFactor) in
        let tw := measureText_width (font_template size) label in
        let hS := hStride tw size an (cs * Thumbnail.scaleFactor) in
        let vS := vStride tw size an (rs * Thumbnail.scaleFactor) in
        0 < hS -> 0 < vS ->
        exists n, forall fuel, (n <= fuel)%nat ->
          exists os c',
            canonical_origins fuel (width c) (height c) hS vS = Some os
            /\ Thumbnail.drawWatermarkToCanvas fuel
                 (mkOptions t fs col op an repeating ps rs cs) label c = Some (tt, c')
            /\ placements c'
               = placements c
                 ++ map (fun o => (fst o, snd o,
                                   frame_rotation (transform (state c)) (width c) (height c)
                                                  (- an * PI / 180))) os)
  /\ (forall (host : Host) t fs col op an ps rs cs (p : PDFPage),
        let size := fs * (page_width p / 1000) in
        let tw := widthOfTextAtSize t size in
        0 < hStride tw size an cs -> 0 < vStride tw size an rs ->
        exists n, forall fuel, (n <= fuel)%nat ->
          exists os p',
            preview_origins fuel (page_width p) (page_height p)
              (hStride tw size an cs) (vStride tw size an rs) = Some os
            /\ SettingsPanel.watermarkPage fuel
                 (mkOptions t fs col op an repeating ps rs cs) p = Some (tt, p')
            /\ page_ops p'
               = page_ops p
                 ++ map (fun o => (t, mkDrawText (fst o) (snd o) Helvetica size
                                                 (pdf_color col) op (degrees an))) os)
  /\ (forall (host : Host) t fs col op an ps rs cs (c : Canvas),
        let tw := measureText_width (font_template fs) t in
        0 < tw + cs -> 0 < fs + rs ->
        exists n, forall fuel, (n <= fuel)%nat ->
          exists os c',
            preview_origins fuel (width c) (height c) (tw + cs) (fs + rs) = Some os
            /\ PreviewWindow.drawWatermark fuel
                 (mkOptions t fs col op an repeating ps rs cs) c = Some (tt, c')
            /\ placements c'
               = placements c
                 ++ map (fun o => (0, 0,
                                   instance_rotation (transform (state c)) (fst o) (snd o)
                                                     (- an * PI / 180))) os)
  /\ (let host := fixed_width_host 200 in
      let rad := - 90 * PI / 180 in
      hStride 200 48 90 0 = 48 /\ vStride 200 48 90 0 = 200
      /\ (exists c',
            @SettingsPanel.drawWatermarkOnCanvas host 6 100 50 upright_confidential
              (blank_canvas 100 50) = Some (tt, c')
            /\ placements c'
               = map (fun x => (x, - 50, frame_rotation m_identity 100 50 rad))
                     [- 100; - 52; - 4; 44; 92])
      /\ (exists c',
            @PreviewWindow.drawWatermark host 6 upright_confidential (blank_canvas 100 50)
            = Some (tt, c')
            /\ placements c'
               = map (fun o => (0, 0, instance_rotation m_identity (fst o) (snd o) rad))
                     [(0, 0); (200, 0); (0, 48); (200, 48); (0, 96); (200, 96)])).
Proof.
  split; [exact rotated_box_0_90|].
  split; [intros host; exact (@drawWatermarkOnCanvas_rotated_box host)|].
  split; [intros host; exact (@drawWatermarkToCanvas_rotated_box host)|].
  split; [intros host; exact (@watermarkPage_rotated_box host)|].
  split; [intros host; exact (@drawWatermark_own_strides host)|].
  intros host rad.
  split; [exact (proj1 upright_strides)|]. split; [exact (proj2 upright_strides)|].
  split.
  - pose proof upright_canonical as Hos.
    destruct (render_strides 200 48 90 0 0) as (Eh & Ev & _).
    rewrite <- Eh, <- Ev in Hos.
    destruct (@drawWatermarkOnCanvas_canonical host upright_confidential 100 50 6 _
                (blank_canvas 100 50) eq_refl Hos) as [c' [Hrun Hpl]].
    exists c'. split; [exact Hrun | exact Hpl].
  - destruct (@drawWatermark_per_instance host upright_confidential 6 _
                (blank_canvas 100 50) eq_refl upright_preview) as [c' [Hrun Hpl]].
    exists c'. split; [exact Hrun | exact Hpl].
Qed.

Lemma preview_strides_ignore_angle_witness :
  exists n, forall fuel, (n <= fuel)%nat ->
    exists os c',
      canonical_origins fuel 1000 800 (hStride 200 48 0 50) (vStride 200 48 0 50) = Some os
      /\ @SettingsPanel.drawWatermarkOnCanvas (fixed_width_host 200) fuel 1000 800
           (mkOptions "CONFIDENTIAL" 48 "#ffffff" (1 / 2) 0 repeating middle_center 50 50)
           (blank_canvas 1000 800) = Some (tt, c')
      /\ placements c'
         = map (fun o => (fst o, snd o, frame_rotation m_identity 1000 800 (- 0 * PI / 180)))
               os.
Proof.
  destruct preview_strides_ignore_angle as (Hbox & Hexport & _).
  destruct (Hbox 200 48 50 50) as (Eh & Ev & _).
  apply (Hexport (fixed_width_host 200) 1000 800 "CONFIDENTIAL" 48 "#ffffff" (1 / 2) 0
                 middle_center 50 50 (blank_canvas 1000 800)).
  - change (0 < hStride 200 48 0 50). rewrite Eh. lra.
  - change (0 < vStride 200 48 0 50). rewrite Ev. lra.
Defined.
